(** * JSONtoCypher_production: a shallow embedding and its properties

    The Python module [JSONtoCypher_production.py] turns a typed description
    of a graph query (nodes, relationships, filters, projections) into
    Cypher text.  This file embeds the validators, the connectivity
    analyzer, the chain builder, the pattern assembler, the clause
    renderers and the entry point, and proves properties about them.

    Conventions of the embedding:
    - a Python [str] is the [string] of its UTF-8 bytes;
    - a raised exception is the [Raise] branch of [result];
    - a [dict] is an association list in insertion order;
    - a [set] that the code iterates over is the list of its insertions,
      read back through a [SetOrder] (the hash order of the interpreter);
    - indices are [nat]. *)

From Stdlib Require Import List String Ascii ZArith Lia Bool Arith.
From Stdlib Require Import Permutation DecimalString Relations Sorted.
Import ListNotations.

Set Implicit Arguments.
Open Scope string_scope.

(* ================================================================= *)
(** ** Python strings *)

Module PyStr.

Definition newline : ascii := ascii_of_nat 10.
Definition space : ascii := " "%char.
Definition backtick : ascii := "`"%char.
Definition dot : ascii := "."%char.

(** [c in s] for a one-character [c]. *)
Fixpoint contains_char (c : ascii) (s : string) : bool :=
  match s with
  | EmptyString => false
  | String d r => Ascii.eqb c d || contains_char c r
  end.

Fixpoint count_char (c : ascii) (s : string) : nat :=
  match s with
  | EmptyString => 0
  | String d r => (if Ascii.eqb c d then 1 else 0) + count_char c r
  end.

(** [s.split(sep, 1)] when [sep] occurs in [s]: the text before and
    after the first occurrence; [None] when it does not occur. *)
Fixpoint split_once (sep s : string) : option (string * string) :=
  if prefix sep s then Some ("", substring (length sep) (length s) s)
  else match s with
       | EmptyString => None
       | String c r =>
           match split_once sep r with
           | Some (a, b) => Some (String c a, b)
           | None => None
           end
       end.

(** [s.split(sep)[0]]. *)
Definition before (sep s : string) : string :=
  match split_once sep s with
  | Some (a, _) => a
  | None => s
  end.

Fixpoint rev (s : string) : string :=
  match s with
  | EmptyString => EmptyString
  | String c r => rev r ++ String c EmptyString
  end.

(** The characters [str.isspace] accepts, by their UTF-8 bytes:
    U+0009..U+000D, U+001C..U+0020 in one byte; U+0085, U+00A0 in two;
    U+1680, U+2000..U+200A, U+2028, U+2029, U+202F, U+205F, U+3000 in
    three. *)
Definition ws1 (c : ascii) : bool :=
  let n := nat_of_ascii c in
  (((9 <=? n) && (n <=? 13)) || ((28 <=? n) && (n <=? 32)))%nat.

Definition ws2 (c1 c2 : ascii) : bool :=
  ((nat_of_ascii c1 =? 194) &&
   ((nat_of_ascii c2 =? 133) || (nat_of_ascii c2 =? 160)))%nat.

Definition ws3 (c1 c2 c3 : ascii) : bool :=
  let a := nat_of_ascii c1 in
  let b := nat_of_ascii c2 in
  let c := nat_of_ascii c3 in
  (((a =? 225) && (b =? 154) && (c =? 128))
   || ((a =? 226) && (b =? 128)
       && (((128 <=? c) && (c <=? 138)) || (c =? 168) || (c =? 169)
           || (c =? 175)))
   || ((a =? 226) && (b =? 129) && (c =? 159))
   || ((a =? 227) && (b =? 128) && (c =? 128)))%nat.

(** [s.lstrip()]. *)
Fixpoint lstrip (s : string) : string :=
  match s with
  | String c1 r1 =>
      if ws1 c1 then lstrip r1
      else match r1 with
           | String c2 r2 =>
               if ws2 c1 c2 then lstrip r2
               else match r2 with
                    | String c3 r3 => if ws3 c1 c2 c3 then lstrip r3 else s
                    | EmptyString => s
                    end
           | EmptyString => s
           end
  | EmptyString => s
  end.

(** [lstrip] on the reversed text: the bytes of a character come last
    byte first. *)
Fixpoint lstrip_rev (s : string) : string :=
  match s with
  | String c1 r1 =>
      if ws1 c1 then lstrip_rev r1
      else match r1 with
           | String c2 r2 =>
               if ws2 c2 c1 then lstrip_rev r2
               else match r2 with
                    | String c3 r3 =>
                        if ws3 c3 c2 c1 then lstrip_rev r3 else s
                    | EmptyString => s
                    end
           | EmptyString => s
           end
  | EmptyString => s
  end.

Definition rstrip (s : string) : string := rev (lstrip_rev (rev s)).

(** [s.strip()]. *)
Definition strip (s : string) : string := rstrip (lstrip s).

Fixpoint lstrip_char (c : ascii) (s : string) : string :=
  match s with
  | String d r => if Ascii.eqb c d then lstrip_char c r else s
  | EmptyString => s
  end.

(** [s.strip(c)] for a one-character [c]. *)
Definition strip_char (c : ascii) (s : string) : string :=
  rev (lstrip_char c (rev (lstrip_char c s))).

Definition nl : string := String newline EmptyString.

(** [sep.join(parts)]. *)
Definition join (sep : string) (parts : list string) : string :=
  String.concat sep parts.

(** [str(n)] for an [int] whose decimal form has no more digits than
    [sys.get_int_max_str_digits()] allows (4300 by default from CPython
    3.11 on).  For a longer integer the interpreter raises
    [ValueError]; that exception is not part of this embedding, so the
    clause renderers below stand for the code on integers within the
    limit. *)
Definition of_Z (z : Z) : string := NilZero.string_of_int (Z.to_int z).

(** [str(b).lower()] for a [bool]. *)
Definition of_bool_lower (b : bool) : string :=
  if b then "true" else "false".

(** [s.startswith(p)]. *)
Definition startswith (p s : string) : bool := prefix p s.

End PyStr.

(* ================================================================= *)
(** ** Regular expressions, as far as [validate_field_syntax] needs them *)

Module Re.

Inductive regex : Type :=
| Void : regex
| Eps : regex
| Chr : ascii -> regex
| Dot : regex                       (* any character but a line break *)
| Alt : regex -> regex -> regex
| Cat : regex -> regex -> regex
| Star : regex -> regex.

(** The words of a regular expression. *)
Inductive Matches : regex -> string -> Prop :=
| MEps : Matches Eps ""
| MChr : forall c, Matches (Chr c) (String c "")
| MDot : forall c, c <> PyStr.newline -> Matches Dot (String c "")
| MAltL : forall r1 r2 s, Matches r1 s -> Matches (Alt r1 r2) s
| MAltR : forall r1 r2 s, Matches r2 s -> Matches (Alt r1 r2) s
| MCat : forall r1 r2 s1 s2,
    Matches r1 s1 -> Matches r2 s2 -> Matches (Cat r1 r2) (s1 ++ s2)
| MStar0 : forall r, Matches (Star r) ""
| MStarS : forall r s1 s2,
    Matches r s1 -> Matches (Star r) s2 -> Matches (Star r) (s1 ++ s2).

Fixpoint nullable (r : regex) : bool :=
  match r with
  | Void => false
  | Eps => true
  | Chr _ => false
  | Dot => false
  | Alt r1 r2 => nullable r1 || nullable r2
  | Cat r1 r2 => nullable r1 && nullable r2
  | Star _ => true
  end.

Fixpoint deriv (c : ascii) (r : regex) : regex :=
  match r with
  | Void => Void
  | Eps => Void
  | Chr d => if Ascii.eqb c d then Eps else Void
  | Dot => if Ascii.eqb c PyStr.newline then Void else Eps
  | Alt r1 r2 => Alt (deriv c r1) (deriv c r2)
  | Cat r1 r2 =>
      if nullable r1
      then Alt (Cat (deriv c r1) r2) (deriv c r2)
      else Cat (deriv c r1) r2
  | Star r1 => Cat (deriv c r1) (Star r1)
  end.

(** The whole of [s] is a word of [r]. *)
Fixpoint fullmatch (r : regex) (s : string) : bool :=
  match s with
  | EmptyString => nullable r
  | String c t => fullmatch (deriv c r) t
  end.

(** [s] without its last character when that is a line break. *)
Definition chop_newline (s : string) : option string :=
  match PyStr.rev s with
  | String c t => if Ascii.eqb c PyStr.newline then Some (PyStr.rev t) else None
  | EmptyString => None
  end.

(** [re.match(r + "$", s)] for a pattern [r] that ends in [.*]: a
    match starts at the first character, and [$] holds at the end of
    the text or just before a line break that ends it. *)
Definition match_to_end (r : regex) (s : string) : bool :=
  fullmatch r s
  || match chop_newline s with
     | Some t => fullmatch r t
     | None => false
     end.

(** The pattern [^.*`.*`.*$] without its anchors. *)
Definition backticked : regex :=
  Cat (Star Dot)
      (Cat (Chr PyStr.backtick)
           (Cat (Star Dot) (Cat (Chr PyStr.backtick) (Star Dot)))).

End Re.

(* ================================================================= *)
(** ** Exceptions *)

(** The exceptions the module can raise, each with [str(e)]. *)
Inductive exn : Type :=
| ValueError (msg : string)
| TypeError (msg : string)
| IndexError (msg : string)
| KeyError (msg : string)
| ValidationError (msg : string).      (* raised by [model_validate] *)

Definition exn_str (e : exn) : string :=
  match e with
  | ValueError m | TypeError m | IndexError m | KeyError m
  | ValidationError m => m
  end.

Inductive result (A : Type) : Type :=
| Ok (a : A)
| Raise (e : exn).

Arguments Ok {A} a.
Arguments Raise {A} e.

Definition bind {A B : Type} (r : result A) (k : A -> result B) : result B :=
  match r with
  | Ok a => k a
  | Raise e => Raise e
  end.

Notation "x <- r ;; k" := (bind r (fun x => k))
  (at level 61, r at next level, right associativity).
Notation "r ;;; k" := (bind r (fun _ => k))
  (at level 61, right associativity).

(** A [for] loop whose body may raise: the first exception ends it. *)
Fixpoint for_each {A : Type} (body : A -> result unit) (l : list A)
  : result unit :=
  match l with
  | [] => Ok tt
  | x :: r => body x ;;; for_each body r
  end.

(** A list comprehension whose element expression may raise. *)
Fixpoint map_result {A B : Type} (f : A -> result B) (l : list A)
  : result (list B) :=
  match l with
  | [] => Ok []
  | x :: r => y <- f x ;; ys <- map_result f r ;; Ok (y :: ys)
  end.

(* ================================================================= *)
(** ** Dictionaries and sets *)

(** A [dict] with [str] keys, in insertion order. *)
Module Dict.

Definition t (V : Type) : Type := list (string * V).

Fixpoint get {V : Type} (k : string) (d : t V) : option V :=
  match d with
  | [] => None
  | (k', v) :: r => if String.eqb k k' then Some v else get k r
  end.

Definition mem {V : Type} (k : string) (d : t V) : bool :=
  match get k d with Some _ => true | None => false end.

(** [d[k] = v]: a present key keeps its place, a new key goes last. *)
Fixpoint set {V : Type} (k : string) (v : V) (d : t V) : t V :=
  match d with
  | [] => [(k, v)]
  | (k', v') :: r =>
      if String.eqb k k' then (k', v) :: r else (k', v') :: set k v r
  end.

Definition keys {V : Type} (d : t V) : list string := map fst d.

End Dict.

(** [x in l] for strings and for indices. *)
Definition mem_str (x : string) (l : list string) : bool :=
  existsb (String.eqb x) l.

Definition mem_nat (x : nat) (l : list nat) : bool :=
  existsb (Nat.eqb x) l.

(** [list(dict.fromkeys(l))]: the first occurrence of each element. *)
Definition fromkeys (l : list string) : list string :=
  fold_left (fun acc x => if mem_str x acc then acc else (acc ++ [x])%list) l [].

(** The order in which the interpreter iterates over a [set], given the
    elements in the order they were added.  It depends on the hashes of
    the elements; all the code may rely on is that every element comes
    once. *)
Class SetOrder : Type := {
  iter_nat : list nat -> list nat;
  iter_nat_NoDup : forall l, NoDup (iter_nat l);
  iter_nat_In : forall l x, In x (iter_nat l) <-> In x l;
  iter_str : list string -> list string;
  iter_str_NoDup : forall l, NoDup (iter_str l);
  iter_str_In : forall l x, In x (iter_str l) <-> In x l
}.

(* ================================================================= *)
(** ** Pydantic models *)

(** A JSON value bound to [Any].  [VOther] stands for any value that is
    not a string, a boolean, [None] or an integer (a float, a list, a
    dict) and carries its [str()]. *)
Inductive value : Type :=
| VStr (s : string)
| VBool (b : bool)
| VNone
| VInt (z : Z)
| VOther (text : string).

Module Condition.
Record t : Type := mk { field : string; operator : string; value : value }.
End Condition.

Module WhereClause.
Record t : Type := mk { type : string; conditions : list Condition.t }.
End WhereClause.

Module Node.
Record t : Type := mk { label : string; alias : string }.
End Node.

Module Relationship.
Record t : Type := mk {
  node1 : string;
  node2 : string;
  type : string;
  optional : option bool     (* Optional[bool] = False *)
}.
End Relationship.

Module Aggregation.
Record t : Type := mk { function : string; field : string; alias : string }.
End Aggregation.

Module WithClause.
Record t : Type := mk {
  fields : list string;
  aggregations : option (list Aggregation.t)
}.
End WithClause.

Module ReturnClause.
Record t : Type := mk { fields : list string; distinct : bool }.
End ReturnClause.

Module OrderByClause.
Record t : Type := mk { field : string; direction : string }.
End OrderByClause.

Module CypherQuery.
Record t : Type := mk {
  nodes : list Node.t;
  relationships : list Relationship.t;
  whereClause : option WhereClause.t;
  with_ : option WithClause.t;
  withClause : option WhereClause.t;
  returnClause : ReturnClause.t;
  orderBy : option OrderByClause.t;
  limit : option Z
}.
End CypherQuery.

(** Truth value of an [Optional[bool]]. *)
Definition truthy (b : option bool) : bool :=
  match b with Some true => true | _ => false end.

(* ================================================================= *)
(** ** Validation functions *)

(** [{n.alias for n in nodes}], used for membership only. *)
Definition node_aliases (nodes : list Node.t) : list string :=
  map Node.alias nodes.

Definition validate_aliases (nodes : list Node.t)
  (relationships : list Relationship.t) : result unit :=
  for_each
    (fun rel =>
       if negb (mem_str (Relationship.node1 rel) (node_aliases nodes))
       then Raise (ValueError ("Relationship node1 alias '"
                               ++ Relationship.node1 rel
                               ++ "' not found in nodes."))
       else if negb (mem_str (Relationship.node2 rel) (node_aliases nodes))
       then Raise (ValueError ("Relationship node2 alias '"
                               ++ Relationship.node2 rel
                               ++ "' not found in nodes."))
       else Ok tt)
    relationships.

Definition validate_field_syntax (fields : list string) : result unit :=
  for_each
    (fun field =>
       if PyStr.contains_char PyStr.space field
          && negb (Re.match_to_end Re.backticked field)
       then Raise (ValueError ("Field '" ++ field
                               ++ "' contains spaces and is not backticked."))
       else Ok tt)
    fields.

Definition validate_conditions (conditions : list Condition.t) : result unit :=
  for_each (fun cond => validate_field_syntax [Condition.field cond])
           conditions.

(* ================================================================= *)
(** ** Cypher pattern helpers *)

(** [{n.alias: n for n in nodes}]. *)
Definition node_lookup_of (nodes : list Node.t) : Dict.t Node.t :=
  fold_left (fun d n => Dict.set (Node.alias n) n d) nodes [].

Definition _fmt_node (alias : string) (node_lookup : Dict.t Node.t) : string :=
  match Dict.get alias node_lookup with
  | Some n => "(" ++ alias ++ ":" ++ Node.label n ++ ")"
  | None => "(" ++ alias ++ ")"
  end.

(** [f"({n.alias}:{n.label})"]. *)
Definition node_pattern (n : Node.t) : string :=
  "(" ++ Node.alias n ++ ":" ++ Node.label n ++ ")".

Definition _fmt_node_with_props (alias label : string) (props : Dict.t value)
  : string :=
  match props with
  | [] => "(" ++ alias ++ ":" ++ label ++ ")"
  | _ :: _ =>
      let assignments :=
        map (fun kv : string * value =>
               let (k, v) := kv in
               match v with
               | VStr s => k ++ ": '" ++ s ++ "'"
               | VBool b => k ++ ": " ++ PyStr.of_bool_lower b
               | VNone => k ++ ": null"
               | VInt z => k ++ ": " ++ PyStr.of_Z z
               | VOther text => k ++ ": " ++ text
               end) props in
      "(" ++ alias ++ ":" ++ label ++ " {"
          ++ PyStr.join ", " assignments ++ "})"
  end.

(** A relationship as the triple [(node1, node2, type)]. *)
Definition rel_pair : Type := string * string * string.

Definition pair_of (rel : Relationship.t) : rel_pair :=
  (Relationship.node1 rel, Relationship.node2 rel, Relationship.type rel).

Definition enumerate {A : Type} (l : list A) : list (nat * A) :=
  combine (seq 0 (List.length l)) l.

(** *** Connected components of the relationships *)

(** [a1 == b1 or a1 == b2 or a2 == b1 or a2 == b2]. *)
Definition share (p q : rel_pair) : bool :=
  let '(a1, a2, _) := p in
  let '(b1, b2, _) := q in
  String.eqb a1 b1 || String.eqb a1 b2 || String.eqb a2 b1 || String.eqb a2 b2.

(** [adj : Dict[int, Set[int]]]; each set is the list of its elements in
    the order they were added. *)
Definition adj_t : Type := list (nat * list nat).

Fixpoint adj_get (i : nat) (adj : adj_t) : list nat :=
  match adj with
  | [] => []
  | (k, s) :: r => if Nat.eqb i k then s else adj_get i r
  end.

Definition set_add (j : nat) (s : list nat) : list nat :=
  if mem_nat j s then s else (s ++ [j])%list.

(** [adj[i].add(j)] on a [defaultdict(set)]. *)
Fixpoint adj_add (i j : nat) (adj : adj_t) : adj_t :=
  match adj with
  | [] => [(i, [j])]
  | (k, s) :: r =>
      if Nat.eqb i k then (k, set_add j s) :: r else (k, s) :: adj_add i j r
  end.

Definition build_adj (rel_pairs : list rel_pair) : adj_t :=
  fold_left
    (fun adj (ip : nat * rel_pair) =>
       fold_left
         (fun adj (jq : nat * rel_pair) =>
            if Nat.eqb (fst ip) (fst jq) then adj
            else if share (snd ip) (snd jq)
                 then adj_add (fst jq) (fst ip) (adj_add (fst ip) (fst jq) adj)
                 else adj)
         (enumerate rel_pairs) adj)
    (enumerate rel_pairs) [].

(** The body of [for v in adj[u]], on the pair [(seen, dq)]. *)
Definition visit (st : list nat * list nat) (v : nat) : list nat * list nat :=
  if mem_nat v (fst st) then st else (v :: fst st, (snd st ++ [v])%list).

Section Components.
Context {O : SetOrder}.

(** [while dq: ...]; [fuel] bounds the number of iterations, [None] is
    a loop that has not ended within it.  Returns [(comp, seen)]. *)
Fixpoint bfs (fuel : nat) (adj : adj_t) (dq seen comp : list nat)
  : option (list nat * list nat) :=
  match dq with
  | [] => Some (comp, seen)
  | u :: dq' =>
      match fuel with
      | 0 => None
      | S fuel' =>
          let st := fold_left visit (iter_nat (adj_get u adj)) (seen, dq') in
          bfs fuel' adj (snd st) (fst st) (comp ++ [u])%list
      end
  end.

(** [for i in range(len(rel_pairs)): ...] on the indices still to come. *)
Fixpoint components_loop (fuel : nat) (adj : adj_t) (todo seen : list nat)
  (comps : list (list nat)) : option (list (list nat)) :=
  match todo with
  | [] => Some comps
  | i :: rest =>
      if mem_nat i seen then components_loop fuel adj rest seen comps
      else match bfs fuel adj [i] (i :: seen) [] with
           | Some (comp, seen') =>
               components_loop fuel adj rest seen' (comps ++ [comp])%list
           | None => None
           end
  end.

Definition components_fuel (fuel : nat) (rel_pairs : list rel_pair)
  : option (list (list nat)) :=
  components_loop fuel (build_adj rel_pairs)
                  (seq 0 (List.length rel_pairs)) [] [].

(** Every index enters the queue at most once, so as many iterations
    as there are relationships end each [while] loop (lemma
    [components_fuel_total] below): the [None] branch is never taken. *)
Definition _connected_components_on_rels (rel_pairs : list rel_pair)
  : list (list nat) :=
  match components_fuel (List.length rel_pairs) rel_pairs with
  | Some comps => comps
  | None => []
  end.

End Components.

(** *** Chaining one component *)

(** The value of [start]: an alias, or, when no alias has degree 1, the
    default handed to [next], which is the list [comp_edges] itself. *)
Inductive start_t : Type :=
| StartAlias (alias : string)
| StartEdges (comp_edges : list rel_pair).

(** The pieces of a pattern.  An arrow remembers the position in
    [comp_edges] of the relationship it renders. *)
Inductive token : Type :=
| TNode (text : string)
| TFwd (ei : nat) (rt : string)
| TRev (ei : nat) (rt : string)
| TSep.

Definition token_text (t : token) : string :=
  match t with
  | TNode text => text
  | TFwd _ rt => "-[:" ++ rt ++ "]->"
  | TRev _ rt => "<-[:" ++ rt ++ "]-"
  | TSep => ", "
  end.

Definition render (toks : list token) : string :=
  PyStr.join "" (map token_text toks).

(** [degree[k] += 1] on a [defaultdict(int)]. *)
Definition incr (k : string) (d : Dict.t nat) : Dict.t nat :=
  Dict.set k (match Dict.get k d with Some n => n + 1 | None => 1 end) d.

Definition degree_of (comp_edges : list rel_pair) : Dict.t nat :=
  fold_left (fun d (e : rel_pair) =>
               let '(a, b, _) := e in incr b (incr a d))
            comp_edges [].

(** [{a for a, _, _ in comp_edges} | {b for _, b, _ in comp_edges}],
    used for membership only. *)
Definition aliases_in_comp (comp_edges : list rel_pair) : list string :=
  (map (fun e : rel_pair => fst (fst e)) comp_edges
   ++ map (fun e : rel_pair => snd (fst e)) comp_edges)%list.

Definition choose_start (comp_edges : list rel_pair)
  (preferred_start : option string) : start_t :=
  let in_comp :=
    match preferred_start with
    | Some p => mem_str p (aliases_in_comp comp_edges)
    | None => false
    end in
  match preferred_start, in_comp with
  | Some p, true => StartAlias p
  | _, _ =>
      match find (fun kd : string * nat => Nat.eqb (snd kd) 1)
                 (degree_of comp_edges) with
      | Some (alias, _) => StartAlias alias
      | None => StartEdges comp_edges
      end
  end.

(** [alias_adj[k].append(idx)] on a [defaultdict(list)]. *)
Definition adj_append (k : string) (idx : nat) (d : Dict.t (list nat))
  : Dict.t (list nat) :=
  Dict.set k (match Dict.get k d with
              | Some l => (l ++ [idx])%list
              | None => [idx]
              end) d.

Definition alias_adj_of (comp_edges : list rel_pair) : Dict.t (list nat) :=
  fold_left (fun d (ie : nat * rel_pair) =>
               let '(idx, (a, b, _)) := ie in
               adj_append b idx (adj_append a idx d))
            (enumerate comp_edges) [].

(** [alias_adj[current]]. *)
Definition alias_adj_get (current : string) (d : Dict.t (list nat))
  : list nat :=
  match Dict.get current d with Some l => l | None => [] end.

Definition index_error {A : Type} : result A :=
  Raise (IndexError "list index out of range").

(** The [for ei in alias_adj[current]] loop up to its [break]: the first
    [ei] with [used[ei]] false. *)
Fixpoint first_unused (used : list bool) (eis : list nat)
  : result (option nat) :=
  match eis with
  | [] => Ok None
  | ei :: r =>
      match nth_error used ei with
      | None => index_error
      | Some true => first_unused used r
      | Some false => Ok (Some ei)
      end
  end.

(** [used[ei] = True]. *)
Fixpoint mark (ei : nat) (used : list bool) : list bool :=
  match used, ei with
  | [], _ => []
  | _ :: r, 0 => true :: r
  | b :: r, S k => b :: mark k r
  end.

(** The fallback: every relationship as a two-node pattern of its own. *)
Fixpoint simples (node_lookup : Dict.t Node.t) (ies : list (nat * rel_pair))
  : list token :=
  match ies with
  | [] => []
  | (idx, (a, b, rt)) :: r =>
      let one := [TNode (_fmt_node a node_lookup); TFwd idx rt;
                  TNode (_fmt_node b node_lookup)] in
      match r with
      | [] => one
      | _ :: _ => (one ++ TSep :: simples node_lookup r)%list
      end
  end.

(** [while used_count < len(comp_edges)]; [remaining] is
    [len(comp_edges) - used_count]. *)
Fixpoint walk (comp_edges : list rel_pair) (node_lookup : Dict.t Node.t)
  (alias_adj : Dict.t (list nat)) (remaining : nat) (used : list bool)
  (current : string) (segs : list token) : result (list token) :=
  match remaining with
  | 0 => Ok segs
  | S remaining' =>
      found <- first_unused used (alias_adj_get current alias_adj) ;;
      match found with
      | Some ei =>
          match nth_error comp_edges ei with
          | None => index_error
          | Some (a, b, rt) =>
              if String.eqb a current
              then walk comp_edges node_lookup alias_adj remaining'
                        (mark ei used) b
                        (segs ++ [TFwd ei rt; TNode (_fmt_node b node_lookup)])%list
              else walk comp_edges node_lookup alias_adj remaining'
                        (mark ei used) a
                        (segs ++ [TRev ei rt; TNode (_fmt_node a node_lookup)])%list
          end
      | None => Ok (simples node_lookup (enumerate comp_edges))
      end
  end.

(** [[rel_pairs[i] for i in comp_idxs]]. *)
Definition comp_edges_of (rel_pairs : list rel_pair) (comp_idxs : list nat)
  : result (list rel_pair) :=
  map_result (fun i => match nth_error rel_pairs i with
                       | Some e => Ok e
                       | None => index_error
                       end) comp_idxs.

(** The pieces [_chain_component] joins. *)
Definition chain_tokens (rel_pairs : list rel_pair) (comp_idxs : list nat)
  (node_lookup : Dict.t Node.t) (preferred_start : option string)
  : result (list token) :=
  comp_edges <- comp_edges_of rel_pairs comp_idxs ;;
  match choose_start comp_edges preferred_start with
  | StartEdges _ => Raise (TypeError "unhashable type: 'list'")
  | StartAlias start =>
      walk comp_edges node_lookup (alias_adj_of comp_edges)
           (List.length comp_edges) (repeat false (List.length comp_edges))
           start [TNode (_fmt_node start node_lookup)]
  end.

Definition _chain_component (rel_pairs : list rel_pair) (comp_idxs : list nat)
  (node_lookup : Dict.t Node.t) (preferred_start : option string)
  : result string :=
  toks <- chain_tokens rel_pairs comp_idxs node_lookup preferred_start ;;
  Ok (render toks).

(** [node_lookup[alias].label]. *)
Definition label_of (alias : string) (node_lookup : Dict.t Node.t)
  : result string :=
  match Dict.get alias node_lookup with
  | Some n => Ok (Node.label n)
  | None => Raise (KeyError ("'" ++ alias ++ "'"))
  end.

Definition is_regular (rel : Relationship.t) : bool :=
  negb (truthy (Relationship.optional rel)).

Definition is_optional (rel : Relationship.t) : bool :=
  truthy (Relationship.optional rel).

(** The fields of an [AdvancedPatternBuilder]. *)
Module AdvancedPatternBuilder.
Record t : Type := mk {
  node_lookup : Dict.t Node.t;
  nodes : list Node.t;
  relationships : list Relationship.t;
  regular_rels : list Relationship.t;
  optional_rels : list Relationship.t;
  return_clause : ReturnClause.t;
  where_clause : option WhereClause.t
}.
End AdvancedPatternBuilder.

Section Patterns.
Context {O : SetOrder}.

Definition _build_single_match_clause (nodes : list Node.t)
  (relationships : list Relationship.t) : result string :=
  let regular := filter is_regular relationships in
  let node_lookup := node_lookup_of nodes in
  match regular with
  | [] =>
      match nodes with
      | _ :: _ => Ok ("MATCH " ++ PyStr.join ", " (map node_pattern nodes))
      | [] => Ok ""
      end
  | _ :: _ =>
      let rel_pairs := map pair_of regular in
      let comps := _connected_components_on_rels rel_pairs in
      patterns <- map_result
                    (fun comp => _chain_component rel_pairs comp node_lookup None)
                    comps ;;
      let involved := aliases_in_comp rel_pairs in
      let standalone :=
        map node_pattern
            (filter (fun n => negb (mem_str (Node.alias n) involved)) nodes) in
      Ok ("MATCH " ++ PyStr.join ", " (patterns ++ standalone)%list)
  end.

(** The body of the loop over [where.conditions]. *)
Definition anchor_step (node_lookup : Dict.t Node.t)
  (props_by_alias : Dict.t (Dict.t value)) (cond : Condition.t)
  : Dict.t (Dict.t value) :=
  let field := PyStr.strip (Condition.field cond) in
  match PyStr.split_once "." field with
  | None => props_by_alias
  | Some (alias0, prop0) =>
      let alias := PyStr.strip alias0 in
      let prop := PyStr.strip_char PyStr.backtick (PyStr.strip prop0) in
      if Dict.mem alias node_lookup
         && String.eqb (Condition.operator cond) "="
      then
        let props := match Dict.get alias props_by_alias with
                     | Some ps => ps
                     | None => []
                     end in
        Dict.set alias (Dict.set prop (Condition.value cond) props)
                 props_by_alias
      else props_by_alias
  end.

Definition _extract_anchor_from_where (where_ : option WhereClause.t)
  (node_lookup : Dict.t Node.t)
  : result (option (string * string * Dict.t value)) :=
  match where_ with
  | None => Ok None
  | Some w =>
      match WhereClause.conditions w with
      | [] => Ok None
      | conds =>
          match fold_left (anchor_step node_lookup) conds [] with
          | [(anchor_alias, props)] =>
              lbl <- label_of anchor_alias node_lookup ;;
              Ok (Some (anchor_alias, lbl, props))
          | _ => Ok None
          end
      end
  end.

Definition _extract_return_aliases (ret : ReturnClause.t) : list string :=
  fromkeys
    (map (fun f =>
            let part := PyStr.strip (PyStr.before " AS " f) in
            match PyStr.split_once "." part with
            | Some (a, _) => PyStr.strip a
            | None => part
            end)
         (ReturnClause.fields ret)).

Definition _build_optional_match_components (nodes : list Node.t)
  (optional_rels : list Relationship.t) (bound_aliases : list string)
  : result (list string) :=
  let node_lookup := node_lookup_of nodes in
  let opt_pairs := map pair_of optional_rels in
  let comps := _connected_components_on_rels opt_pairs in
  map_result
    (fun comp =>
       comp_edges <- comp_edges_of opt_pairs comp ;;
       let aliases :=
         flat_map (fun e : rel_pair => [fst (fst e); snd (fst e)]) comp_edges in
       let start_alias :=
         find (fun x => mem_str x bound_aliases) (iter_str aliases) in
       pattern <- _chain_component opt_pairs comp node_lookup start_alias ;;
       Ok ("OPTIONAL MATCH " ++ pattern))
    comps.

(** *** The advanced pattern builder *)

(** [AdvancedPatternBuilder.__init__]. *)
Definition new_builder (nodes : list Node.t)
  (relationships : list Relationship.t) (return_clause : ReturnClause.t)
  (where_clause : option WhereClause.t) : AdvancedPatternBuilder.t :=
  {| AdvancedPatternBuilder.node_lookup := node_lookup_of nodes;
     AdvancedPatternBuilder.nodes := nodes;
     AdvancedPatternBuilder.relationships := relationships;
     AdvancedPatternBuilder.regular_rels := filter is_regular relationships;
     AdvancedPatternBuilder.optional_rels := filter is_optional relationships;
     AdvancedPatternBuilder.return_clause := return_clause;
     AdvancedPatternBuilder.where_clause := where_clause |}.

Definition preferred_aliases : list string :=
  ["j"; "Job"; "c"; "Candidate"; "r"; "Resume"; "s"; "Skill"].

Definition nonempty (s : string) : bool :=
  match s with EmptyString => false | String _ _ => true end.

(** The first part of [build_optimal_patterns], when there are regular
    relationships: [(patterns, bound_aliases)]. *)
Definition required_part (self : AdvancedPatternBuilder.t)
  : result (list string * list string) :=
  match_line <- _build_single_match_clause
                  (AdvancedPatternBuilder.nodes self)
                  (AdvancedPatternBuilder.relationships self) ;;
  Ok (if nonempty match_line then [match_line] else [],
      flat_map (fun rel => [Relationship.node1 rel; Relationship.node2 rel])
               (AdvancedPatternBuilder.regular_rels self)).

(** The second part, when there are none:
    [(anchor_info is truthy, patterns, bound_aliases)]. *)
Definition anchor_part (self : AdvancedPatternBuilder.t)
  : result (bool * list string * list string) :=
  let node_lookup := AdvancedPatternBuilder.node_lookup self in
  anchor_info <- _extract_anchor_from_where
                   (AdvancedPatternBuilder.where_clause self) node_lookup ;;
  match anchor_info with
  | Some (a_alias, a_label, a_props) =>
      Ok (true,
          ["MATCH " ++ _fmt_node_with_props a_alias a_label a_props],
          [a_alias])
  | None =>
      let ret_aliases :=
        filter (fun a => Dict.mem a node_lookup)
               (_extract_return_aliases
                  (AdvancedPatternBuilder.return_clause self)) in
      let unique_ret := fromkeys ret_aliases in
      let chosen :=
        match find (fun p => mem_str p unique_ret) preferred_aliases with
        | Some p => Some p
        | None => match unique_ret with
                  | [a] => Some a
                  | _ => None
                  end
        end in
      match chosen with
      | Some a_alias =>
          if nonempty a_alias
          then a_label <- label_of a_alias node_lookup ;;
               Ok (false, ["MATCH (" ++ a_alias ++ ":" ++ a_label ++ ")"],
                   [a_alias])
          else Ok (false, [], [])
      | None => Ok (false, [], [])
      end
  end.

Definition build_optimal_patterns (self : AdvancedPatternBuilder.t)
  : result (list string) :=
  st <- match AdvancedPatternBuilder.regular_rels self with
        | _ :: _ =>
            pb <- required_part self ;; Ok (false, fst pb, snd pb)
        | [] => anchor_part self
        end ;;
  let '(anchor_info, patterns, bound_aliases) := st in
  patterns <- match AdvancedPatternBuilder.optional_rels self with
              | _ :: _ =>
                  opt_lines <- _build_optional_match_components
                                 (AdvancedPatternBuilder.nodes self)
                                 (AdvancedPatternBuilder.optional_rels self)
                                 bound_aliases ;;
                  Ok (patterns ++ opt_lines)%list
              | [] => Ok patterns
              end ;;
  let patterns :=
    match AdvancedPatternBuilder.relationships self, anchor_info,
          bound_aliases, AdvancedPatternBuilder.nodes self with
    | [], false, [], _ :: _ =>
        (patterns
         ++ [("MATCH " ++ PyStr.join ", "
                (map node_pattern (AdvancedPatternBuilder.nodes self)))%string])%list
    | _, _, _, _ => patterns
    end in
  Ok (filter nonempty patterns).

(* ================================================================= *)
(** ** Cypher generation functions *)

Definition build_advanced_match_clause (nodes : list Node.t)
  (relationships : list Relationship.t) (return_clause : ReturnClause.t)
  (where_clause : option WhereClause.t) : result string :=
  match relationships with
  | [] =>
      match nodes with
      | _ :: _ => Ok ("MATCH " ++ PyStr.join ", " (map node_pattern nodes))
      | [] => Ok ""
      end
  | _ :: _ =>
      let builder := new_builder nodes relationships return_clause where_clause in
      patterns <- build_optimal_patterns builder ;;
      Ok (PyStr.join PyStr.nl patterns)
  end.

End Patterns.

Definition build_where_clause (where_clause : WhereClause.t) : string :=
  let conditions :=
    map (fun cond =>
           let value :=
             match Condition.value cond with
             | VStr s => "'" ++ s ++ "'"
             | VBool b => PyStr.of_bool_lower b
             | VNone => "null"
             | VInt z => PyStr.of_Z z
             | VOther text => text
             end in
           Condition.field cond ++ " " ++ Condition.operator cond
             ++ " " ++ value)
        (WhereClause.conditions where_clause) in
  let logical_op := " " ++ WhereClause.type where_clause ++ " " in
  "WHERE " ++ PyStr.join logical_op conditions.

Definition build_with_clause (with_clause : WithClause.t) : string :=
  let parts :=
    (WithClause.fields with_clause
     ++ match WithClause.aggregations with_clause with
        | Some aggs =>
            map (fun agg => (Aggregation.function agg ++ "("
                               ++ Aggregation.field agg ++ ") AS "
                               ++ Aggregation.alias agg)%string) aggs
        | None => []
        end)%list in
  "WITH " ++ PyStr.join ", " parts.

Definition build_return_clause (return_clause : ReturnClause.t) : string :=
  let return_str := "RETURN" in
  let return_str :=
    if ReturnClause.distinct return_clause
    then return_str ++ " DISTINCT" else return_str in
  return_str ++ " " ++ PyStr.join ", " (ReturnClause.fields return_clause).

Definition build_orderby_clause (orderby_clause : OrderByClause.t) : string :=
  "ORDER BY " ++ OrderByClause.field orderby_clause ++ " "
    ++ OrderByClause.direction orderby_clause.

Definition build_limit_clause (limit : Z) : string :=
  "LIMIT " ++ PyStr.of_Z limit.

(* ================================================================= *)
(** ** Main conversion function *)

Section Conversion.
Context {O : SetOrder}.

(** The statements of the [try] block that run before any rendering. *)
Definition validate (cypher_data : CypherQuery.t) : result unit :=
  validate_aliases (CypherQuery.nodes cypher_data)
                   (CypherQuery.relationships cypher_data) ;;;
  match CypherQuery.whereClause cypher_data with
  | Some w => validate_conditions (WhereClause.conditions w)
  | None => Ok tt
  end ;;;
  validate_field_syntax
    (ReturnClause.fields (CypherQuery.returnClause cypher_data)).

(** The value of [match_clause]. *)
Definition match_section (cypher_data : CypherQuery.t) (optimize : bool)
  : result string :=
  if optimize
  then build_advanced_match_clause
         (CypherQuery.nodes cypher_data)
         (CypherQuery.relationships cypher_data)
         (CypherQuery.returnClause cypher_data)
         (CypherQuery.whereClause cypher_data)
  else _build_single_match_clause
         (CypherQuery.nodes cypher_data)
         (CypherQuery.relationships cypher_data).

(** The list [query_parts] at the end of the [try] block, for a given
    [match_clause]. *)
Definition query_parts (cypher_data : CypherQuery.t) (match_clause : string)
  : list string :=
  let query_parts : list string := [] in
  let query_parts :=
    if nonempty match_clause
    then (query_parts ++ [match_clause])%list else query_parts in
  let query_parts :=
    match CypherQuery.whereClause cypher_data with
    | Some w => (query_parts ++ [build_where_clause w])%list
    | None => query_parts
    end in
  let query_parts :=
    match CypherQuery.with_ cypher_data with
    | Some w => (query_parts ++ [build_with_clause w])%list
    | None => query_parts
    end in
  let query_parts :=
    match CypherQuery.withClause cypher_data with
    | Some w => (query_parts ++ [build_where_clause w])%list
    | None => query_parts
    end in
  let query_parts :=
    (query_parts
     ++ [build_return_clause (CypherQuery.returnClause cypher_data)])%list in
  let query_parts :=
    match CypherQuery.orderBy cypher_data with
    | Some o => (query_parts ++ [build_orderby_clause o])%list
    | None => query_parts
    end in
  let query_parts :=
    match CypherQuery.limit cypher_data with
    | Some n => (query_parts ++ [build_limit_clause n])%list
    | None => query_parts
    end in
  query_parts.

(** The [try] block after [model_validate]. *)
Definition compile (cypher_data : CypherQuery.t) (optimize : bool)
  : result string :=
  validate cypher_data ;;;
  match_clause <- match_section cypher_data optimize ;;
  Ok (PyStr.join PyStr.nl (query_parts cypher_data match_clause)).

Definition failure_marker : string := "❌ Error: ".

(** [json_data] is the input document and [model_validate] pydantic's
    [CypherQuery.model_validate], which either binds the document to the
    models or raises. *)
Variable json_data : Type.
Variable model_validate : json_data -> result CypherQuery.t.

Definition convert_json_to_cypher (doc : json_data) (optimize : bool)
  : string :=
  match cypher_data <- model_validate doc ;; compile cypher_data optimize with
  | Ok text => text
  | Raise e => failure_marker ++ exn_str e
  end.

End Conversion.

(* ================================================================= *)
(** ** Batch processing function *)

(** The status [process_all_json_files] gives the string the entry
    point returned for one document:
    ["✅ SUCCESS" if not cypher_query.startswith("❌") else "❌ FAILED"].
    Listing the directory, reading the files, printing and writing the
    report are not modelled. *)
Definition batch_status (cypher_query : string) : string :=
  if negb (PyStr.startswith "❌" cypher_query)
  then "✅ SUCCESS" else "❌ FAILED".

(* ================================================================= *)
(** * The vocabulary of the properties *)

Unset Implicit Arguments.

(** ** Sets in the order of insertion *)

(** The first occurrence of each element of [l]. *)
Fixpoint dedup {A : Type} (eqb : A -> A -> bool) (l : list A) : list A :=
  match l with
  | [] => []
  | x :: r => x :: filter (fun y => negb (eqb x y)) (dedup eqb r)
  end.

(** ** Field syntax *)

Definition no_newline (s : string) : Prop :=
  PyStr.contains_char PyStr.newline s = false.

Definition field_error (field : string) : exn :=
  ValueError ("Field '" ++ field ++ "' contains spaces and is not backticked.").

(** What the pattern [^.*`.*`.*$] finds in [field]: a single line with
    at least two backticks, possibly ended by one line break. *)
Definition one_line_backticked (field : string) : Prop :=
  exists l, (field = l \/ field = l ++ PyStr.nl)
            /\ no_newline l /\ 2 <= PyStr.count_char PyStr.backtick l.

(** The claim's words for "contains whitespace": one of the one-byte
    whitespace characters (tab, line feed, ..., space) occurs in [s]. *)
Definition has_whitespace (s : string) : bool :=
  existsb PyStr.ws1 (list_ascii_of_string s).

(** A field name with a tab between two letters. *)
Definition tab_field : string := "a" ++ String (ascii_of_nat 9) "b".

(** ** Referential integrity *)

Definition node1_error (rel : Relationship.t) : exn :=
  ValueError ("Relationship node1 alias '" ++ Relationship.node1 rel
              ++ "' not found in nodes.").

Definition node2_error (rel : Relationship.t) : exn :=
  ValueError ("Relationship node2 alias '" ++ Relationship.node2 rel
              ++ "' not found in nodes.").

(** [e] reports an endpoint of [rel] that no node declares. *)
Definition dangling (nodes : list Node.t) (rel : Relationship.t) (e : exn)
  : Prop :=
  (e = node1_error rel
   /\ mem_str (Relationship.node1 rel) (node_aliases nodes) = false)
  \/ (e = node2_error rel
      /\ mem_str (Relationship.node2 rel) (node_aliases nodes) = false).

(** A request whose only relationship starts at the undeclared alias [x]. *)
Definition dangling_request : CypherQuery.t :=
  {| CypherQuery.nodes := [Node.mk "A" "a"];
     CypherQuery.relationships := [Relationship.mk "x" "a" "R" None];
     CypherQuery.whereClause := None;
     CypherQuery.with_ := None;
     CypherQuery.withClause := None;
     CypherQuery.returnClause := ReturnClause.mk ["a"] false;
     CypherQuery.orderBy := None;
     CypherQuery.limit := None |}.

(** ** The clauses of a query *)

(** [[f(x)]] when [x] is present, nothing otherwise. *)
Definition opt_part {A : Type} (f : A -> string) (x : option A) : list string :=
  match x with Some a => [f a] | None => [] end.

(** [[match_clause]] unless it is empty. *)
Definition match_part (match_clause : string) : list string :=
  if nonempty match_clause then [match_clause] else [].

(** The clauses in their order. *)
Definition clauses_in_order (q : CypherQuery.t) (match_clause : string)
  : list string :=
  (match_part match_clause
   ++ opt_part build_where_clause (CypherQuery.whereClause q)
   ++ opt_part build_with_clause (CypherQuery.with_ q)
   ++ opt_part build_where_clause (CypherQuery.withClause q)
   ++ [build_return_clause (CypherQuery.returnClause q)]
   ++ opt_part build_orderby_clause (CypherQuery.orderBy q)
   ++ opt_part build_limit_clause (CypherQuery.limit q))%list.

(** The literal a condition's value is rendered as. *)
Definition literal (v : value) : string :=
  match v with
  | VStr s => "'" ++ s ++ "'"
  | VBool b => PyStr.of_bool_lower b
  | VNone => "null"
  | VInt z => PyStr.of_Z z
  | VOther text => text
  end.

Definition condition_text (cond : Condition.t) : string :=
  Condition.field cond ++ " " ++ Condition.operator cond ++ " "
    ++ literal (Condition.value cond).

Definition aggregation_text (agg : Aggregation.t) : string :=
  Aggregation.function agg ++ "(" ++ Aggregation.field agg ++ ") AS "
    ++ Aggregation.alias agg.

(** [q] with another WITH clause and another legacy filter. *)
Definition with_clauses (q : CypherQuery.t) (w : option WithClause.t)
  (l : option WhereClause.t) : CypherQuery.t :=
  {| CypherQuery.nodes := CypherQuery.nodes q;
     CypherQuery.relationships := CypherQuery.relationships q;
     CypherQuery.whereClause := CypherQuery.whereClause q;
     CypherQuery.with_ := w;
     CypherQuery.withClause := l;
     CypherQuery.returnClause := CypherQuery.returnClause q;
     CypherQuery.orderBy := CypherQuery.orderBy q;
     CypherQuery.limit := CypherQuery.limit q |}.

(** A request whose WITH clause and legacy filter both name a field
    with a space and no backtick. *)
Definition spaced_request : CypherQuery.t :=
  {| CypherQuery.nodes := [Node.mk "Label" "a"];
     CypherQuery.relationships := [];
     CypherQuery.whereClause := None;
     CypherQuery.with_ := None;
     CypherQuery.withClause := None;
     CypherQuery.returnClause := ReturnClause.mk ["a"] false;
     CypherQuery.orderBy := None;
     CypherQuery.limit := None |}.

Definition spaced_with : WithClause.t := WithClause.mk ["my field"] None.

Definition spaced_filter : WhereClause.t :=
  WhereClause.mk "AND" [Condition.mk "other field" "=" (VInt 1)].

(** A request with every clause. *)
Definition full_request : CypherQuery.t :=
  {| CypherQuery.nodes := [Node.mk "Person" "p"];
     CypherQuery.relationships := [];
     CypherQuery.whereClause :=
       Some (WhereClause.mk "AND"
               [Condition.mk "p.age" ">" (VInt 30);
                Condition.mk "p.name" "=" (VStr "Ann")]);
     CypherQuery.with_ :=
       Some (WithClause.mk ["p"] (Some [Aggregation.mk "count" "p" "n"]));
     CypherQuery.withClause :=
       Some (WhereClause.mk "AND" [Condition.mk "n" ">" (VInt 1)]);
     CypherQuery.returnClause := ReturnClause.mk ["p.name"; "n"] true;
     CypherQuery.orderBy := Some (OrderByClause.mk "n" "DESC");
     CypherQuery.limit := Some 5%Z |}.

(** ** Success and failure *)

(** A line of the match section. *)
Definition pattern_line (p : string) : Prop :=
  exists r, p = "MATCH " ++ r \/ p = "OPTIONAL MATCH " ++ r.

(** [s] opens with one of the letters M, O, W, R. *)
Definition opens_with_keyword (s : string) : Prop :=
  exists c r, s = String c r
              /\ (c = "M" \/ c = "O" \/ c = "W" \/ c = "R")%char.

(** [doc] compiles to [text]. *)
Definition succeeds {json_data : Type} {O : SetOrder}
  (model_validate : json_data -> result CypherQuery.t) (doc : json_data)
  (optimize : bool) (text : string) : Prop :=
  exists q, model_validate doc = Ok q /\ compile q optimize = Ok text.

(** Binding or compiling [doc] raises [e]. *)
Definition fails {json_data : Type} {O : SetOrder}
  (model_validate : json_data -> result CypherQuery.t) (doc : json_data)
  (optimize : bool) (e : exn) : Prop :=
  model_validate doc = Raise e
  \/ exists q, model_validate doc = Ok q /\ compile q optimize = Raise e.

(** ** Connectivity of relationships *)

(** Two relationships have an endpoint alias in common. *)
Definition shares_alias (p q : rel_pair) : Prop :=
  let '(a1, a2, _) := p in
  let '(b1, b2, _) := q in
  a1 = b1 \/ a1 = b2 \/ a2 = b1 \/ a2 = b2.

(** Relationships [i] and [j] of [rels] are distinct and have an
    endpoint alias in common. *)
Definition adjacent (rels : list rel_pair) (i j : nat) : Prop :=
  i <> j /\ exists p q, nth_error rels i = Some p /\ nth_error rels j = Some q
                        /\ shares_alias p q.

(** Relationships [i] and [j] are linked by a chain of relationships in
    which each has an endpoint alias in common with the next. *)
Definition connected (rels : list rel_pair) : nat -> nat -> Prop :=
  clos_refl_trans nat (adjacent rels).

(** All of [l] are indices of relationships, each once. *)
Definition indices (rels : list rel_pair) (l : list nat) : Prop :=
  NoDup l /\ forall v, In v l -> v < List.length rels.

(** [s] contains the neighbours of all of [l]. *)
Definition covers (rels : list rel_pair) (s l : list nat) : Prop :=
  forall u v, In u l -> adjacent rels u v -> In v s.

(** What the outer loop keeps true of [seen] and [comps]. *)
Record components_inv (rels : list rel_pair) (seen : list nat)
  (comps : list (list nat)) : Prop := {
  inv_indices : indices rels seen;
  inv_concat : Permutation (List.concat comps) seen;
  inv_covers : covers rels seen seen;
  inv_closed : forall comp, In comp comps -> covers rels comp comp
}.

(** Three relationships: the first and the third meet at [b], the second
    stands apart. *)
Definition three_rels : list rel_pair :=
  [("a", "b", "R"); ("c", "d", "S"); ("b", "e", "T")].

(** ** Patterns and paths *)

(** The relationships the arrows of a pattern render, by their position
    in [comp_edges], in the order of the pattern. *)
Fixpoint arrows (toks : list token) : list nat :=
  match toks with
  | [] => []
  | TFwd ei _ :: r => ei :: arrows r
  | TRev ei _ :: r => ei :: arrows r
  | _ :: r => arrows r
  end.

(** An arrow of a pattern carries the type of the relationship it stands
    for. *)
Definition renders (comp_edges : list rel_pair) (tok : token) : Prop :=
  match tok with
  | TFwd ei rt | TRev ei rt =>
      exists a b, nth_error comp_edges ei = Some (a, b, rt)
  | _ => True
  end.

(** How often [x] is an endpoint of a relationship of [es]. *)
Fixpoint occ (x : string) (es : list rel_pair) : nat :=
  match es with
  | [] => 0
  | (a, b, _) :: r =>
      (if String.eqb a x then 1 else 0) + (if String.eqb b x then 1 else 0)
      + occ x r
  end.

Definition getn (x : string) (d : Dict.t nat) : nat :=
  match Dict.get x d with Some n => n | None => 0 end.

(** Relationship [e] joins the aliases [u] and [v], in either direction. *)
Definition joins (e : rel_pair) (u v : string) : Prop :=
  (fst (fst e) = u /\ snd (fst e) = v) \/ (fst (fst e) = v /\ snd (fst e) = u).

(** [path vs es]: the relationships [es] join the aliases [vs] one after
    the other. *)
Inductive path : list string -> list rel_pair -> Prop :=
| path_end : forall v, path [v] []
| path_step : forall u v vs e es,
    joins e u v -> path (v :: vs) es -> path (u :: v :: vs) (e :: es).

(** The relationships [comp_edges] are, in some order, those of a path
    over distinct aliases: two endpoints of degree 1, every alias
    between them of degree 2. *)
Definition simple_path (comp_edges : list rel_pair) : Prop :=
  comp_edges <> []
  /\ exists vs es, NoDup vs /\ path vs es /\ Permutation es comp_edges.

(** The number of distinct node aliases of a component. *)
Definition alias_count (comp_edges : list rel_pair) : nat :=
  List.length (dedup String.eqb (aliases_in_comp comp_edges)).

(** [x] is an endpoint of a relationship of [es]. *)
Definition endpoint (x : string) (es : list rel_pair) : Prop :=
  exists e, In e es /\ (fst (fst e) = x \/ snd (fst e) = x).

(** Three relationships that close a cycle over [a], [b], [c]. *)
Definition triangle : list rel_pair :=
  [("a", "b", "R"); ("b", "c", "S"); ("c", "a", "T")].

Definition abc_lookup : Dict.t Node.t :=
  node_lookup_of [Node.mk "A" "a"; Node.mk "B" "b"; Node.mk "C" "c"].

(** The request with the nodes [a], [b], [c] and the three mandatory
    relationships of the cycle. *)
Definition triangle_request : CypherQuery.t :=
  {| CypherQuery.nodes := [Node.mk "A" "a"; Node.mk "B" "b"; Node.mk "C" "c"];
     CypherQuery.relationships :=
       [Relationship.mk "a" "b" "R" None; Relationship.mk "b" "c" "S" None;
        Relationship.mk "c" "a" "T" None];
     CypherQuery.whereClause := None;
     CypherQuery.with_ := None;
     CypherQuery.withClause := None;
     CypherQuery.returnClause := ReturnClause.mk ["a"] false;
     CypherQuery.orderBy := None;
     CypherQuery.limit := None |}.

(** Two relationships out of [b]: a path from [c] over [b] to [a]. *)
Definition fork_rels : list rel_pair := [("b", "c", "S"); ("b", "a", "R")].

(** ** The scenarios of the specification *)

Definition nA : Node.t := Node.mk "A" "a".
Definition nB : Node.t := Node.mk "B" "b".
Definition nC : Node.t := Node.mk "C" "c".

(** The request of the scenario: [(a,b,R)] mandatory, [(b,c,S)]
    optional. *)
Definition attachment_rels : list Relationship.t :=
  [Relationship.mk "a" "b" "R" (Some false);
   Relationship.mk "b" "c" "S" (Some true)].

(** The filter of the anchor scenario: [a.name = 'X']. *)
Definition anchor_filter : WhereClause.t :=
  WhereClause.mk "AND" [Condition.mk "a.name" "=" (VStr "X")].

Definition anchor_request : CypherQuery.t :=
  {| CypherQuery.nodes := [Node.mk "Label" "a"];
     CypherQuery.relationships := [];
     CypherQuery.whereClause := Some anchor_filter;
     CypherQuery.with_ := None;
     CypherQuery.withClause := None;
     CypherQuery.returnClause := ReturnClause.mk ["a"] false;
     CypherQuery.orderBy := None;
     CypherQuery.limit := None |}.

(** Both endpoints of [rel] are aliases of [nodes]. *)
Definition endpoints_declared (nodes : list Node.t) (rel : Relationship.t)
  : bool :=
  mem_str (Relationship.node1 rel) (node_aliases nodes)
  && mem_str (Relationship.node2 rel) (node_aliases nodes).

(** The exception [validate_aliases] raises for [rel]: the one for
    [node1] when that alias is missing, the one for [node2] otherwise. *)
Definition endpoint_error (nodes : list Node.t) (rel : Relationship.t) : exn :=
  if mem_str (Relationship.node1 rel) (node_aliases nodes)
  then node2_error rel else node1_error rel.

(** [validate_field_syntax] lets [field] through. *)
Definition field_ok (field : string) : bool :=
  negb (PyStr.contains_char PyStr.space field)
  || Re.match_to_end Re.backticked field.

(** The last element of [l] that satisfies [p]. *)
Definition find_last {A : Type} (p : A -> bool) (l : list A) : option A :=
  find p (rev l).

(** Every relationship of [comp] is linked to one of them. *)
Definition rooted (rels : list rel_pair) (comp : list nat) : Prop :=
  exists i, forall v, In v comp -> connected rels i v.

(** [comp] starts with its smallest index. *)
Definition head_is_least (comp : list nat) : Prop :=
  match comp with
  | [] => False
  | i :: rest => Forall (fun v => i < v) rest
  end.

(** The chain builder finds an alias to start from: the preferred start
    is an endpoint of the component, or some alias is an endpoint of
    exactly one relationship. *)
Definition has_start (comp_edges : list rel_pair)
  (preferred_start : option string) : Prop :=
  (exists p, preferred_start = Some p /\ endpoint p comp_edges)
  \/ exists x, occ x comp_edges = 1.

(** [chain lookup es cur toks z]: the pieces [toks] continue a pattern
    that stands at the alias [cur] and lead it to the alias [z]; every
    arrow is followed by the node at the other end of its relationship,
    and points from [node1] to [node2]. *)
Inductive chain (node_lookup : Dict.t Node.t) (comp_edges : list rel_pair)
  : string -> list token -> string -> Prop :=
| chain_here : forall cur, chain node_lookup comp_edges cur [] cur
| chain_fwd : forall cur ei b rt rest z,
    nth_error comp_edges ei = Some (cur, b, rt) ->
    chain node_lookup comp_edges b rest z ->
    chain node_lookup comp_edges cur
          (TFwd ei rt :: TNode (_fmt_node b node_lookup) :: rest) z
| chain_rev : forall cur ei a rt rest z,
    nth_error comp_edges ei = Some (a, cur, rt) ->
    chain node_lookup comp_edges a rest z ->
    chain node_lookup comp_edges cur
          (TRev ei rt :: TNode (_fmt_node a node_lookup) :: rest) z.

(** The match line that lists the nodes and no relationship. *)
Definition nodes_only (nodes : list Node.t) : string :=
  match nodes with
  | [] => ""
  | _ :: _ => "MATCH " ++ PyStr.join ", " (map node_pattern nodes)
  end.

(** A request with two nodes and one mandatory relationship. *)
Definition plain_request : CypherQuery.t :=
  {| CypherQuery.nodes := [Node.mk "A" "a"; Node.mk "B" "b"];
     CypherQuery.relationships := [Relationship.mk "a" "b" "R" None];
     CypherQuery.whereClause := None;
     CypherQuery.with_ := None;
     CypherQuery.withClause := None;
     CypherQuery.returnClause := ReturnClause.mk ["a"; "b"] false;
     CypherQuery.orderBy := None;
     CypherQuery.limit := None |}.

(** What the loop of [_extract_anchor_from_where] keeps true of
    [props_by_alias], after the conditions [conds]: every key is a
    declared alias, no property dictionary is empty, and every value in
    one is the value of an equality condition. *)
Definition anchor_inv (node_lookup : Dict.t Node.t) (conds : list Condition.t)
  (d : Dict.t (Dict.t value)) : Prop :=
  forall a props,
    In (a, props) d ->
    Dict.mem a node_lookup = true
    /\ props <> []
    /\ forall k v, In (k, v) props ->
                   exists cond, In cond conds
                                /\ Condition.operator cond = "="
                                /\ Condition.value cond = v.

(** A required match line. *)
Definition match_line (p : string) : Prop := exists r, p = "MATCH " ++ r.

(** An optional match line. *)
Definition optional_line (p : string) : Prop :=
  exists r, p = "OPTIONAL MATCH " ++ r.

(** The exception of the chain builder for a component without a start. *)
Definition no_start_error : exn := TypeError "unhashable type: 'list'".



(** ** Forward paths *)

(** The relationships of the path that leaves the alias [v] and goes on
    through [steps], each step a relationship type and the alias it
    leads to; every relationship points along the path and they are
    listed in the order of the path. *)
Fixpoint forward_rels (v : string) (steps : list (string * string))
  : list rel_pair :=
  match steps with
  | [] => []
  | (rt, w) :: r => (v, w, rt) :: forward_rels w r
  end.

(** The aliases of the path. *)
Definition forward_aliases (v : string) (steps : list (string * string))
  : list string :=
  v :: map snd steps.

(** The pieces that render [steps] from the relationship at position
    [idx] on. *)
Fixpoint forward_tokens (node_lookup : Dict.t Node.t) (idx : nat)
  (steps : list (string * string)) : list token :=
  match steps with
  | [] => []
  | (rt, w) :: r =>
      TFwd idx rt :: TNode (_fmt_node w node_lookup)
      :: forward_tokens node_lookup (S idx) r
  end.

(** The text of a path read from left to right. *)
Fixpoint forward_text (node_lookup : Dict.t Node.t)
  (steps : list (string * string)) : string :=
  match steps with
  | [] => ""
  | (rt, w) :: r =>
      "-[:" ++ rt ++ "]->" ++ _fmt_node w node_lookup
      ++ forward_text node_lookup r
  end.

(** The nodes that are not on the path. *)
Definition off_path (v : string) (steps : list (string * string))
  (nodes : list Node.t) : list Node.t :=
  filter (fun n => negb (mem_str (Node.alias n) (forward_aliases v steps)))
         nodes.

(* ================================================================= *)
(** * Properties *)

(** ** A set order: the order of insertion *)

Section Dedup.
Variable A : Type.
Variable eqb : A -> A -> bool.
Hypothesis eqb_spec : forall x y, reflect (x = y) (eqb x y).

Lemma dedup_In : forall l x, In x (dedup eqb l) <-> In x l.
Proof.
  induction l as [|a l IH]; intro x; simpl; [tauto|].
  rewrite filter_In, IH. split.
  - intros [H|[H _]]; auto.
  - intros [H|H]; auto.
    destruct (eqb_spec a x) as [E|E]; auto.
Qed.

Lemma dedup_NoDup : forall l, NoDup (dedup eqb l).
Proof.
  induction l as [|a l IH]; simpl; constructor.
  - rewrite filter_In. intros [_ H].
    destruct (eqb_spec a a); [discriminate|congruence].
  - now apply NoDup_filter.
Qed.

End Dedup.

(** Sets that iterate in the order their elements were added. *)
#[local] Instance insertion_order : SetOrder := {|
  iter_nat := dedup Nat.eqb;
  iter_nat_NoDup := dedup_NoDup nat Nat.eqb Nat.eqb_spec;
  iter_nat_In := dedup_In nat Nat.eqb Nat.eqb_spec;
  iter_str := dedup String.eqb;
  iter_str_NoDup := dedup_NoDup string String.eqb String.eqb_spec;
  iter_str_In := dedup_In string String.eqb String.eqb_spec
|}.

#[local] Arguments Ascii.eqb : simpl never.
#[local] Arguments String.eqb : simpl never.

(** ** Strings *)

Lemma str_append_nil_r : forall s : string, s ++ "" = s.
Proof. induction s; simpl; congruence. Qed.

Lemma str_append_assoc : forall s1 s2 s3 : string,
  (s1 ++ s2) ++ s3 = s1 ++ (s2 ++ s3).
Proof. induction s1; intros; simpl; congruence. Qed.

Lemma append_eq_empty : forall s1 s2 : string,
  s1 ++ s2 = "" -> s1 = "" /\ s2 = "".
Proof. destruct s1; simpl; intros; [auto|discriminate]. Qed.

Lemma append_eq_cons : forall (s1 s2 : string) c s,
  s1 ++ s2 = String c s ->
  (s1 = "" /\ s2 = String c s) \/ (exists t, s1 = String c t /\ s = t ++ s2).
Proof.
  destruct s1 as [|d t]; simpl; intros s2 c s H; [left; auto|].
  injection H as -> <-. right. eauto.
Qed.

Lemma contains_char_app : forall c s1 s2,
  PyStr.contains_char c (s1 ++ s2)
  = PyStr.contains_char c s1 || PyStr.contains_char c s2.
Proof.
  induction s1; intros; simpl; [reflexivity|].
  rewrite IHs1, orb_assoc. reflexivity.
Qed.

Lemma count_char_app : forall c s1 s2,
  PyStr.count_char c (s1 ++ s2)
  = PyStr.count_char c s1 + PyStr.count_char c s2.
Proof. induction s1; intros; simpl; [reflexivity|]. rewrite IHs1. lia. Qed.

Lemma str_rev_app : forall s1 s2, PyStr.rev (s1 ++ s2) = PyStr.rev s2 ++ PyStr.rev s1.
Proof.
  induction s1; intros; simpl.
  - now rewrite str_append_nil_r.
  - now rewrite IHs1, str_append_assoc.
Qed.

Lemma str_rev_involutive : forall s, PyStr.rev (PyStr.rev s) = s.
Proof. induction s; simpl; [reflexivity|]. now rewrite str_rev_app, IHs. Qed.

(** ** The regular-expression matcher *)

Lemma nullable_spec : forall r, Re.nullable r = true <-> Re.Matches r "".
Proof.
  induction r; simpl; split; intro H;
    try discriminate; try (now constructor); try (now inversion H).
  - apply orb_true_iff in H as [H|H];
      [apply Re.MAltL; now apply IHr1 | apply Re.MAltR; now apply IHr2].
  - apply orb_true_iff. inversion H; subst; [left; now apply IHr1 | right; now apply IHr2].
  - apply andb_true_iff in H as [H1 H2].
    change "" with ("" ++ ""). constructor; [now apply IHr1 | now apply IHr2].
  - inversion H as [| | | | |r1' r2' s1 s2 M1 M2 E1 E2| |]. subst.
    apply append_eq_empty in E2 as [-> ->].
    apply andb_true_iff. split; [now apply IHr1 | now apply IHr2].
Qed.

Lemma deriv_sound : forall r c s,
  Re.Matches (Re.deriv c r) s -> Re.Matches r (String c s).
Proof.
  induction r; intros c s H; simpl in H.
  - inversion H.
  - inversion H.
  - destruct (Ascii.eqb_spec c a); inversion H; subst. constructor.
  - destruct (Ascii.eqb_spec c PyStr.newline); inversion H; subst. now constructor.
  - inversion H; subst; [apply Re.MAltL | apply Re.MAltR]; auto.
  - destruct (Re.nullable r1) eqn:N.
    + inversion H as [| | |ra rb s' M|ra rb s' M| | |]; subst.
      * inversion M as [| | | | |ra rb s1 s2 M1 M2| |]; subst.
        change (String c (s1 ++ s2)) with (String c s1 ++ s2).
        constructor; auto.
      * change (String c s) with ("" ++ String c s).
        constructor; [now apply nullable_spec | auto].
    + inversion H as [| | | | |ra rb s1 s2 M1 M2| |]; subst.
      change (String c (s1 ++ s2)) with (String c s1 ++ s2).
      constructor; auto.
  - inversion H as [| | | | |ra rb s1 s2 M1 M2| |]; subst.
    change (String c (s1 ++ s2)) with (String c s1 ++ s2).
    apply Re.MStarS; auto.
Qed.

Lemma deriv_complete : forall r s', Re.Matches r s' ->
  forall c s, s' = String c s -> Re.Matches (Re.deriv c r) s.
Proof.
  induction 1; intros c0 s0 E; simpl.
  - discriminate.
  - injection E as -> <-. rewrite Ascii.eqb_refl. constructor.
  - injection E as -> <-.
    destruct (Ascii.eqb_spec c0 PyStr.newline); [contradiction|constructor].
  - apply Re.MAltL; auto.
  - apply Re.MAltR; auto.
  - apply append_eq_cons in E as [[-> ->]|[t [-> ->]]].
    + assert (N : Re.nullable r1 = true) by now apply nullable_spec.
      rewrite N. apply Re.MAltR. auto.
    + destruct (Re.nullable r1).
      * apply Re.MAltL. constructor; auto.
      * constructor; auto.
  - discriminate.
  - apply append_eq_cons in E as [[-> ->]|[t [-> ->]]].
    + apply (IHMatches2 c0 s0 eq_refl).
    + constructor; auto.
Qed.

Lemma fullmatch_spec : forall s r, Re.fullmatch r s = true <-> Re.Matches r s.
Proof.
  induction s as [|c s IH]; intro r; simpl.
  - apply nullable_spec.
  - rewrite IH. split; [apply deriv_sound | intro H; now apply deriv_complete with (String c s)].
Qed.

(** ** The words of [^.*`.*`.*$] *)

Lemma star_dot_spec : forall s,
  Re.Matches (Re.Star Re.Dot) s <-> no_newline s.
Proof.
  unfold no_newline. split.
  - intro H. remember (Re.Star Re.Dot) as r eqn:Er.
    induction H; try discriminate; [reflexivity|].
    injection Er as ->. inversion H as [| |c Hc| | | | |]; subst. simpl.
    rewrite IHMatches2 by reflexivity.
    destruct (Ascii.eqb_spec PyStr.newline c); [congruence|reflexivity].
  - induction s as [|c s IH]; simpl; intro H; [constructor|].
    apply orb_false_iff in H as [H1 H2].
    change (String c s) with (String c "" ++ s).
    apply Re.MStarS; [|auto]. constructor.
    intros ->. rewrite Ascii.eqb_refl in H1. discriminate.
Qed.

Lemma backticked_spec : forall s,
  Re.Matches Re.backticked s <->
  exists s1 s2 s3,
    s = s1 ++ String PyStr.backtick (s2 ++ String PyStr.backtick s3)
    /\ no_newline s1 /\ no_newline s2 /\ no_newline s3.
Proof.
  intro s. unfold Re.backticked. split.
  - intro H.
    inversion H as [| | | | |? ? s1 t1 M1 N1| |]; subst.
    inversion N1 as [| | | | |? ? b1 t2 B1 N2| |]; subst.
    inversion N2 as [| | | | |? ? s2 t3 M2 N3| |]; subst.
    inversion N3 as [| | | | |? ? b2 s3 B2 M3| |]; subst.
    inversion B1; subst. inversion B2; subst.
    exists s1, s2, s3. simpl. repeat split; now apply star_dot_spec.
  - intros (s1 & s2 & s3 & -> & H1 & H2 & H3).
    constructor; [now apply star_dot_spec|].
    change (String PyStr.backtick (s2 ++ String PyStr.backtick s3))
      with (String PyStr.backtick "" ++ (s2 ++ (String PyStr.backtick "" ++ s3))).
    repeat constructor; now apply star_dot_spec.
Qed.

Lemma count_char_split : forall c s,
  1 <= PyStr.count_char c s ->
  exists s1 s2, s = s1 ++ String c s2
                /\ PyStr.count_char c s = S (PyStr.count_char c s2).
Proof.
  induction s as [|d s IH]; simpl; intro H; [lia|].
  destruct (Ascii.eqb_spec c d) as [<-|N].
  - exists "", s. auto.
  - destruct (IH H) as (s1 & s2 & -> & E).
    exists (String d s1), s2. auto.
Qed.

Lemma backticked_count : forall s,
  Re.Matches Re.backticked s <->
  no_newline s /\ 2 <= PyStr.count_char PyStr.backtick s.
Proof.
  intro s. rewrite backticked_spec. unfold no_newline. split.
  - intros (s1 & s2 & s3 & -> & H1 & H2 & H3).
    rewrite contains_char_app, count_char_app. simpl.
    rewrite contains_char_app, count_char_app. simpl.
    rewrite H1, H2, H3. split; [reflexivity|lia].
  - intros [N C].
    destruct (count_char_split PyStr.backtick s) as (s1 & t & -> & E1); [lia|].
    destruct (count_char_split PyStr.backtick t) as (s2 & s3 & -> & E2); [lia|].
    exists s1, s2, s3. split; [reflexivity|].
    rewrite contains_char_app in N. simpl in N.
    rewrite contains_char_app in N. simpl in N.
    apply orb_false_iff in N as [N1 N].
    apply orb_false_iff in N as [N2 N3]. auto.
Qed.

Lemma chop_newline_spec : forall s t,
  Re.chop_newline s = Some t <-> s = t ++ PyStr.nl.
Proof.
  intros s t. unfold Re.chop_newline. split.
  - destruct (PyStr.rev s) as [|c u] eqn:E; [discriminate|].
    destruct (Ascii.eqb_spec c PyStr.newline) as [->|]; [|discriminate].
    intro H. injection H as <-.
    rewrite <- (str_rev_involutive s), E. reflexivity.
  - intros ->. rewrite str_rev_app. simpl.
    now rewrite str_rev_involutive.
Qed.

(** [re.match] finds [^.*`.*`.*$] in [s] exactly when [s] is one line
    with two backticks, a line break at its very end apart. *)
Lemma match_to_end_backticked : forall s,
  Re.match_to_end Re.backticked s = true <->
  exists l, (s = l \/ s = l ++ PyStr.nl)
            /\ no_newline l /\ 2 <= PyStr.count_char PyStr.backtick l.
Proof.
  intro s. unfold Re.match_to_end. rewrite orb_true_iff, fullmatch_spec.
  rewrite backticked_count. split.
  - intros [H|H]; [exists s; tauto|].
    destruct (Re.chop_newline s) as [t|] eqn:E; [|discriminate].
    apply chop_newline_spec in E.
    apply fullmatch_spec, backticked_count in H. exists t. tauto.
  - intros (l & [->| ->] & H); [left; exact H|right].
    assert (E : Re.chop_newline (l ++ PyStr.nl) = Some l)
      by now apply chop_newline_spec.
    rewrite E. now apply fullmatch_spec, backticked_count.
Qed.

Lemma match_to_end_one_line : forall s,
  no_newline s ->
  Re.match_to_end Re.backticked s = (2 <=? PyStr.count_char PyStr.backtick s)%nat.
Proof.
  intros s N. apply eq_true_iff_eq.
  rewrite match_to_end_backticked, Nat.leb_le. split.
  - intros (l & [->| ->] & _ & C); [exact C|].
    unfold no_newline, PyStr.nl in N. rewrite contains_char_app in N.
    simpl in N. rewrite orb_true_r in N. discriminate.
  - intro C. exists s. auto.
Qed.

(** ** Field syntax *)

Lemma validate_field_syntax_one : forall field,
  validate_field_syntax [field]
  = if PyStr.contains_char PyStr.space field
       && negb (Re.match_to_end Re.backticked field)
    then Raise (field_error field) else Ok tt.
Proof.
  intro field. unfold validate_field_syntax. simpl.
  destruct (_ && _); reflexivity.
Qed.

(** C8, as stated, fails: the field [a<TAB>b] contains whitespace and no
    backtick at all, and [validate_field_syntax] accepts it, because the
    code looks for the space character only. *)
Lemma validate_field_syntax_accepts_tab :
  ~ ((exists e, validate_field_syntax [tab_field] = Raise e)
     <-> (has_whitespace tab_field = true
          /\ PyStr.count_char PyStr.backtick tab_field < 2)).
Proof.
  intros [_ H].
  destruct H as [e H]; [split; [reflexivity | cbv; lia]|].
  vm_compute in H. discriminate.
Qed.

(** C8 (amended): every field without a space character is accepted;
    every field with a space character and fewer than two backticks is
    rejected, line breaks or not; in general a field is rejected if and
    only if it contains a space character and is not a single line
    (possibly ended by one line break) with at least two backticks, so
    that a field without line breaks is rejected if and only if it
    contains a space character and fewer than two backticks; and a
    rejection is the [ValueError] that names the field. *)
Theorem validate_field_syntax_space_backticks : forall field,
  (PyStr.contains_char PyStr.space field = false ->
   validate_field_syntax [field] = Ok tt)
  /\ (PyStr.contains_char PyStr.space field = true ->
      PyStr.count_char PyStr.backtick field < 2 ->
      validate_field_syntax [field] = Raise (field_error field))
  /\ (validate_field_syntax [field] = Raise (field_error field)
      <-> PyStr.contains_char PyStr.space field = true
          /\ ~ one_line_backticked field)
  /\ (no_newline field ->
      (validate_field_syntax [field] = Raise (field_error field)
       <-> PyStr.contains_char PyStr.space field = true
           /\ PyStr.count_char PyStr.backtick field < 2))
  /\ (validate_field_syntax [field] = Ok tt
      \/ validate_field_syntax [field] = Raise (field_error field)).
Proof.
  intro field. rewrite validate_field_syntax_one.
  split; [|split; [|split; [|split]]].
  - intros ->. reflexivity.
  - intros -> C.
    destruct (Re.match_to_end Re.backticked field) eqn:M; [|reflexivity].
    apply match_to_end_backticked in M as (l & [->| ->] & _ & B); [lia|].
    unfold PyStr.nl in C. rewrite count_char_app in C. simpl in C. lia.
  - unfold one_line_backticked. rewrite <- match_to_end_backticked.
    destruct (PyStr.contains_char PyStr.space field);
      [|split; [discriminate | now intros [? _]]].
    destruct (Re.match_to_end Re.backticked field); simpl; split.
    + discriminate.
    + intros [_ N]. now destruct N.
    + intros _. split; [reflexivity|discriminate].
    + reflexivity.
  - intro N. rewrite (match_to_end_one_line _ N).
    destruct (PyStr.contains_char PyStr.space field);
      [|split; [discriminate | now intros [? _]]].
    destruct (Nat.leb_spec 2 (PyStr.count_char PyStr.backtick field));
      simpl; split; try discriminate; auto.
    intros [_ C]. lia.
  - destruct (_ && _); auto.
Qed.

Lemma validate_field_syntax_space_backticks_witness :
  validate_field_syntax ["a b"] = Raise (field_error "a b")
  /\ validate_field_syntax ["a b" ++ PyStr.nl ++ "c"]
     = Raise (field_error ("a b" ++ PyStr.nl ++ "c"))
  /\ validate_field_syntax ["a`b c`"] <> Raise (field_error "a`b c`").
Proof.
  split; [|split].
  - apply (proj1 (proj2 (validate_field_syntax_space_backticks "a b")));
      [reflexivity | vm_compute; lia].
  - apply (proj1 (proj2 (validate_field_syntax_space_backticks
                           ("a b" ++ PyStr.nl ++ "c"))));
      [reflexivity | vm_compute; lia].
  - intro H.
    destruct (validate_field_syntax_space_backticks "a`b c`")
      as (_ & _ & _ & I & _).
    apply (proj1 (I eq_refl)) in H.
    destruct H as [_ H]. vm_compute in H. lia.
Defined.

(** ** The result monad *)

Lemma bind_Ok : forall (A B : Type) (r : result A) (k : A -> result B) b,
  bind r k = Ok b -> exists a, r = Ok a /\ k a = Ok b.
Proof. intros A B [a|e] k b H; simpl in H; [eauto|discriminate]. Qed.

Lemma bind_Raise : forall (A B : Type) (r : result A) (k : A -> result B) e,
  bind r k = Raise e ->
  r = Raise e \/ exists a, r = Ok a /\ k a = Raise e.
Proof. intros A B [a|e'] k e H; simpl in H; [eauto|left; congruence]. Qed.

Lemma map_result_Forall : forall (A B : Type) (f : A -> result B)
    (P : B -> Prop) l ys,
  (forall x y, In x l -> f x = Ok y -> P y) ->
  map_result f l = Ok ys -> Forall P ys.
Proof.
  induction l as [|x l IH]; simpl; intros ys HP H.
  - injection H as <-. constructor.
  - apply bind_Ok in H as (y & Hy & H).
    apply bind_Ok in H as (ys' & Hys & H). injection H as <-.
    constructor; eauto.
Qed.

Lemma map_result_length : forall (A B : Type) (f : A -> result B) l ys,
  map_result f l = Ok ys -> List.length ys = List.length l.
Proof.
  induction l as [|x l IH]; simpl; intros ys H.
  - injection H as <-. reflexivity.
  - apply bind_Ok in H as (y & Hy & H).
    apply bind_Ok in H as (ys' & Hys & H). injection H as <-.
    simpl. f_equal. auto.
Qed.

(** ** Referential integrity *)

Lemma validate_aliases_dangling : forall nodes rels rel,
  In rel rels ->
  mem_str (Relationship.node1 rel) (node_aliases nodes) = false ->
  exists r e, In r rels /\ dangling nodes r e
              /\ validate_aliases nodes rels = Raise e.
Proof.
  intros nodes rels rel. unfold validate_aliases.
  induction rels as [|r rels IH]; simpl; intros HIn Hmem; [contradiction|].
  destruct (mem_str (Relationship.node1 r) (node_aliases nodes)) eqn:E1; simpl.
  - destruct (mem_str (Relationship.node2 r) (node_aliases nodes)) eqn:E2; simpl.
    + destruct HIn as [->|HIn]; [congruence|].
      destruct (IH HIn Hmem) as (r' & e & Hr & Hd & Hv).
      exists r', e. auto.
    + exists r, (node2_error r). unfold dangling. auto.
  - exists r, (node1_error r). unfold dangling. auto.
Qed.

Lemma compile_validate_Raise : forall (O : SetOrder) q optimize e,
  validate q = Raise e -> compile q optimize = Raise e.
Proof. intros O q optimize e H. unfold compile. now rewrite H. Qed.

Lemma validate_aliases_Raise : forall q e,
  validate_aliases (CypherQuery.nodes q) (CypherQuery.relationships q) = Raise e ->
  validate q = Raise e.
Proof. intros q e H. unfold validate. now rewrite H. Qed.

(** C7: when some relationship of a bound request names a [node1] that no
    node declares, validation raises the referential-integrity
    [ValueError] for a dangling endpoint (the [node1] or [node2] of the
    first relationship that has one), so [compile] raises it without
    building any clause, and the entry point returns the failure marker
    followed by that message and nothing else. *)
Theorem missing_node1_is_rejected :
  forall (O : SetOrder) (json_data : Type)
         (model_validate : json_data -> result CypherQuery.t)
         (doc : json_data) (q : CypherQuery.t) (optimize : bool)
         (rel : Relationship.t),
    model_validate doc = Ok q ->
    In rel (CypherQuery.relationships q) ->
    mem_str (Relationship.node1 rel) (node_aliases (CypherQuery.nodes q))
      = false ->
    exists r e,
      In r (CypherQuery.relationships q)
      /\ dangling (CypherQuery.nodes q) r e
      /\ validate q = Raise e
      /\ compile q optimize = Raise e
      /\ convert_json_to_cypher model_validate doc optimize
         = failure_marker ++ exn_str e.
Proof.
  intros O json_data model_validate doc q optimize rel Hdoc HIn Hmem.
  destruct (validate_aliases_dangling _ _ _ HIn Hmem) as (r & e & Hr & Hd & Hv).
  apply validate_aliases_Raise in Hv.
  pose proof (compile_validate_Raise O q optimize e Hv) as Hc.
  exists r, e. split; [exact Hr|]. split; [exact Hd|].
  split; [exact Hv|]. split; [exact Hc|].
  unfold convert_json_to_cypher. rewrite Hdoc. simpl. now rewrite Hc.
Qed.

(** ** The order of the clauses *)

Lemma query_parts_in_order : forall q match_clause,
  query_parts q match_clause = clauses_in_order q match_clause.
Proof.
  intros q m. unfold query_parts, clauses_in_order, match_part, opt_part.
  destruct (nonempty m), (CypherQuery.whereClause q), (CypherQuery.with_ q),
    (CypherQuery.withClause q), (CypherQuery.orderBy q), (CypherQuery.limit q);
    reflexivity.
Qed.

Lemma compile_Ok : forall (O : SetOrder) q optimize text,
  compile q optimize = Ok text ->
  validate q = Ok tt
  /\ exists match_clause,
       match_section q optimize = Ok match_clause
       /\ text = PyStr.join PyStr.nl (clauses_in_order q match_clause).
Proof.
  intros O q optimize text H. unfold compile in H.
  apply bind_Ok in H as ([] & Hv & H).
  apply bind_Ok in H as (m & Hm & H). injection H as <-.
  rewrite query_parts_in_order. eauto.
Qed.

Lemma compile_of_parts : forall (O : SetOrder) q optimize match_clause,
  validate q = Ok tt ->
  match_section q optimize = Ok match_clause ->
  compile q optimize
  = Ok (PyStr.join PyStr.nl (clauses_in_order q match_clause)).
Proof.
  intros O q optimize m Hv Hm. unfold compile. rewrite Hv, Hm. simpl.
  now rewrite query_parts_in_order.
Qed.

(** Each clause opens with its keyword. *)
Lemma clause_keywords :
  (forall w, exists r, build_where_clause w = "WHERE " ++ r)
  /\ (forall w, exists r, build_with_clause w = "WITH " ++ r)
  /\ (forall c, exists r, build_return_clause c = "RETURN " ++ r)
  /\ (forall o, exists r, build_orderby_clause o = "ORDER BY " ++ r)
  /\ (forall n, exists r, build_limit_clause n = "LIMIT " ++ r).
Proof.
  repeat split; intro x.
  - unfold build_where_clause. eauto.
  - unfold build_with_clause. eauto.
  - unfold build_return_clause. destruct (ReturnClause.distinct x); simpl; eauto.
  - unfold build_orderby_clause. eauto.
  - unfold build_limit_clause. eauto.
Qed.

(** C9: for a request that compiles, the returned text is the
    newline-join of: the match section (when it is not empty), the WHERE
    clause of the filter if present, the WITH clause if present, the
    legacy filter as a WHERE clause if present, the RETURN clause, the
    ORDER BY clause if present, the LIMIT clause if present. *)
Theorem clauses_follow_the_fixed_order :
  forall (O : SetOrder) (json_data : Type)
         (model_validate : json_data -> result CypherQuery.t)
         (doc : json_data) (q : CypherQuery.t) (optimize : bool)
         (text : string),
    model_validate doc = Ok q ->
    compile q optimize = Ok text ->
    exists match_clause,
      match_section q optimize = Ok match_clause
      /\ convert_json_to_cypher model_validate doc optimize
         = PyStr.join PyStr.nl
             (match_part match_clause
              ++ opt_part build_where_clause (CypherQuery.whereClause q)
              ++ opt_part build_with_clause (CypherQuery.with_ q)
              ++ opt_part build_where_clause (CypherQuery.withClause q)
              ++ [build_return_clause (CypherQuery.returnClause q)]
              ++ opt_part build_orderby_clause (CypherQuery.orderBy q)
              ++ opt_part build_limit_clause (CypherQuery.limit q))%list.
Proof.
  intros O json_data model_validate doc q optimize text Hdoc Hc.
  destruct (compile_Ok O q optimize text Hc) as (_ & m & Hm & ->).
  exists m. split; [exact Hm|].
  unfold convert_json_to_cypher. rewrite Hdoc. simpl. now rewrite Hc.
Qed.

(** ** What the legacy filter and the WITH clause go through *)

Lemma build_where_clause_text : forall w,
  build_where_clause w
  = "WHERE " ++ PyStr.join (" " ++ WhereClause.type w ++ " ")
                           (map condition_text (WhereClause.conditions w)).
Proof. reflexivity. Qed.

Lemma build_with_clause_text : forall w,
  build_with_clause w
  = "WITH " ++ PyStr.join ", "
                 (WithClause.fields w
                  ++ match WithClause.aggregations w with
                     | Some aggs => map aggregation_text aggs
                     | None => []
                     end)%list.
Proof. reflexivity. Qed.

(** C10: validation looks at the relationships, the fields of the
    primary filter and the fields of the RETURN clause only: whatever
    WITH clause and legacy filter replace those of a request that
    compiles, validation gives the same verdict, the request still
    compiles, and both are rendered as they stand, fields verbatim. *)
Theorem with_and_legacy_filter_fields_are_not_validated :
  forall (O : SetOrder) (q : CypherQuery.t) (optimize : bool) (text : string)
         (w : option WithClause.t) (l : option WhereClause.t),
    compile q optimize = Ok text ->
    validate (with_clauses q w l) = validate q
    /\ (exists match_clause,
          match_section q optimize = Ok match_clause
          /\ compile (with_clauses q w l) optimize
             = Ok (PyStr.join PyStr.nl
                     (match_part match_clause
                      ++ opt_part build_where_clause (CypherQuery.whereClause q)
                      ++ opt_part build_with_clause w
                      ++ opt_part build_where_clause l
                      ++ [build_return_clause (CypherQuery.returnClause q)]
                      ++ opt_part build_orderby_clause (CypherQuery.orderBy q)
                      ++ opt_part build_limit_clause (CypherQuery.limit q))%list))
    /\ (forall wc,
          build_with_clause wc
          = "WITH " ++ PyStr.join ", "
                         (WithClause.fields wc
                          ++ match WithClause.aggregations wc with
                             | Some aggs => map aggregation_text aggs
                             | None => []
                             end)%list)
    /\ (forall lc,
          build_where_clause lc
          = "WHERE " ++ PyStr.join (" " ++ WhereClause.type lc ++ " ")
                          (map condition_text (WhereClause.conditions lc))).
Proof.
  intros O q optimize text w l Hc.
  destruct (compile_Ok O q optimize text Hc) as (Hv & m & Hm & _).
  split; [reflexivity|].
  split; [|split; [exact build_with_clause_text|exact build_where_clause_text]].
  exists m. split; [exact Hm|].
  apply (compile_of_parts O (with_clauses q w l) optimize m); assumption.
Qed.

Lemma with_and_legacy_filter_fields_are_not_validated_witness :
  compile (O := insertion_order)
          (with_clauses spaced_request (Some spaced_with) (Some spaced_filter))
          true
  = Ok (PyStr.join PyStr.nl
          ["MATCH (a:Label)"; "WITH my field"; "WHERE other field = 1";
           "RETURN a"]).
Proof.
  destruct (with_and_legacy_filter_fields_are_not_validated
              insertion_order spaced_request true
              (PyStr.join PyStr.nl ["MATCH (a:Label)"; "RETURN a"])
              (Some spaced_with) (Some spaced_filter) eq_refl)
    as (_ & (m & Hm & Hc) & _).
  vm_compute in Hm. injection Hm as <-. exact Hc.
Defined.

(** ** Success and failure cannot be confused *)

Lemma pattern_line_keyword : forall p, pattern_line p -> opens_with_keyword p.
Proof. intros p [r [->| ->]]; simpl; unfold opens_with_keyword; eauto 7. Qed.

Lemma join_opens_with : forall sep c r l,
  exists r', PyStr.join sep (String c r :: l) = String c r'.
Proof. intros sep c r [|y l]; simpl; eauto. Qed.

Lemma single_match_line : forall (O : SetOrder) nodes rels m,
  _build_single_match_clause nodes rels = Ok m ->
  m = "" \/ pattern_line m.
Proof.
  intros O nodes rels m. unfold _build_single_match_clause, pattern_line.
  destruct (filter is_regular rels).
  - destruct nodes; intro H; injection H as <-; [now left|].
    right. eexists. left. reflexivity.
  - intro H. apply bind_Ok in H as (ps & _ & H). injection H as <-.
    right. eexists. left. reflexivity.
Qed.

Lemma Forall_pattern_line_filter : forall ps,
  Forall pattern_line ps -> Forall pattern_line (filter nonempty ps).
Proof.
  intros ps H. apply Forall_forall. intros x Hx.
  apply filter_In in Hx as [Hx _]. revert x Hx. now apply Forall_forall.
Qed.

Lemma optional_lines : forall (O : SetOrder) nodes rels bound ls,
  _build_optional_match_components nodes rels bound = Ok ls ->
  Forall pattern_line ls.
Proof.
  intros O nodes rels bound ls. unfold _build_optional_match_components.
  apply map_result_Forall. intros comp y _ H.
  apply bind_Ok in H as (es & _ & H).
  apply bind_Ok in H as (p & _ & H). injection H as <-.
  unfold pattern_line. eexists. right. reflexivity.
Qed.

Lemma required_part_lines : forall (O : SetOrder) self ps bound,
  required_part self = Ok (ps, bound) -> Forall pattern_line ps.
Proof.
  intros O self ps bound H. unfold required_part in H.
  apply bind_Ok in H as (m & Hm & H). injection H as <- _.
  apply single_match_line in Hm as [->|Hm]; simpl; [constructor|].
  destruct (nonempty m); repeat constructor. exact Hm.
Qed.

Lemma anchor_part_lines : forall (O : SetOrder) self b ps bound,
  anchor_part self = Ok (b, ps, bound) -> Forall pattern_line ps.
Proof.
  intros O self b ps bound H. unfold anchor_part in H.
  apply bind_Ok in H as (info & _ & H).
  destruct info as [[[a lbl] props]|].
  - injection H as _ <- _. repeat constructor. unfold pattern_line.
    eexists. left. reflexivity.
  - match type of H with
    | match ?c with _ => _ end = _ => destruct c as [a|]
    end; [|injection H as _ <- _; constructor].
    destruct (nonempty a); [|injection H as _ <- _; constructor].
    apply bind_Ok in H as (lbl & _ & H). injection H as _ <- _.
    repeat constructor. unfold pattern_line.
    exists (("(" ++ a ++ ":" ++ lbl ++ ")")). left. reflexivity.
Qed.

Lemma build_optimal_patterns_lines : forall (O : SetOrder) self ps,
  build_optimal_patterns self = Ok ps -> Forall pattern_line ps.
Proof.
  intros O self ps H. unfold build_optimal_patterns in H.
  apply bind_Ok in H as ([[info ps0] bound] & Hst & H).
  assert (H0 : Forall pattern_line ps0).
  { destruct (AdvancedPatternBuilder.regular_rels self).
    - eapply anchor_part_lines; eauto.
    - apply bind_Ok in Hst as ([ps1 b1] & Hr & Hst).
      injection Hst as _ <- _. eapply required_part_lines; eauto. }
  apply bind_Ok in H as (ps1 & Hopt & H).
  assert (H1 : Forall pattern_line ps1).
  { destruct (AdvancedPatternBuilder.optional_rels self).
    - injection Hopt as <-. exact H0.
    - apply bind_Ok in Hopt as (ls & Hls & Hopt). injection Hopt as <-.
      apply Forall_app. split; [exact H0|]. eapply optional_lines; eauto. }
  injection H as <-. apply Forall_pattern_line_filter.
  destruct (AdvancedPatternBuilder.relationships self), info, bound,
    (AdvancedPatternBuilder.nodes self); try exact H1.
  apply Forall_app. split; [exact H1|].
  repeat constructor. unfold pattern_line. eexists. left. reflexivity.
Qed.

Lemma match_section_keyword : forall (O : SetOrder) q optimize m,
  match_section q optimize = Ok m -> m = "" \/ opens_with_keyword m.
Proof.
  intros O q optimize m H. unfold match_section in H.
  destruct optimize.
  - unfold build_advanced_match_clause in H.
    destruct (CypherQuery.relationships q).
    + destruct (CypherQuery.nodes q); injection H as <-; [auto|right].
      apply pattern_line_keyword. unfold pattern_line.
      eexists. left. reflexivity.
    + apply bind_Ok in H as (ps & Hps & H). injection H as <-.
      apply build_optimal_patterns_lines in Hps.
      destruct Hps as [|p ps Hp _]; [auto|right].
      apply pattern_line_keyword in Hp as (c & r & -> & Hc).
      destruct (join_opens_with PyStr.nl c r ps) as [r' ->].
      unfold opens_with_keyword. eauto.
  - apply single_match_line in H as [->|H]; [auto|right].
    now apply pattern_line_keyword.
Qed.

Lemma clauses_open_with_keyword : forall q m,
  m = "" \/ opens_with_keyword m ->
  opens_with_keyword (PyStr.join PyStr.nl (clauses_in_order q m)).
Proof.
  intros q m Hm. unfold clauses_in_order, opens_with_keyword.
  assert (K : forall c r l, (c = "M" \/ c = "O" \/ c = "W" \/ c = "R")%char ->
              exists c' r', PyStr.join PyStr.nl (String c r :: l) = String c' r'
                            /\ (c' = "M" \/ c' = "O" \/ c' = "W" \/ c' = "R")%char).
  { intros c r l Hc. destruct (join_opens_with PyStr.nl c r l) as [r' ->]. eauto. }
  destruct Hm as [->|(c & r & -> & Hc)].
  - unfold match_part, opt_part. simpl.
    destruct (CypherQuery.whereClause q); [apply K; auto|].
    destruct (CypherQuery.with_ q); [apply K; auto|].
    destruct (CypherQuery.withClause q); [apply K; auto|].
    simpl. unfold build_return_clause.
    destruct (ReturnClause.distinct (CypherQuery.returnClause q));
      apply K; auto.
  - unfold match_part. simpl. apply K. exact Hc.
Qed.

Lemma marker_is_no_prefix : forall s,
  opens_with_keyword s -> PyStr.startswith failure_marker s = false.
Proof.
  intros s (c & r & -> & [->|[->|[->| ->]]]); reflexivity.
Qed.

(** C6: for every input document the entry point returns a string:
    either the document binds and compiles and the string is the whole
    composed query, which the failure marker is no prefix of; or binding
    or compiling raises and the string is the failure marker followed by
    the message of the exception, with no query text. *)
Theorem entry_point_returns_text_or_marked_failure :
  forall (O : SetOrder) (json_data : Type)
         (model_validate : json_data -> result CypherQuery.t)
         (doc : json_data) (optimize : bool),
    (exists text,
        succeeds model_validate doc optimize text
        /\ convert_json_to_cypher model_validate doc optimize = text
        /\ PyStr.startswith failure_marker text = false)
    \/ (exists e,
          fails model_validate doc optimize e
          /\ convert_json_to_cypher model_validate doc optimize
             = failure_marker ++ exn_str e).
Proof.
  intros O json_data model_validate doc optimize.
  unfold convert_json_to_cypher, succeeds, fails.
  destruct (model_validate doc) as [q|e] eqn:Hdoc; simpl.
  - destruct (compile q optimize) as [text|e] eqn:Hc.
    + left. exists text. split; [eauto|]. split; [reflexivity|].
      apply marker_is_no_prefix.
      destruct (compile_Ok O q optimize text Hc) as (_ & m & Hm & ->).
      apply clauses_open_with_keyword.
      exact (match_section_keyword O q optimize m Hm).
    + right. exists e. split; [right; eauto|reflexivity].
  - right. exists e. split; [left; reflexivity|reflexivity].
Qed.

(** ** Concrete requests *)

Lemma missing_node1_is_rejected_witness :
  convert_json_to_cypher (O := insertion_order) Ok dangling_request true
  = failure_marker ++ "Relationship node1 alias 'x' not found in nodes.".
Proof.
  destruct (missing_node1_is_rejected insertion_order CypherQuery.t Ok
              dangling_request dangling_request true
              (Relationship.mk "x" "a" "R" None)
              eq_refl (or_introl eq_refl) eq_refl)
    as (r & e & _ & _ & Hv & _ & Hout).
  vm_compute in Hv. injection Hv as <-. exact Hout.
Defined.

Lemma clauses_follow_the_fixed_order_witness :
  convert_json_to_cypher (O := insertion_order) Ok full_request true
  = PyStr.join PyStr.nl
      ["MATCH (p:Person)";
       "WHERE p.age > 30 AND p.name = 'Ann'";
       "WITH p, count(p) AS n";
       "WHERE n > 1";
       "RETURN DISTINCT p.name, n";
       "ORDER BY n DESC";
       "LIMIT 5"].
Proof.
  destruct (clauses_follow_the_fixed_order insertion_order CypherQuery.t Ok
              full_request full_request true
              (PyStr.join PyStr.nl
                 ["MATCH (p:Person)";
                  "WHERE p.age > 30 AND p.name = 'Ann'";
                  "WITH p, count(p) AS n";
                  "WHERE n > 1";
                  "RETURN DISTINCT p.name, n";
                  "ORDER BY n DESC";
                  "LIMIT 5"])
              eq_refl eq_refl)
    as (m & Hm & Hout).
  vm_compute in Hm. injection Hm as <-. exact Hout.
Defined.

(** ** Connected components *)

Lemma mem_nat_In : forall x l, mem_nat x l = true <-> In x l.
Proof.
  intros x l. unfold mem_nat. rewrite existsb_exists. split.
  - intros (y & Hy & E). apply Nat.eqb_eq in E. now subst.
  - intro H. exists x. split; [exact H|apply Nat.eqb_refl].
Qed.

Lemma mem_nat_false : forall x l, mem_nat x l = false <-> ~ In x l.
Proof.
  intros x l. rewrite <- mem_nat_In. destruct (mem_nat x l); split; congruence.
Qed.

Lemma mem_str_In : forall x l, mem_str x l = true <-> In x l.
Proof.
  intros x l. unfold mem_str. rewrite existsb_exists. split.
  - intros (y & Hy & E). apply String.eqb_eq in E. now subst.
  - intro H. exists x. split; [exact H|apply String.eqb_refl].
Qed.

(** A fold that only ever adds: what is in the result was there before
    or was added by some element. *)
Lemma fold_left_adds : forall (S X Y : Type) (f : S -> X -> S)
    (has : S -> Y -> Prop) (adds : X -> Y -> Prop),
  (forall s x y, has (f s x) y <-> has s y \/ adds x y) ->
  forall l s y,
    has (fold_left f l s) y <-> has s y \/ exists x, In x l /\ adds x y.
Proof.
  intros S X Y f has adds Hf. induction l as [|x l IH]; intros s y; simpl.
  - split; [auto|]. intros [H|(x & [] & _)]. exact H.
  - rewrite IH, Hf. split.
    + intros [[H|H]|(x' & Hx & H)]; eauto.
    + intros [H|(x' & [<-|Hx] & H)]; eauto.
Qed.

Lemma In_enumerate : forall (A : Type) (l : list A) i x,
  In (i, x) (enumerate l) <-> nth_error l i = Some x.
Proof.
  intros A l. unfold enumerate.
  assert (G : forall s i x,
             In (i, x) (combine (seq s (List.length l)) l)
             <-> s <= i /\ nth_error l (i - s) = Some x).
  { induction l as [|a l IH]; intros s i x; simpl.
    - split; [contradiction|]. intros [_ H]. destruct (i - s); discriminate.
    - rewrite IH. split.
      + intros [E|[Hs H]].
        * injection E as <- <-. rewrite Nat.sub_diag. auto.
        * split; [lia|]. replace (i - s) with (S (i - S s)) by lia. exact H.
      + intros [Hs H]. destruct (i - s) as [|k] eqn:E.
        * left. injection H as <-. f_equal. lia.
        * right. split; [lia|]. replace (i - S s) with k by lia. exact H. }
  intros i x. rewrite G, Nat.sub_0_r. split; [tauto|]. intro H. split; [lia|exact H].
Qed.

Lemma set_add_In : forall j s y, In y (set_add j s) <-> In y s \/ y = j.
Proof.
  intros j s y. unfold set_add. destruct (mem_nat j s) eqn:E.
  - apply mem_nat_In in E. split; [auto|]. intros [H| ->]; auto.
  - rewrite in_app_iff. simpl. split; intros [H|H]; auto.
    + destruct H as [<-|[]]. auto.
Qed.

Lemma adj_add_In : forall i j adj x y,
  In y (adj_get x (adj_add i j adj))
  <-> In y (adj_get x adj) \/ (x = i /\ y = j).
Proof.
  intros i j. induction adj as [|[k s] adj IH]; intros x y; simpl.
  - destruct (Nat.eqb_spec x i) as [->|N]; simpl.
    + split; [intros [<-|[]]; auto|]. intros [[]|[_ ->]]. auto.
    + split; [contradiction|]. intros [[]|[E _]]. contradiction.
  - destruct (Nat.eqb_spec i k) as [<-|N]; simpl.
    + destruct (Nat.eqb_spec x i) as [->|N'].
      * rewrite set_add_In. split; intros [H|H]; auto. destruct H. auto.
      * split; [auto|]. intros [H|[E _]]; [exact H|contradiction].
    + destruct (Nat.eqb_spec x k) as [->|N'].
      * split; [auto|]. intros [H|[E _]]; [exact H|]. congruence.
      * apply IH.
Qed.

Lemma share_spec : forall p q, share p q = true <-> shares_alias p q.
Proof.
  intros [[a1 a2] t] [[b1 b2] u]. unfold share, shares_alias.
  rewrite !orb_true_iff, !String.eqb_eq. tauto.
Qed.

Lemma shares_alias_sym : forall p q, shares_alias p q -> shares_alias q p.
Proof.
  intros [[a1 a2] t] [[b1 b2] u]. unfold shares_alias.
  intros [H|[H|[H|H]]]; auto.
Qed.

Lemma adjacent_sym : forall rels i j, adjacent rels i j -> adjacent rels j i.
Proof.
  intros rels i j (N & p & q & Hp & Hq & H).
  split; [auto|]. exists q, p. auto using shares_alias_sym.
Qed.

Lemma adjacent_lt : forall rels i j,
  adjacent rels i j -> i < List.length rels /\ j < List.length rels.
Proof.
  intros rels i j (_ & p & q & Hp & Hq & _).
  split; apply nth_error_Some; congruence.
Qed.

Lemma build_adj_spec : forall rels i j,
  In j (adj_get i (build_adj rels)) <-> adjacent rels i j.
Proof.
  intros rels i j. unfold build_adj.
  set (has := fun (adj : adj_t) (xy : nat * nat) => In (snd xy) (adj_get (fst xy) adj)).
  set (adds2 := fun (ip jq : nat * rel_pair) (xy : nat * nat) =>
                  fst ip <> fst jq /\ share (snd ip) (snd jq) = true
                  /\ ((fst xy = fst ip /\ snd xy = fst jq)
                      \/ (fst xy = fst jq /\ snd xy = fst ip))).
  set (adds1 := fun (ip : nat * rel_pair) (xy : nat * nat) =>
                  exists jq, In jq (enumerate rels) /\ adds2 ip jq xy).
  assert (Inner : forall ip adj xy,
            has (fold_left
                   (fun adj (jq : nat * rel_pair) =>
                      if Nat.eqb (fst ip) (fst jq) then adj
                      else if share (snd ip) (snd jq)
                           then adj_add (fst jq) (fst ip)
                                        (adj_add (fst ip) (fst jq) adj)
                           else adj) (enumerate rels) adj) xy
            <-> has adj xy \/ adds1 ip xy).
  { intros ip adj xy. apply fold_left_adds. clear adj xy.
    intros adj jq xy. unfold has, adds2.
    destruct (Nat.eqb_spec (fst ip) (fst jq)) as [E|N]; [tauto|].
    destruct (share (snd ip) (snd jq)); [|split; [auto|intros [H|(_ & H & _)]; [exact H|discriminate]]].
    rewrite !adj_add_In. tauto. }
  change (has (fold_left
                 (fun adj ip =>
                    fold_left
                      (fun adj (jq : nat * rel_pair) =>
                         if Nat.eqb (fst ip) (fst jq) then adj
                         else if share (snd ip) (snd jq)
                              then adj_add (fst jq) (fst ip)
                                           (adj_add (fst ip) (fst jq) adj)
                              else adj) (enumerate rels) adj)
                 (enumerate rels) []) (i, j) <-> adjacent rels i j).
  rewrite (fold_left_adds _ _ _ _ has adds1 (fun s x y => Inner x s y)).
  unfold has, adds1, adds2, adjacent. simpl. split.
  - intros [[]|([i' p] & Hp & [j' q] & Hq & N & S & H)]. simpl in *.
    apply In_enumerate in Hp, Hq. apply share_spec in S.
    destruct H as [[-> ->]|[-> ->]].
    + split; [exact N|]. exists p, q. auto.
    + split; [auto|]. exists q, p. auto using shares_alias_sym.
  - intros (N & p & q & Hp & Hq & S). right.
    exists (i, p). split; [now apply In_enumerate|].
    exists (j, q). split; [now apply In_enumerate|]. simpl.
    split; [exact N|]. split; [now apply share_spec|]. auto.
Qed.

(** The loop over the neighbours of one index: the new ones go to the
    queue, in order, and join [seen]. *)
Lemma visit_fold : forall vs seen dq,
  exists news,
    fold_left visit vs (seen, dq) = ((rev news ++ seen)%list, (dq ++ news)%list)
    /\ NoDup news
    /\ (forall v, In v news <-> In v vs /\ ~ In v seen).
Proof.
  induction vs as [|v vs IH]; intros seen dq; simpl.
  - exists []. simpl. rewrite app_nil_r. split; [reflexivity|].
    split; [constructor|]. intro v. tauto.
  - unfold visit at 2. simpl. destruct (mem_nat v seen) eqn:E.
    + apply mem_nat_In in E. destruct (IH seen dq) as (news & -> & ND & Hn).
      exists news. split; [reflexivity|]. split; [exact ND|].
      intro x. rewrite Hn. split; [tauto|].
      intros [[<-|H] N]; [contradiction|auto].
    + apply mem_nat_false in E.
      destruct (IH (v :: seen) (dq ++ [v])%list) as (news & -> & ND & Hn).
      exists (v :: news). simpl. rewrite <- !app_assoc. simpl.
      split; [reflexivity|]. split.
      * constructor; [|exact ND]. rewrite Hn. simpl. tauto.
      * intro x. rewrite Hn. simpl. split.
        -- intros [<-|[H N]]; [auto|]. split; [auto|tauto].
        -- intros [[<-|H] N]; [auto|].
           destruct (Nat.eq_dec v x) as [<-|D]; [auto|]. right. tauto.
Qed.

Lemma NoDup_app_disjoint : forall (A : Type) (l1 l2 : list A),
  NoDup (l1 ++ l2) -> forall a, In a l1 -> ~ In a l2.
Proof.
  induction l1 as [|x l1 IH]; simpl; intros l2 ND a Ha; [contradiction|].
  inversion ND as [|? ? Hx ND']; subst. destruct Ha as [<-|Ha].
  - intro H. apply Hx. apply in_or_app. now right.
  - now apply IH.
Qed.

Section ComponentsProof.
Context {O : SetOrder}.
Variable rels : list rel_pair.

Lemma indices_length : forall l, indices rels l -> List.length l <= List.length rels.
Proof.
  intros l [ND Hlt]. rewrite <- (length_seq (List.length rels) 0).
  apply NoDup_incl_length; [exact ND|].
  intros v Hv. apply in_seq. specialize (Hlt v Hv). lia.
Qed.

Lemma bfs_spec : forall fuel dq seen comp,
  indices rels seen ->
  List.length dq + (List.length rels - List.length seen) <= fuel ->
  exists added,
    bfs fuel (build_adj rels) dq seen comp
    = Some ((comp ++ dq ++ rev added)%list, (added ++ seen)%list)
    /\ indices rels (added ++ seen)
    /\ covers rels (added ++ seen) (dq ++ added).
Proof.
  induction fuel as [|fuel IH]; intros dq seen comp Hs Hf.
  - destruct dq; [|simpl in Hf; lia]. exists []. simpl.
    rewrite app_nil_r. split; [reflexivity|]. split; [exact Hs|].
    intros u v [].
  - destruct dq as [|u dq].
    + exists []. simpl. rewrite app_nil_r. split; [reflexivity|].
      split; [exact Hs|]. intros u v [].
    + simpl.
      destruct (visit_fold (iter_nat (adj_get u (build_adj rels))) seen dq)
        as (news & -> & ND & Hn). simpl.
      assert (Hs' : indices rels (rev news ++ seen)).
      { destruct Hs as [NDs Hlt]. split.
        - apply NoDup_app; [now apply NoDup_rev|exact NDs|].
          intros v Hv Hv'. apply in_rev in Hv. apply Hn in Hv. tauto.
        - intros v Hv. apply in_app_or in Hv as [Hv|Hv]; [|auto].
          apply in_rev, Hn in Hv. destruct Hv as [Hv _].
          apply iter_nat_In, build_adj_spec, adjacent_lt in Hv. tauto. }
      pose proof (indices_length _ Hs') as Hl.
      rewrite length_app, length_rev in Hl.
      destruct (IH (dq ++ news)%list (rev news ++ seen)%list (comp ++ [u])%list Hs')
        as (added & -> & Hi & Hc).
      { rewrite !length_app, length_rev. simpl in Hf. lia. }
      exists (added ++ rev news)%list.
      rewrite rev_app_distr, rev_involutive, <- !app_assoc. simpl.
      split; [reflexivity|]. split; [exact Hi|].
      intros x v Hx Hxv. simpl in Hx.
      destruct Hx as [<-|Hx].
      * apply build_adj_spec, (iter_nat_In (adj_get u (build_adj rels))) in Hxv.
        destruct (in_dec Nat.eq_dec v seen) as [Hv|Hv].
        -- rewrite !in_app_iff. auto.
        -- rewrite !in_app_iff. right. left. apply in_rev.
           rewrite rev_involutive. apply Hn. auto.
      * apply (Hc x v); [|exact Hxv].
        rewrite !in_app_iff in *. rewrite <- in_rev in Hx. tauto.
Qed.

Lemma components_loop_spec : forall todo seen comps,
  (forall i, In i todo -> i < List.length rels) ->
  components_inv rels seen comps ->
  exists seen' comps',
    components_loop (List.length rels) (build_adj rels) todo seen comps
    = Some comps'
    /\ components_inv rels seen' comps'
    /\ (forall i, In i todo \/ In i seen -> In i seen').
Proof.
  induction todo as [|i todo IH]; intros seen comps Ht Hinv; simpl.
  - exists seen, comps. split; [reflexivity|]. split; [exact Hinv|].
    intros i [[]|H]. exact H.
  - destruct (mem_nat i seen) eqn:E.
    + apply mem_nat_In in E.
      destruct (IH seen comps) as (seen' & comps' & -> & Hinv' & Hin);
        [intros; apply Ht; now right|exact Hinv|].
      exists seen', comps'. split; [reflexivity|]. split; [exact Hinv'|].
      intros x [[<-|H]|H]; auto.
    + apply mem_nat_false in E.
      destruct Hinv as [[NDs Hlt] Hperm Hcov Hclosed].
      assert (Hi : indices rels (i :: seen)).
      { split; [now constructor|]. intros v [<-|Hv]; [apply Ht; now left|auto]. }
      pose proof (indices_length _ Hi) as Hl. simpl in Hl.
      destruct (bfs_spec (List.length rels) [i] (i :: seen) [] Hi)
        as (added & -> & Hi' & Hc); [simpl; lia|].
      simpl in Hc. cbn [app].
      assert (Hdisj : forall u, In u (i :: added) -> ~ In u seen).
      { destruct Hi' as [ND _]. intros u Hu Hs.
        destruct Hu as [<-|Hu]; [contradiction|].
        apply (NoDup_app_disjoint _ _ _ ND u Hu). now right. }
      destruct (IH (added ++ i :: seen)%list (comps ++ [i :: rev added])%list)
        as (seen' & comps' & -> & Hinv' & Hin).
      * intros; apply Ht; now right.
      * split.
        -- exact Hi'.
        -- rewrite concat_app. simpl. rewrite app_nil_r.
           rewrite Hperm. rewrite (Permutation_app_comm seen).
           change ((i :: rev added) ++ seen)%list with (i :: (rev added ++ seen))%list.
           rewrite <- (Permutation_rev added). apply Permutation_middle.
        -- intros u v Hu Huv. apply in_app_or in Hu as [Hu|[<-|Hu]].
           ++ apply (Hc u v); [now right|exact Huv].
           ++ apply (Hc i v); [now left|exact Huv].
           ++ apply in_or_app. right. right. apply (Hcov u v Hu Huv).
        -- intros comp Hcomp. apply in_app_or in Hcomp as [Hcomp|[<-|[]]];
             [now apply Hclosed|].
           intros u v Hu Huv.
           assert (Hu' : In u (i :: added)).
           { destruct Hu as [<-|Hu]; [now left|right; now apply in_rev]. }
           assert (Hv : In v (added ++ i :: seen)).
           { apply (Hc u v); [exact Hu'|exact Huv]. }
           apply in_app_or in Hv as [Hv|[<-|Hv]].
           ++ right. now apply in_rev in Hv.
           ++ now left.
           ++ exfalso. apply (Hdisj u Hu').
              apply (Hcov v u Hv). now apply adjacent_sym.
      * exists seen', comps'. split; [reflexivity|]. split; [exact Hinv'|].
        intros x [[<-|H]|H]; apply Hin.
        -- right. apply in_or_app. right. now left.
        -- now left.
        -- right. apply in_or_app. right. now right.
Qed.

End ComponentsProof.

Lemma components_fuel_spec : forall (O : SetOrder) rels,
  exists seen comps,
    components_fuel (List.length rels) rels = Some comps
    /\ components_inv rels seen comps
    /\ Permutation seen (seq 0 (List.length rels)).
Proof.
  intros O rels. unfold components_fuel.
  destruct (components_loop_spec rels (seq 0 (List.length rels)) [] [])
    as (seen & comps & H & Hinv & Hin).
  - intros i Hi. apply in_seq in Hi. lia.
  - constructor.
    + split; [constructor|intros v []].
    + simpl. constructor.
    + intros u v [].
    + intros comp [].
  - exists seen, comps. split; [exact H|]. split; [exact Hinv|].
    destruct Hinv as [[ND Hlt] _ _ _].
    apply NoDup_Permutation_bis; [exact ND| |].
    + rewrite length_seq. rewrite <- (length_seq (List.length rels) 0).
      apply NoDup_incl_length; [apply seq_NoDup|].
      intros i Hi. apply Hin. now left.
    + intros i Hi. apply in_seq. specialize (Hlt i Hi). lia.
Qed.

(** The loops of the connectivity analyzer end within their fuel. *)
Lemma components_fuel_total : forall (O : SetOrder) rels,
  components_fuel (List.length rels) rels
  = Some (_connected_components_on_rels rels).
Proof.
  intros O rels. unfold _connected_components_on_rels.
  destruct (components_fuel_spec O rels) as (seen & comps & -> & _).
  reflexivity.
Qed.

Lemma components_spec : forall (O : SetOrder) rels,
  Permutation (List.concat (_connected_components_on_rels rels))
              (seq 0 (List.length rels))
  /\ forall comp, In comp (_connected_components_on_rels rels) ->
                  covers rels comp comp.
Proof.
  intros O rels. unfold _connected_components_on_rels.
  destruct (components_fuel_spec O rels) as (seen & comps & -> & Hinv & Hp).
  destruct Hinv as [_ Hc _ Hcl]. split; [|exact Hcl].
  now rewrite Hc.
Qed.

Lemma covers_connected : forall rels comp i j,
  covers rels comp comp -> connected rels i j -> In i comp -> In j comp.
Proof.
  intros rels comp i j Hc H. induction H as [i j H|i|i k j _ IH1 _ IH2]; auto.
  intro Hi. exact (Hc i j Hi H).
Qed.

(** C5: the loops of the connectivity analyzer end; the components it
    returns hold every relationship index exactly once between them; and
    two relationships linked by a chain of shared endpoint aliases lie
    in one component. *)
Theorem components_partition_the_relationships :
  forall (O : SetOrder) (rel_pairs : list rel_pair),
    components_fuel (List.length rel_pairs) rel_pairs
    = Some (_connected_components_on_rels rel_pairs)
    /\ Permutation (List.concat (_connected_components_on_rels rel_pairs))
                   (seq 0 (List.length rel_pairs))
    /\ (forall i j,
          i < List.length rel_pairs -> connected rel_pairs i j ->
          exists comp,
            In comp (_connected_components_on_rels rel_pairs)
            /\ In i comp /\ In j comp).
Proof.
  intros O rels. split; [apply components_fuel_total|].
  destruct (components_spec O rels) as [Hp Hcl]. split; [exact Hp|].
  intros i j Hi Hij.
  assert (Hin : In i (List.concat (_connected_components_on_rels rels))).
  { apply (Permutation_in i (Permutation_sym Hp)). apply in_seq. lia. }
  apply in_concat in Hin as (comp & Hcomp & Hic).
  exists comp. split; [exact Hcomp|]. split; [exact Hic|].
  exact (covers_connected rels comp i j (Hcl comp Hcomp) Hij Hic).
Qed.

Lemma components_partition_the_relationships_witness :
  exists comp,
    In comp (_connected_components_on_rels (O := insertion_order) three_rels)
    /\ In 0 comp /\ In 2 comp.
Proof.
  apply (proj2 (proj2 (components_partition_the_relationships
                         insertion_order three_rels))).
  - simpl. lia.
  - apply rt_step. split; [discriminate|].
    exists ("a", "b", "R"), ("b", "e", "T").
    split; [reflexivity|]. split; [reflexivity|].
    right. right. left. reflexivity.
Defined.

(** ** The chain builder *)

Lemma arrows_app : forall l1 l2, arrows (l1 ++ l2) = (arrows l1 ++ arrows l2)%list.
Proof.
  induction l1 as [|t l1 IH]; intro l2; simpl; [reflexivity|].
  destruct t; simpl; now rewrite IH.
Qed.

Lemma arrows_simples : forall lookup ies, arrows (simples lookup ies) = map fst ies.
Proof.
  induction ies as [|[idx [[a b] rt]] ies IH]; simpl; [reflexivity|].
  destruct ies as [|ie ies]; [reflexivity|].
  cbn [app arrows]. now rewrite IH.
Qed.

Lemma map_fst_enumerate : forall (A : Type) (l : list A),
  map fst (enumerate l) = seq 0 (List.length l).
Proof.
  intros A l. unfold enumerate. generalize 0.
  induction l as [|x l IH]; intro s; simpl; [reflexivity|]. now rewrite IH.
Qed.

Lemma first_unused_spec : forall used eis,
  Forall (fun ei => ei < List.length used) eis ->
  (first_unused used eis = Ok None
   /\ forall ei, In ei eis -> nth_error used ei = Some true)
  \/ exists ei, first_unused used eis = Ok (Some ei)
                /\ In ei eis /\ nth_error used ei = Some false.
Proof.
  induction eis as [|ei eis IH]; intro H; simpl.
  - left. split; [reflexivity|]. intros ei [].
  - inversion H as [|? ? Hlt Hrest]; subst.
    destruct (nth_error used ei) as [[|]|] eqn:E.
    + destruct (IH Hrest) as [[-> Hall]|(ej & -> & Hin & Hf)].
      * left. split; [reflexivity|]. intros x [<-|Hx]; auto.
      * right. exists ej. auto.
    + right. exists ei. auto.
    + apply nth_error_None in E. lia.
Qed.

Lemma mark_length : forall used ei, List.length (mark ei used) = List.length used.
Proof.
  induction used as [|b used IH]; intros [|k]; simpl; auto.
Qed.

Lemma mark_true : forall used ei i,
  ei < List.length used ->
  (nth_error (mark ei used) i = Some true
   <-> i = ei \/ nth_error used i = Some true).
Proof.
  induction used as [|b used IH]; intros ei i Hlt; simpl in Hlt; [lia|].
  destruct ei as [|k]; destruct i as [|i]; simpl.
  - split; auto.
  - split; [auto|]. intros [H|H]; [discriminate|exact H].
  - split; [auto|]. intros [H|H]; [discriminate|exact H].
  - rewrite IH by lia. split; intros [H|H]; auto.
Qed.

(** ** Dictionaries *)

Lemma Dict_get_set : forall (V : Type) k (v : V) d x,
  Dict.get x (Dict.set k v d) = if String.eqb x k then Some v else Dict.get x d.
Proof.
  induction d as [|[k' v'] d IH]; intro x; simpl.
  - reflexivity.
  - destruct (String.eqb_spec k k') as [<-|N]; simpl.
    + destruct (String.eqb_spec x k); reflexivity.
    + destruct (String.eqb_spec x k') as [->|N'].
      * destruct (String.eqb_spec k' k); [congruence|reflexivity].
      * apply IH.
Qed.

Lemma Dict_get_In : forall (V : Type) k (v : V) d,
  Dict.get k d = Some v -> In (k, v) d.
Proof.
  induction d as [|[k' v'] d IH]; simpl; [discriminate|].
  destruct (String.eqb_spec k k') as [<-|N]; intro H.
  - injection H as <-. now left.
  - right. auto.
Qed.

Lemma fold_left_preserves : forall (S X : Type) (f : S -> X -> S)
    (P : S -> Prop) l s,
  P s -> (forall s x, In x l -> P s -> P (f s x)) -> P (fold_left f l s).
Proof.
  induction l as [|x l IH]; intros s Hs Hf; simpl; [exact Hs|].
  apply IH; [apply Hf; [now left|exact Hs]|].
  intros s' x' Hx. apply Hf. now right.
Qed.

Lemma alias_adj_bound : forall comp_edges k,
  Forall (fun ei => ei < List.length comp_edges)
         (alias_adj_get k (alias_adj_of comp_edges)).
Proof.
  intros es k. unfold alias_adj_get.
  assert (G : forall x l, Dict.get x (alias_adj_of es) = Some l ->
                          Forall (fun ei => ei < List.length es) l).
  { unfold alias_adj_of.
    apply (fold_left_preserves _ _ _
             (fun d => forall x l, Dict.get x d = Some l ->
                                   Forall (fun ei => ei < List.length es) l)).
    - intros x l H. discriminate.
    - intros d [idx [[a b] rt]] Hin Hd.
      assert (Hidx : idx < List.length es).
      { apply In_enumerate in Hin. apply nth_error_Some. congruence. }
      assert (Step : forall d' key,
                (forall x l, Dict.get x d' = Some l ->
                             Forall (fun ei => ei < List.length es) l) ->
                forall x l, Dict.get x (adj_append key idx d') = Some l ->
                            Forall (fun ei => ei < List.length es) l).
      { intros d' key Hd' x l. unfold adj_append. rewrite Dict_get_set.
        destruct (String.eqb x key); [|apply Hd'].
        intro H. injection H as <-.
        destruct (Dict.get key d') as [l0|] eqn:E.
        - apply Forall_app. split; [eapply Hd'; eauto|]. now constructor.
        - now constructor. }
      apply Step, Step, Hd. }
  destruct (Dict.get k (alias_adj_of es)) eqn:E; [eauto|constructor].
Qed.

(** ** The walk *)

Lemma simples_render : forall comp_edges lookup ies,
  (forall i e, In (i, e) ies -> nth_error comp_edges i = Some e) ->
  Forall (renders comp_edges) (simples lookup ies).
Proof.
  intros es lookup. induction ies as [|[idx [[a b] rt]] ies IH]; intro H.
  - constructor.
  - assert (R : renders es (TFwd idx rt)).
    { simpl. exists a, b. apply H. now left. }
    simpl. destruct ies as [|ie ies].
    + repeat constructor. exact R.
    + cbn [app]. repeat constructor; [exact R|].
      apply IH. intros i e Hi. apply H. now right.
Qed.

Lemma walk_spec : forall comp_edges lookup remaining used current segs,
  List.length used = List.length comp_edges ->
  NoDup (arrows segs) ->
  (forall i, In i (arrows segs) <-> nth_error used i = Some true) ->
  List.length (arrows segs) + remaining = List.length comp_edges ->
  Forall (renders comp_edges) segs ->
  exists toks,
    walk comp_edges lookup (alias_adj_of comp_edges) remaining used current segs
    = Ok toks
    /\ Forall (renders comp_edges) toks
    /\ Permutation (arrows toks) (seq 0 (List.length comp_edges)).
Proof.
  intros es lookup. induction remaining as [|r IH];
    intros used current segs Hlen ND Hused Hcount Hren; simpl.
  - exists segs. split; [reflexivity|]. split; [exact Hren|].
    apply NoDup_Permutation_bis; [exact ND|rewrite length_seq; lia|].
    intros i Hi. apply in_seq. apply Hused in Hi.
    assert (i < List.length used) by (apply nth_error_Some; congruence). lia.
  - destruct (first_unused_spec used
                (alias_adj_get current (alias_adj_of es)))
      as [[-> _]|(ei & -> & Hin & Hf)].
    + rewrite Hlen. apply alias_adj_bound.
    + simpl. exists (simples lookup (enumerate es)). split; [reflexivity|].
      split; [|now rewrite arrows_simples, map_fst_enumerate].
      apply simples_render. intros i e. apply In_enumerate.
    + simpl.
      assert (Hei : ei < List.length es).
      { rewrite <- Hlen. apply nth_error_Some. congruence. }
      destruct (nth_error es ei) as [[[a b] rt]|] eqn:E;
        [|apply nth_error_None in E; lia].
      assert (Hnew : ~ In ei (arrows segs)).
      { intro H. apply Hused in H. congruence. }
      assert (Step : forall tok nxt,
                arrows [tok] = [ei] -> renders es tok ->
                exists toks,
                  walk es lookup (alias_adj_of es) r (mark ei used) nxt
                       (segs ++ [tok; TNode (_fmt_node nxt lookup)])
                  = Ok toks
                  /\ Forall (renders es) toks
                  /\ Permutation (arrows toks) (seq 0 (List.length es))).
      { intros tok nxt Htok Hr.
        assert (Harr : arrows (segs ++ [tok; TNode (_fmt_node nxt lookup)])
                       = (arrows segs ++ [ei])%list).
        { rewrite arrows_app. f_equal.
          change [tok; TNode (_fmt_node nxt lookup)]
            with ([tok] ++ [TNode (_fmt_node nxt lookup)])%list.
          rewrite arrows_app, Htok. reflexivity. }
        apply IH.
        - now rewrite mark_length.
        - rewrite Harr. apply NoDup_app; [exact ND|repeat constructor; auto|].
          intros x Hx [<-|[]]. contradiction.
        - intro i. rewrite Harr, in_app_iff, mark_true by lia.
          rewrite Hused. simpl. split; intros [H|H]; auto.
          + destruct H as [<-|[]]. auto.
        - rewrite Harr, length_app. simpl. lia.
        - apply Forall_app. split; [exact Hren|]. repeat constructor. exact Hr. }
      destruct (String.eqb a current).
      * apply (Step (TFwd ei rt) b); [reflexivity|]. simpl. eauto.
      * apply (Step (TRev ei rt) a); [reflexivity|]. simpl. eauto.
Qed.

Lemma chain_tokens_from_alias : forall rel_pairs comp_idxs lookup preferred
    comp_edges start,
  comp_edges_of rel_pairs comp_idxs = Ok comp_edges ->
  choose_start comp_edges preferred = StartAlias start ->
  exists toks,
    chain_tokens rel_pairs comp_idxs lookup preferred = Ok toks
    /\ Forall (renders comp_edges) toks
    /\ Permutation (arrows toks) (seq 0 (List.length comp_edges)).
Proof.
  intros rel_pairs comp_idxs lookup preferred es start Hes Hstart.
  unfold chain_tokens. rewrite Hes. simpl. rewrite Hstart.
  apply walk_spec.
  - apply repeat_length.
  - simpl. constructor.
  - intro i. simpl. split; [contradiction|]. intro H.
    apply nth_error_In, repeat_spec in H. discriminate.
  - simpl. reflexivity.
  - repeat constructor.
Qed.

(** ** Degrees *)

Lemma getn_incr : forall x k d,
  getn x (incr k d) = getn x d + (if String.eqb k x then 1 else 0).
Proof.
  intros x k d. unfold getn, incr. rewrite Dict_get_set.
  rewrite (String.eqb_sym k x).
  destruct (String.eqb_spec x k) as [->|N]; [|lia].
  destruct (Dict.get k d); lia.
Qed.

Lemma degree_of_occ : forall es x, getn x (degree_of es) = occ x es.
Proof.
  intros es x. unfold degree_of.
  assert (G : forall d,
            getn x (fold_left (fun d (e : rel_pair) =>
                                 let '(a, b, _) := e in incr b (incr a d)) es d)
            = getn x d + occ x es).
  { induction es as [|[[a b] rt] es IH]; intro d; simpl; [lia|].
    rewrite IH, !getn_incr. lia. }
  rewrite G. reflexivity.
Qed.

Lemma degree_one_found : forall es x,
  occ x es = 1 ->
  exists alias d, find (fun kd : string * nat => Nat.eqb (snd kd) 1)
                       (degree_of es) = Some (alias, d).
Proof.
  intros es x H. rewrite <- degree_of_occ in H. unfold getn in H.
  destruct (Dict.get x (degree_of es)) as [d|] eqn:E; [|discriminate].
  subst d. apply Dict_get_In in E.
  destruct (find (fun kd : string * nat => Nat.eqb (snd kd) 1) (degree_of es))
    as [[alias d]|] eqn:F; [eauto|].
  apply (find_none _ _ F) in E. discriminate.
Qed.

Lemma find_none_all : forall (A : Type) (f : A -> bool) l,
  (forall x, In x l -> f x = false) -> find f l = None.
Proof.
  induction l as [|a l IH]; simpl; intro H; [reflexivity|].
  rewrite (H a) by now left. apply IH. intros x Hx. apply H. now right.
Qed.

(** C2 (what the code does instead): when the preferred start is not an alias of
    the component and no alias has degree 1, [start] is the list
    [comp_edges], not an alias, and rendering it raises [TypeError]:
    the chain builder produces no pattern. *)
Theorem no_degree_one_alias_raises :
  forall (rel_pairs : list rel_pair) (comp_idxs : list nat)
         (node_lookup : Dict.t Node.t) (preferred_start : option string)
         (comp_edges : list rel_pair),
    comp_edges_of rel_pairs comp_idxs = Ok comp_edges ->
    (forall p, preferred_start = Some p ->
               mem_str p (aliases_in_comp comp_edges) = false) ->
    (forall alias d, In (alias, d) (degree_of comp_edges) -> d <> 1) ->
    choose_start comp_edges preferred_start = StartEdges comp_edges
    /\ _chain_component rel_pairs comp_idxs node_lookup preferred_start
       = Raise (TypeError "unhashable type: 'list'").
Proof.
  intros rel_pairs comp_idxs lookup preferred es Hes Hpref Hdeg.
  assert (Hstart : choose_start es preferred = StartEdges es).
  { unfold choose_start.
    rewrite find_none_all.
    - destruct preferred as [p|]; [|reflexivity].
      now rewrite (Hpref p eq_refl).
    - intros [alias d] Hin. simpl. apply Nat.eqb_neq. eapply Hdeg; eauto. }
  split; [exact Hstart|].
  unfold _chain_component, chain_tokens. rewrite Hes. simpl.
  now rewrite Hstart.
Qed.

Lemma no_degree_one_alias_raises_witness :
  _chain_component triangle [0; 1; 2] abc_lookup None
  = Raise (TypeError "unhashable type: 'list'").
Proof.
  refine (proj2 (no_degree_one_alias_raises triangle [0; 1; 2] abc_lookup
                   None triangle eq_refl _ _)).
  - intros p H. discriminate.
  - intros alias d H. vm_compute in H.
    destruct H as [E|[E|[E|[]]]]; injection E as _ <-; discriminate.
Defined.

(** Through the entry point the cycle comes back as a failure, with or
    without optimization. *)
Lemma triangle_request_fails :
  convert_json_to_cypher (O := insertion_order) Ok triangle_request true
  = failure_marker ++ "unhashable type: 'list'"
  /\ convert_json_to_cypher (O := insertion_order) Ok triangle_request false
     = failure_marker ++ "unhashable type: 'list'".
Proof. split; reflexivity. Qed.

(** ** Simple paths *)

Lemma path_length : forall vs es, path vs es -> List.length vs = S (List.length es).
Proof. induction 1; simpl; auto. Qed.

Lemma occ_app : forall x es1 es2, occ x (es1 ++ es2) = occ x es1 + occ x es2.
Proof.
  induction es1 as [|[[a b] rt] es1 IH]; intro es2; simpl; [reflexivity|].
  rewrite IH. lia.
Qed.

Lemma occ_perm : forall x es1 es2, Permutation es1 es2 -> occ x es1 = occ x es2.
Proof.
  induction 1 as [|[[a b] rt] l l' _ IH|[[a b] rt] [[a' b'] rt'] l|l l' l'' _ IH1 _ IH2];
    simpl; lia.
Qed.

Lemma path_occ_out : forall vs es x, path vs es -> ~ In x vs -> occ x es = 0.
Proof.
  induction 1 as [v|u v vs [[a b] rt] es J _ IH]; intro Hx; simpl; [reflexivity|].
  rewrite IH by (intro H; apply Hx; now right).
  assert (Hu : u <> x) by (intro E; apply Hx; now left).
  assert (Hv : v <> x) by (intro E; apply Hx; right; now left).
  destruct J as [[Ea Eb]|[Ea Eb]]; simpl in Ea, Eb;
    destruct (String.eqb_spec a x), (String.eqb_spec b x);
    try congruence; reflexivity.
Qed.

Lemma path_head_occ : forall u vs e es,
  path (u :: vs) (e :: es) -> NoDup (u :: vs) -> occ u (e :: es) = 1.
Proof.
  intros u vs e es H ND.
  inversion H as [|u' v vs' e' es' J P]; subst.
  inversion ND as [|? ? Hu ND']; subst.
  destruct e as [[a b] rt]. simpl.
  rewrite (path_occ_out (v :: vs') es u P Hu).
  assert (Huv : v <> u) by (intro E; apply Hu; now left).
  destruct J as [[Ea Eb]|[Ea Eb]]; simpl in Ea, Eb; subst.
  - rewrite String.eqb_refl.
    destruct (String.eqb_spec v u); [contradiction|reflexivity].
  - rewrite String.eqb_refl.
    destruct (String.eqb_spec v u); [contradiction|reflexivity].
Qed.

Lemma aliases_in_comp_In : forall es x,
  In x (aliases_in_comp es) <-> endpoint x es.
Proof.
  intros es x. unfold aliases_in_comp, endpoint.
  rewrite in_app_iff, !in_map_iff. split.
  - intros [(e & E & H)|(e & E & H)]; exists e; auto.
  - intros (e & H & [E|E]); [left|right]; exists e; auto.
Qed.

Lemma path_endpoints : forall vs es x,
  path vs es -> es <> [] -> (endpoint x es <-> In x vs).
Proof.
  induction 1 as [v|u v vs e es J P IH]; intro Hne; [congruence|].
  assert (Hhead : endpoint x [e] <-> x = u \/ x = v).
  { unfold endpoint. split.
    - intros (e' & [<-|[]] & H). destruct J as [[<- <-]|[<- <-]], H; auto.
    - intros H. exists e. split; [now left|].
      destruct J as [[<- <-]|[<- <-]], H; auto. }
  assert (Hcons : endpoint x (e :: es) <-> endpoint x [e] \/ endpoint x es).
  { unfold endpoint. split.
    - intros (e' & [<-|H'] & H).
      + left. exists e. split; [now left|exact H].
      + right. exists e'. auto.
    - intros [(e' & [<-|[]] & H)|(e' & H' & H)].
      + exists e. split; [now left|exact H].
      + exists e'. split; [now right|exact H]. }
  rewrite Hcons, Hhead. destruct es as [|e2 es].
  - inversion P; subst. unfold endpoint. simpl. split.
    + intros [[->| ->]|(e' & [] & _)]; auto.
    + intros [<-|[<-|[]]]; auto.
  - rewrite IH by discriminate. simpl. split.
    + intros [[->| ->]|[<-|H]]; auto.
    + intros [<-|[<-|H]]; auto.
Qed.

Lemma simple_path_alias_count : forall es,
  simple_path es -> alias_count es = S (List.length es).
Proof.
  intros es (Hne & vs & ps & ND & P & Hperm). unfold alias_count.
  rewrite <- (Permutation_length Hperm), <- (path_length vs ps P).
  apply Permutation_length, NoDup_Permutation;
    [apply dedup_NoDup, String.eqb_spec|exact ND|].
  intro x. rewrite dedup_In by apply String.eqb_spec.
  rewrite aliases_in_comp_In, <- (path_endpoints vs ps x P).
  - unfold endpoint. split; intros (e & He & H); exists e; split; auto.
    + now apply (Permutation_in e (Permutation_sym Hperm)).
    + now apply (Permutation_in e Hperm).
  - intros ->. apply Permutation_nil in Hperm. contradiction.
Qed.

Lemma simple_path_start : forall es preferred,
  simple_path es -> exists start, choose_start es preferred = StartAlias start.
Proof.
  intros es preferred (Hne & vs & ps & ND & P & Hperm). unfold choose_start.
  assert (F : exists alias d,
             find (fun kd : string * nat => Nat.eqb (snd kd) 1) (degree_of es)
             = Some (alias, d)).
  { destruct P as [v|u v vs e ps J P].
    - apply Permutation_nil in Hperm. contradiction.
    - apply (degree_one_found es u).
      rewrite <- (occ_perm u _ _ Hperm).
      apply (path_head_occ u (v :: vs) e ps); [now constructor|exact ND]. }
  destruct F as (alias & d & ->).
  destruct preferred as [p|]; [|eauto].
  destruct (mem_str p (aliases_in_comp es)); eauto.
Qed.

(** C4: for a component whose relationships form a simple path, the
    chain builder returns a pattern; its arrow tokens are one fewer than
    the distinct node aliases of the component; each arrow carries the
    type of the relationship it stands for; and the arrows stand for
    the relationships of the component, every one exactly once. *)
Theorem simple_path_uses_every_edge_once :
  forall (rel_pairs : list rel_pair) (comp_idxs : list nat)
         (node_lookup : Dict.t Node.t) (preferred_start : option string)
         (comp_edges : list rel_pair),
    comp_edges_of rel_pairs comp_idxs = Ok comp_edges ->
    simple_path comp_edges ->
    exists toks,
      chain_tokens rel_pairs comp_idxs node_lookup preferred_start = Ok toks
      /\ _chain_component rel_pairs comp_idxs node_lookup preferred_start
         = Ok (render toks)
      /\ List.length (arrows toks) = alias_count comp_edges - 1
      /\ Forall (renders comp_edges) toks
      /\ Permutation (arrows toks) (seq 0 (List.length comp_edges)).
Proof.
  intros rel_pairs comp_idxs lookup preferred es Hes Hpath.
  destruct (simple_path_start es preferred Hpath) as [start Hstart].
  destruct (chain_tokens_from_alias rel_pairs comp_idxs lookup preferred es
              start Hes Hstart) as (toks & Htoks & Hren & Hperm).
  exists toks. split; [exact Htoks|].
  split; [unfold _chain_component; now rewrite Htoks|].
  split; [|split; [exact Hren|exact Hperm]].
  rewrite (Permutation_length Hperm), length_seq.
  rewrite (simple_path_alias_count es Hpath). lia.
Qed.

Lemma simple_path_uses_every_edge_once_witness :
  _chain_component fork_rels [0; 1] abc_lookup None
  = Ok "(c:C)<-[:S]-(b:B)-[:R]->(a:A)".
Proof.
  destruct (simple_path_uses_every_edge_once fork_rels [0; 1] abc_lookup None
              fork_rels eq_refl) as (toks & Htoks & Hc & _).
  - split; [discriminate|].
    exists ["c"; "b"; "a"], fork_rels. split; [|split].
    + repeat constructor; simpl; intuition discriminate.
    + apply path_step; [right; split; reflexivity|].
      apply path_step; [left; split; reflexivity|]. apply path_end.
    + apply Permutation_refl.
  - vm_compute in Htoks. injection Htoks as <-. exact Hc.
Defined.

(** ** The pattern assembler on the scenarios of the specification *)

Lemma iter_nat_nil : forall (O : SetOrder), iter_nat [] = [].
Proof.
  intro O. destruct (iter_nat []) as [|x l] eqn:E; [reflexivity|].
  assert (H : In x (iter_nat [])) by (rewrite E; now left).
  destruct (proj1 (iter_nat_In [] x) H).
Qed.

Lemma iter_str_pair : forall (O : SetOrder) a b,
  a <> b -> iter_str [a; b] = [a; b] \/ iter_str [a; b] = [b; a].
Proof.
  intros O a b N.
  assert (P : Permutation (iter_str [a; b]) [a; b]).
  { apply NoDup_Permutation; [apply iter_str_NoDup| |apply iter_str_In].
    repeat constructor; simpl; intuition. }
  apply Permutation_sym, Permutation_length_2_inv in P. tauto.
Qed.

(** A single relationship is a component of its own. *)
Lemma components_single : forall (O : SetOrder) p,
  _connected_components_on_rels [p] = [[0]].
Proof.
  intros O p. unfold _connected_components_on_rels, components_fuel.
  simpl. rewrite iter_nat_nil. reflexivity.
Qed.

Lemma attachment_patterns : forall (O : SetOrder) ret where_,
  build_optimal_patterns (new_builder [nA; nB; nC] attachment_rels ret where_)
  = Ok ["MATCH (a:A)-[:R]->(b:B), (c:C)";
        "OPTIONAL MATCH (b:B)-[:S]->(c:C)"].
Proof.
  intros O ret where_.
  destruct (iter_str_pair O "b" "c") as [E|E]; [discriminate| |];
    unfold build_optimal_patterns, required_part, _build_single_match_clause,
      _build_optional_match_components;
    cbv -[_connected_components_on_rels iter_str];
    rewrite !components_single, E; reflexivity.
Qed.

(** C3, as stated, fails: the required match line of the scenario is not
    the bare chain from [a] to [b]. *)
Lemma attachment_match_line_is_not_the_bare_chain :
  ~ exists (O : SetOrder) ret where_,
      build_optimal_patterns
        (new_builder [nA; nB; nC] attachment_rels ret where_)
      = Ok ["MATCH (a:A)-[:R]->(b:B)"; "OPTIONAL MATCH (b:B)-[:S]->(c:C)"].
Proof.
  intros (O & ret & where_ & H). rewrite attachment_patterns in H.
  discriminate.
Qed.

(** C3 (amended): for nodes [a:A], [b:B], [c:C], a mandatory [(a,b,R)]
    and an optional [(b,c,S)], optimized compilation produces exactly two
    pattern lines: the required match line, which chains [a] to [b] and
    then lists [c], untouched by the mandatory relationship, as a
    standalone node; and the optional match line, whose chain starts at
    the bound alias [b]. *)
Theorem attachment_lines :
  forall (O : SetOrder) (ret : ReturnClause.t) (where_ : option WhereClause.t),
    build_optimal_patterns (new_builder [nA; nB; nC] attachment_rels ret where_)
    = Ok ["MATCH (a:A)-[:R]->(b:B), (c:C)";
          "OPTIONAL MATCH (b:B)-[:S]->(c:C)"]
    /\ build_advanced_match_clause [nA; nB; nC] attachment_rels ret where_
       = Ok (PyStr.join PyStr.nl
               ["MATCH (a:A)-[:R]->(b:B), (c:C)";
                "OPTIONAL MATCH (b:B)-[:S]->(c:C)"]).
Proof.
  intros O ret where_. split; [apply attachment_patterns|].
  unfold build_advanced_match_clause, attachment_rels.
  fold attachment_rels. now rewrite attachment_patterns.
Qed.

Lemma match_section_no_relationships : forall (O : SetOrder) q,
  CypherQuery.relationships q = [] ->
  match_section q true
  = Ok match CypherQuery.nodes q with
       | [] => ""
       | _ :: _ => "MATCH " ++ PyStr.join ", "
                                 (map node_pattern (CypherQuery.nodes q))
       end.
Proof.
  intros O q H. unfold match_section, build_advanced_match_clause.
  rewrite H. destruct (CypherQuery.nodes q); reflexivity.
Qed.

(** C1, as stated, fails: the anchor scenario does not get its
    property inlined. *)
Lemma anchor_scenario_is_not_inlined :
  ~ exists O : SetOrder,
      match_section anchor_request true = Ok "MATCH (a:Label {name: 'X'})".
Proof.
  intros (O & H).
  rewrite (match_section_no_relationships O anchor_request eq_refl) in H.
  discriminate.
Qed.

(** C1 (amended): for a request with no relationships and at least one
    node, optimized compilation emits one match line that lists every
    declared node as [(alias:Label)], comma-joined, whatever the filter
    clause says: no property is inlined. *)
Theorem no_relationships_lists_the_nodes :
  forall (O : SetOrder) (q : CypherQuery.t),
    CypherQuery.relationships q = [] ->
    CypherQuery.nodes q <> [] ->
    match_section q true
    = Ok ("MATCH " ++ PyStr.join ", " (map node_pattern (CypherQuery.nodes q)))
    /\ (forall text,
          compile q true = Ok text ->
          exists rest,
            text = PyStr.join PyStr.nl
                     (("MATCH " ++ PyStr.join ", "
                                     (map node_pattern (CypherQuery.nodes q)))
                        :: rest)).
Proof.
  intros O q Hr Hn.
  assert (Hm : match_section q true
               = Ok ("MATCH " ++ PyStr.join ", "
                                   (map node_pattern (CypherQuery.nodes q)))).
  { rewrite (match_section_no_relationships O q Hr).
    destruct (CypherQuery.nodes q); [contradiction|reflexivity]. }
  split; [exact Hm|].
  intros text Hc.
  destruct (compile_Ok O q true text Hc) as (_ & m & Hm' & ->).
  rewrite Hm in Hm'. injection Hm' as <-.
  eexists. unfold clauses_in_order, match_part. simpl. reflexivity.
Qed.

Lemma no_relationships_lists_the_nodes_witness :
  match_section (O := insertion_order) anchor_request true
  = Ok "MATCH (a:Label)".
Proof.
  refine (proj1 (no_relationships_lists_the_nodes insertion_order
                   anchor_request eq_refl _)).
  discriminate.
Defined.

(** Where the inlining does happen: with relationships that are all
    optional, the pattern builder anchors the match at the alias of the
    equality conditions. *)
Lemma anchor_is_inlined_before_optional_relationships :
  forall (O : SetOrder) (ret : ReturnClause.t),
    build_optimal_patterns
      (new_builder [Node.mk "Label" "a"; nB]
                   [Relationship.mk "a" "b" "S" (Some true)]
                   ret (Some anchor_filter))
    = Ok ["MATCH (a:Label {name: 'X'})";
          "OPTIONAL MATCH (a:Label)-[:S]->(b:B)"].
Proof.
  intros O ret.
  destruct (iter_str_pair O "a" "b") as [E|E]; [discriminate| |];
    unfold build_optimal_patterns, anchor_part, _extract_anchor_from_where,
      _build_optional_match_components;
    cbv -[_connected_components_on_rels iter_str];
    rewrite !components_single, E; reflexivity.
Qed.

(* ================================================================= *)
(** * Further properties *)

(** ** Validation, over whole lists *)

Lemma for_each_Ok : forall (A : Type) (body : A -> result unit) l,
  for_each body l = Ok tt <-> forall x, In x l -> body x = Ok tt.
Proof.
  induction l as [|a l IH]; simpl.
  - split; [intros _ x []|reflexivity].
  - destruct (body a) as [[]|e] eqn:E; simpl.
    + rewrite IH. split.
      * intros H x [<-|Hx]; auto.
      * intros H x Hx. apply H. now right.
    + split; [discriminate|]. intro H.
      specialize (H a (or_introl eq_refl)). congruence.
Qed.

Lemma for_each_first : forall (A : Type) (body : A -> result unit)
    pre x post e,
  (forall y, In y pre -> body y = Ok tt) -> body x = Raise e ->
  for_each body (pre ++ x :: post) = Raise e.
Proof.
  induction pre as [|a pre IH]; simpl; intros x post e Hpre Hx.
  - now rewrite Hx.
  - rewrite (Hpre a (or_introl eq_refl)). simpl. apply IH; auto.
Qed.

Lemma validate_aliases_body : forall nodes rel,
  (if negb (mem_str (Relationship.node1 rel) (node_aliases nodes))
   then Raise (ValueError ("Relationship node1 alias '"
                           ++ Relationship.node1 rel
                           ++ "' not found in nodes."))
   else if negb (mem_str (Relationship.node2 rel) (node_aliases nodes))
        then Raise (ValueError ("Relationship node2 alias '"
                                ++ Relationship.node2 rel
                                ++ "' not found in nodes."))
        else Ok tt)
  = if endpoints_declared nodes rel then Ok tt
    else Raise (endpoint_error nodes rel).
Proof.
  intros nodes rel. unfold endpoints_declared, endpoint_error.
  destruct (mem_str (Relationship.node1 rel) (node_aliases nodes));
    destruct (mem_str (Relationship.node2 rel) (node_aliases nodes));
    reflexivity.
Qed.

(** X1: [validate_aliases] accepts a request exactly when both
    endpoints of every relationship are declared aliases. *)
Theorem validate_aliases_accepts_iff_declared :
  forall (nodes : list Node.t) (relationships : list Relationship.t),
    validate_aliases nodes relationships = Ok tt
    <-> forall rel, In rel relationships ->
                    mem_str (Relationship.node1 rel) (node_aliases nodes) = true
                    /\ mem_str (Relationship.node2 rel) (node_aliases nodes)
                       = true.
Proof.
  intros nodes rels. unfold validate_aliases. rewrite for_each_Ok.
  split; intros H rel Hin; specialize (H rel Hin).
  - rewrite validate_aliases_body in H. unfold endpoints_declared in H.
    destruct (mem_str (Relationship.node1 rel) (node_aliases nodes));
      destruct (mem_str (Relationship.node2 rel) (node_aliases nodes));
      simpl in H; try discriminate; auto.
  - rewrite validate_aliases_body. unfold endpoints_declared.
    destruct H as [-> ->]. reflexivity.
Qed.

(** X2: [validate_aliases] stops at the first relationship with an
    undeclared endpoint and reports its [node1] when that is missing,
    its [node2] otherwise; what follows in the list is not looked at. *)
Theorem validate_aliases_reports_the_first_dangling :
  forall (nodes : list Node.t) (pre post : list Relationship.t)
         (rel : Relationship.t),
    (forall r, In r pre -> endpoints_declared nodes r = true) ->
    endpoints_declared nodes rel = false ->
    validate_aliases nodes (pre ++ rel :: post)
    = Raise (endpoint_error nodes rel).
Proof.
  intros nodes pre post rel Hpre Hrel. unfold validate_aliases.
  apply for_each_first.
  - intros r Hr. rewrite validate_aliases_body. now rewrite (Hpre r Hr).
  - rewrite validate_aliases_body. now rewrite Hrel.
Qed.

Lemma validate_aliases_reports_the_first_dangling_witness :
  validate_aliases [Node.mk "A" "a"]
    [Relationship.mk "a" "a" "R" None; Relationship.mk "a" "y" "S" None;
     Relationship.mk "x" "a" "T" None]
  = Raise (ValueError "Relationship node2 alias 'y' not found in nodes.").
Proof.
  apply (validate_aliases_reports_the_first_dangling [Node.mk "A" "a"]
           [Relationship.mk "a" "a" "R" None]
           [Relationship.mk "x" "a" "T" None]
           (Relationship.mk "a" "y" "S" None)).
  - intros r [<-|[]]. reflexivity.
  - reflexivity.
Defined.

Lemma validate_field_syntax_body : forall field,
  (if PyStr.contains_char PyStr.space field
      && negb (Re.match_to_end Re.backticked field)
   then Raise (ValueError ("Field '" ++ field
                           ++ "' contains spaces and is not backticked."))
   else Ok tt)
  = if field_ok field then Ok tt else Raise (field_error field).
Proof.
  intro field. unfold field_ok, field_error.
  destruct (PyStr.contains_char PyStr.space field);
    destruct (Re.match_to_end Re.backticked field); reflexivity.
Qed.

(** X3: [validate_field_syntax] accepts a list of fields exactly when
    every field is without a space or matches the backtick pattern; it
    raises for the first field that does neither, naming it. *)
Theorem validate_field_syntax_checks_every_field :
  forall fields : list string,
    (validate_field_syntax fields = Ok tt
     <-> forall f, In f fields -> field_ok f = true)
    /\ (forall pre f post,
          fields = (pre ++ f :: post)%list ->
          (forall g, In g pre -> field_ok g = true) ->
          field_ok f = false ->
          validate_field_syntax fields = Raise (field_error f)).
Proof.
  intro fields. unfold validate_field_syntax. split.
  - rewrite for_each_Ok. split; intros H f Hf; specialize (H f Hf).
    + rewrite validate_field_syntax_body in H.
      destruct (field_ok f); [reflexivity|discriminate].
    + rewrite validate_field_syntax_body. now rewrite H.
  - intros pre f post -> Hpre Hf. apply for_each_first.
    + intros g Hg. rewrite validate_field_syntax_body. now rewrite (Hpre g Hg).
    + rewrite validate_field_syntax_body. now rewrite Hf.
Qed.

Lemma validate_field_syntax_checks_every_field_witness :
  validate_field_syntax ["a.name"; "`first name`"; "last name"; "bad one"]
  = Raise (field_error "last name").
Proof.
  apply (proj2 (validate_field_syntax_checks_every_field
                  ["a.name"; "`first name`"; "last name"; "bad one"])
           ["a.name"; "`first name`"] "last name" ["bad one"] eq_refl).
  - intros g [<-|[<-|[]]]; reflexivity.
  - reflexivity.
Defined.

(** X4: validating the conditions of a filter is validating the list of
    their fields: operators and values are never looked at. *)
Theorem validate_conditions_is_field_syntax_of_fields :
  forall conditions : list Condition.t,
    validate_conditions conditions
    = validate_field_syntax (map Condition.field conditions).
Proof.
  intro conds.
  assert (G : forall (body : string -> result unit) l,
            for_each (fun c : Condition.t =>
                        bind (body (Condition.field c)) (fun _ => Ok tt)) l
            = for_each body (map Condition.field l)).
  { intros body l. induction l as [|c l IH]; simpl; [reflexivity|].
    rewrite IH. destruct (body (Condition.field c)) as [[]|e]; reflexivity. }
  unfold validate_conditions, validate_field_syntax. rewrite <- G.
  reflexivity.
Qed.

(** ** The node lookup *)

Lemma find_last_snoc : forall (A : Type) (p : A -> bool) l x,
  find_last p (l ++ [x]) = if p x then Some x else find_last p l.
Proof.
  intros A p l x. unfold find_last. rewrite rev_app_distr. reflexivity.
Qed.

Lemma find_last_cons : forall (A : Type) (p : A -> bool) x l,
  find_last p (x :: l)
  = match find_last p l with Some y => Some y | None => if p x then Some x else None end.
Proof.
  intros A p x l. unfold find_last. simpl.
  induction (rev l) as [|y r IH]; simpl; [destruct (p x); reflexivity|].
  destruct (p y); [reflexivity|exact IH].
Qed.

Lemma node_lookup_get : forall nodes alias,
  Dict.get alias (node_lookup_of nodes)
  = find_last (fun n => String.eqb alias (Node.alias n)) nodes.
Proof.
  intros nodes alias. unfold node_lookup_of.
  assert (G : forall d,
            Dict.get alias (fold_left (fun d n => Dict.set (Node.alias n) n d)
                                      nodes d)
            = match find_last (fun n => String.eqb alias (Node.alias n)) nodes with
              | Some n => Some n
              | None => Dict.get alias d
              end).
  { induction nodes as [|n nodes IH]; intro d; simpl; [reflexivity|].
    rewrite IH, find_last_cons, Dict_get_set.
    destruct (find_last (fun n0 => String.eqb alias (Node.alias n0)) nodes);
      [reflexivity|].
    destruct (String.eqb alias (Node.alias n)); reflexivity. }
  rewrite G. simpl.
  destruct (find_last (fun n => String.eqb alias (Node.alias n)) nodes);
    reflexivity.
Qed.

Lemma find_last_Some : forall (A : Type) (p : A -> bool) l x,
  find_last p l = Some x -> In x l /\ p x = true.
Proof.
  intros A p l x H. unfold find_last in H. apply find_some in H.
  destruct H as [H1 H2]. split; [now apply in_rev|exact H2].
Qed.

Lemma find_last_None : forall (A : Type) (p : A -> bool) l,
  find_last p l = None -> forall x, In x l -> p x = false.
Proof.
  intros A p l H x Hx. unfold find_last in H.
  apply (find_none _ _ H). now apply in_rev in Hx.
Qed.

(** X5: the lookup built from the nodes maps an alias to the last node
    that declares it; [_fmt_node] renders a declared alias with that
    node's label and an undeclared alias without a label. *)
Theorem fmt_node_uses_the_last_declaration :
  forall (nodes : list Node.t) (alias : string),
    Dict.get alias (node_lookup_of nodes)
    = find_last (fun n => String.eqb alias (Node.alias n)) nodes
    /\ Dict.mem alias (node_lookup_of nodes)
       = mem_str alias (node_aliases nodes)
    /\ _fmt_node alias (node_lookup_of nodes)
       = match find_last (fun n => String.eqb alias (Node.alias n)) nodes with
         | Some n => "(" ++ alias ++ ":" ++ Node.label n ++ ")"
         | None => "(" ++ alias ++ ")"
         end.
Proof.
  intros nodes alias. split; [apply node_lookup_get|]. split.
  - unfold Dict.mem. rewrite node_lookup_get.
    destruct (find_last (fun n => String.eqb alias (Node.alias n)) nodes)
      as [n|] eqn:E.
    + apply find_last_Some in E as [Hin Hp]. symmetry. apply mem_str_In.
      apply String.eqb_eq in Hp. subst alias.
      unfold node_aliases. now apply in_map.
    + destruct (mem_str alias (node_aliases nodes)) eqn:M; [|reflexivity].
      apply mem_str_In in M. unfold node_aliases in M.
      apply in_map_iff in M as (n & <- & Hin).
      pose proof (find_last_None _ _ _ E n Hin) as F. simpl in F.
      rewrite String.eqb_refl in F. discriminate.
  - unfold _fmt_node. now rewrite node_lookup_get.
Qed.

(** ** Components are connected, and come by their lowest index *)

Lemma connected_sym : forall rels i j, connected rels i j -> connected rels j i.
Proof.
  intros rels i j H. induction H as [i j H|i|i k j _ IH1 _ IH2].
  - apply rt_step. now apply adjacent_sym.
  - apply rt_refl.
  - now apply rt_trans with k.
Qed.

Lemma bfs_reaches : forall (O : SetOrder) rels fuel dq seen comp comp' seen',
  bfs fuel (build_adj rels) dq seen comp = Some (comp', seen') ->
  forall v, In v comp' ->
            In v comp \/ exists u, In u dq /\ connected rels u v.
Proof.
  intros O rels. induction fuel as [|fuel IH]; intros dq seen comp comp' seen' H v Hv.
  - destruct dq; simpl in H; [|discriminate]. injection H as <- _. now left.
  - destruct dq as [|u dq]; simpl in H; [injection H as <- _; now left|].
    destruct (visit_fold (iter_nat (adj_get u (build_adj rels))) seen dq)
      as (news & E & _ & Hn).
    rewrite E in H. simpl in H.
    destruct (IH _ _ _ _ _ H v Hv) as [Hc|(w & Hw & Hwv)].
    + apply in_app_or in Hc as [Hc|[<-|[]]]; [now left|].
      right. exists u. split; [now left|apply rt_refl].
    + apply in_app_or in Hw as [Hw|Hw].
      * right. exists w. split; [now right|exact Hwv].
      * right. exists u. split; [now left|].
        apply rt_trans with w; [|exact Hwv]. apply rt_step.
        apply Hn in Hw as [Hw _].
        now apply iter_nat_In, build_adj_spec in Hw.
Qed.

Lemma components_loop_rooted : forall (O : SetOrder) rels fuel todo seen comps comps',
  components_loop fuel (build_adj rels) todo seen comps = Some comps' ->
  Forall (rooted rels) comps -> Forall (rooted rels) comps'.
Proof.
  intros O rels fuel. induction todo as [|i todo IH];
    intros seen comps comps' H Hr; simpl in H.
  - injection H as <-. exact Hr.
  - destruct (mem_nat i seen); [eapply IH; eauto|].
    destruct (bfs fuel (build_adj rels) [i] (i :: seen) [])
      as [[comp seen']|] eqn:E; [|discriminate].
    apply (IH _ _ _ H). apply Forall_app. split; [exact Hr|].
    constructor; [|constructor]. exists i. intros v Hv.
    destruct (bfs_reaches O rels _ _ _ _ _ _ E v Hv) as [[]|(u & [<-|[]] & Hu)].
    exact Hu.
Qed.

(** X6: relationships that the connectivity analyzer puts in one
    component are linked by a chain of shared endpoint aliases: a
    component never merges unrelated relationships. *)
Theorem same_component_only_if_connected :
  forall (O : SetOrder) (rel_pairs : list rel_pair) (comp : list nat)
         (i j : nat),
    In comp (_connected_components_on_rels rel_pairs) ->
    In i comp -> In j comp ->
    connected rel_pairs i j.
Proof.
  intros O rels comp i j Hcomp Hi Hj.
  assert (R : Forall (rooted rels) (_connected_components_on_rels rels)).
  { pose proof (components_fuel_total O rels) as T. unfold components_fuel in T.
    apply (components_loop_rooted O rels _ _ _ _ _ T). constructor. }
  rewrite Forall_forall in R. destruct (R comp Hcomp) as [r Hr].
  apply rt_trans with r; [apply connected_sym|]; now apply Hr.
Qed.

Lemma same_component_only_if_connected_witness :
  connected three_rels 2 0.
Proof.
  apply (same_component_only_if_connected insertion_order three_rels [0; 2]).
  - left. reflexivity.
  - right. left. reflexivity.
  - left. reflexivity.
Defined.

Lemma StronglySorted_snoc : forall l x,
  StronglySorted lt l -> Forall (fun y => y < x) l ->
  StronglySorted lt (l ++ [x]).
Proof.
  induction l as [|a l IH]; intros x Hs Hx; simpl.
  - repeat constructor.
  - inversion Hs; subst. inversion Hx; subst.
    constructor; [now apply IH|].
    apply Forall_app. split; [assumption|]. repeat constructor. assumption.
Qed.

Lemma components_loop_order : forall (O : SetOrder) rels k s seen comps,
  s + k = List.length rels ->
  indices rels seen ->
  (forall v, v < s -> In v seen) ->
  Forall head_is_least comps ->
  StronglySorted lt (map (hd 0) comps) ->
  Forall (fun c => hd 0 c < s) comps ->
  exists comps',
    components_loop (List.length rels) (build_adj rels) (seq s k) seen comps
    = Some comps'
    /\ Forall head_is_least comps'
    /\ StronglySorted lt (map (hd 0) comps').
Proof.
  intros O rels. induction k as [|k IH];
    intros s seen comps Hsk Hi Hlow Hh Hs Hb; simpl.
  - exists comps. auto.
  - assert (Hb' : Forall (fun c => hd 0 c < S s) comps).
    { eapply Forall_impl; [|exact Hb]. simpl. intros; lia. }
    destruct (mem_nat s seen) eqn:E.
    + apply mem_nat_In in E. apply IH; auto; [lia|].
      intros v Hv. destruct (Nat.eq_dec v s) as [->|N]; [exact E|].
      apply Hlow. lia.
    + apply mem_nat_false in E.
      assert (Hi1 : indices rels (s :: seen)).
      { destruct Hi as [ND Hlt]. split; [now constructor|].
        intros v [<-|Hv]; [lia|auto]. }
      pose proof (indices_length _ _ Hi1) as Hl. simpl in Hl.
      destruct (bfs_spec rels (List.length rels) [s] (s :: seen) [] Hi1)
        as (added & -> & Hi' & _); [simpl; lia|].
      cbn [app].
      assert (Hgt : forall v, In v added -> s < v).
      { intros v Hv. destruct Hi' as [ND _].
        pose proof (NoDup_app_disjoint _ _ _ ND v Hv) as D.
        destruct (Nat.lt_trichotomy v s) as [L|[L|G]];
          [exfalso; apply D; right; now apply Hlow
          |exfalso; subst v; apply D; now left
          |exact G]. }
      apply IH; auto; try lia.
      * intros v Hv. apply in_or_app. right.
        destruct (Nat.eq_dec v s) as [->|N]; [now left|].
        right. apply Hlow. lia.
      * apply Forall_app. split; [exact Hh|]. repeat constructor. simpl.
        apply Forall_forall. intros v Hv. apply Hgt. now apply in_rev.
      * rewrite map_app. simpl. apply StronglySorted_snoc; [exact Hs|].
        apply Forall_forall. intros y Hy. apply in_map_iff in Hy as (c & <- & Hc).
        rewrite Forall_forall in Hb. now apply Hb.
      * apply Forall_app. split; [exact Hb'|].
        constructor; [simpl; lia|constructor].
Qed.

(** X7: every component the connectivity analyzer returns starts with
    its lowest relationship index, and the components come in the
    ascending order of these indices (the order in which the match line
    lists them). *)
Theorem components_come_by_lowest_index :
  forall (O : SetOrder) (rel_pairs : list rel_pair),
    Forall head_is_least (_connected_components_on_rels rel_pairs)
    /\ StronglySorted lt (map (hd 0) (_connected_components_on_rels rel_pairs)).
Proof.
  intros O rels.
  destruct (components_loop_order O rels (List.length rels) 0 [] [])
    as (comps & H & Hh & Hs); try (now constructor); try reflexivity.
  - split; [constructor|intros v []].
  - intros v Hv. lia.
  - unfold _connected_components_on_rels, components_fuel. now rewrite H.
Qed.

(** ** The chain builder on any component *)

Lemma Dict_set_In : forall (V : Type) k (v : V) d k' v',
  In (k', v') (Dict.set k v d) -> (k' = k /\ v' = v) \/ In (k', v') d.
Proof.
  induction d as [|[k0 v0] d IH]; simpl; intros k' v' H.
  - destruct H as [H|[]]. injection H as <- <-. auto.
  - destruct (String.eqb_spec k k0) as [<-|N]; simpl in H.
    + destruct H as [H|H]; [injection H as <- <-; auto|auto].
    + destruct H as [H|H]; [auto|]. apply IH in H. tauto.
Qed.

Lemma Dict_set_keys : forall (V : Type) k (v : V) d,
  NoDup (Dict.keys d) -> NoDup (Dict.keys (Dict.set k v d)).
Proof.
  unfold Dict.keys. induction d as [|[k0 v0] d IH]; simpl; intro ND.
  - repeat constructor. intros [].
  - inversion ND as [|? ? Hk ND']; subst.
    destruct (String.eqb_spec k k0) as [<-|N]; simpl; [now constructor|].
    constructor; [|auto].
    intro H. apply in_map_iff in H as ([k1 v1] & E & H). simpl in E. subst k1.
    apply Dict_set_In in H as [[E _]|H]; [congruence|].
    apply Hk. apply in_map_iff. exists (k0, v1). auto.
Qed.

Lemma Dict_In_get : forall (V : Type) k (v : V) d,
  NoDup (Dict.keys d) -> In (k, v) d -> Dict.get k d = Some v.
Proof.
  unfold Dict.keys. induction d as [|[k0 v0] d IH]; simpl; intros ND H; [contradiction|].
  inversion ND as [|? ? Hk ND']; subst.
  destruct H as [H|H].
  - injection H as -> ->. now rewrite String.eqb_refl.
  - destruct (String.eqb_spec k k0) as [->|N]; [|auto].
    exfalso. apply Hk. apply in_map_iff. exists (k0, v). auto.
Qed.

Lemma degree_of_keys : forall es, NoDup (Dict.keys (degree_of es)).
Proof.
  intro es. unfold degree_of.
  apply (fold_left_preserves _ _ _ (fun d => NoDup (Dict.keys d))).
  - constructor.
  - intros d [[a b] rt] _ H. unfold incr. now apply Dict_set_keys, Dict_set_keys.
Qed.

Lemma degree_of_In : forall es x d,
  In (x, d) (degree_of es) <-> d = occ x es /\ 1 <= d.
Proof.
  intros es x d. split.
  - intro H. apply Dict_In_get in H; [|apply degree_of_keys].
    pose proof (degree_of_occ es x) as G. unfold getn in G. rewrite H in G.
    split; [exact G|].
    revert H. unfold degree_of.
    apply (fold_left_preserves _ _ _
             (fun dict => Dict.get x dict = Some d -> 1 <= d)).
    + discriminate.
    + intros dict [[a b] rt] _ IH.
      assert (Step : forall dict' k,
                (Dict.get x dict' = Some d -> 1 <= d) ->
                Dict.get x (incr k dict') = Some d -> 1 <= d).
      { intros dict' k IH'. unfold incr. rewrite Dict_get_set.
        destruct (String.eqb_spec x k) as [->|N]; [|exact IH'].
        intro E. injection E as <-. destruct (Dict.get k dict'); lia. }
      apply Step, Step, IH.
  - intros [-> Hd]. apply Dict_get_In.
    pose proof (degree_of_occ es x) as G. unfold getn in G.
    destruct (Dict.get x (degree_of es)) as [n|]; [now subst|lia].
Qed.

Lemma choose_start_spec : forall es preferred,
  (exists s, choose_start es preferred = StartAlias s /\ has_start es preferred)
  \/ (choose_start es preferred = StartEdges es /\ ~ has_start es preferred).
Proof.
  intros es preferred. unfold choose_start, has_start.
  assert (P : match preferred with
              | Some p => mem_str p (aliases_in_comp es)
              | None => false
              end = true
              <-> exists p, preferred = Some p /\ endpoint p es).
  { destruct preferred as [p|].
    - rewrite mem_str_In, aliases_in_comp_In. split; [eauto|].
      intros (q & E & H). now injection E as ->.
    - split; [discriminate|]. intros (q & E & _). discriminate. }
  destruct (find (fun kd : string * nat => Nat.eqb (snd kd) 1) (degree_of es))
    as [[alias d]|] eqn:F.
  - left. apply find_some in F as [Hin Hd]. simpl in Hd.
    apply Nat.eqb_eq in Hd. subst d. apply degree_of_In in Hin as [Hocc _].
    destruct preferred as [p|]; [destruct (mem_str p (aliases_in_comp es))|];
      eexists; (split; [reflexivity|]); right; eauto.
  - destruct preferred as [p|].
    + destruct (mem_str p (aliases_in_comp es)) eqn:M.
      * left. exists p. split; [reflexivity|]. left. now apply P.
      * right. split; [reflexivity|]. intros [H|[x Hx]].
        -- apply P in H. discriminate.
        -- assert (Hin : In (x, 1) (degree_of es)) by (apply degree_of_In; lia).
           apply (find_none _ _ F) in Hin. discriminate.
    + right. split; [reflexivity|]. intros [H|[x Hx]].
      * apply P in H. discriminate.
      * assert (Hin : In (x, 1) (degree_of es)) by (apply degree_of_In; lia).
        apply (find_none _ _ F) in Hin. discriminate.
Qed.

(** X8: for the relationships of any component, the chain builder
    returns a pattern exactly when it finds an alias to start from (the
    preferred start is an endpoint of the component, or some alias has
    degree 1), and raises [TypeError] otherwise; the pattern it returns
    has one arrow for every relationship of the component, each of the
    right type. *)
Theorem chain_component_needs_a_start :
  forall (rel_pairs : list rel_pair) (comp_idxs : list nat)
         (node_lookup : Dict.t Node.t) (preferred_start : option string)
         (comp_edges : list rel_pair),
    comp_edges_of rel_pairs comp_idxs = Ok comp_edges ->
    (has_start comp_edges preferred_start ->
     exists toks,
       _chain_component rel_pairs comp_idxs node_lookup preferred_start
       = Ok (render toks)
       /\ Forall (renders comp_edges) toks
       /\ Permutation (arrows toks) (seq 0 (List.length comp_edges)))
    /\ (~ has_start comp_edges preferred_start ->
        _chain_component rel_pairs comp_idxs node_lookup preferred_start
        = Raise (TypeError "unhashable type: 'list'"))
    /\ ((exists text,
           _chain_component rel_pairs comp_idxs node_lookup preferred_start
           = Ok text)
        <-> has_start comp_edges preferred_start).
Proof.
  intros rel_pairs comp_idxs lookup preferred es Hes.
  destruct (choose_start_spec es preferred) as [(s & Hs & Hh)|[Hs Hn]].
  - destruct (chain_tokens_from_alias rel_pairs comp_idxs lookup preferred es s
                Hes Hs) as (toks & Ht & Hr & Hp).
    assert (E : _chain_component rel_pairs comp_idxs lookup preferred
                = Ok (render toks)).
    { unfold _chain_component. now rewrite Ht. }
    split; [intros _; eauto|]. split; [contradiction|].
    split; [auto|eauto].
  - assert (E : _chain_component rel_pairs comp_idxs lookup preferred
                = Raise (TypeError "unhashable type: 'list'")).
    { unfold _chain_component, chain_tokens. rewrite Hes. simpl. now rewrite Hs. }
    split; [contradiction|]. split; [auto|].
    split; [|contradiction]. intros [text H]. congruence.
Qed.

Lemma chain_component_needs_a_start_witness :
  exists text,
    _chain_component [("a", "b", "R"); ("a", "c", "S"); ("a", "d", "T")]
                     [0; 1; 2] abc_lookup None
    = Ok text.
Proof.
  apply (proj2 (proj2 (chain_component_needs_a_start
                         [("a", "b", "R"); ("a", "c", "S"); ("a", "d", "T")]
                         [0; 1; 2] abc_lookup None
                         [("a", "b", "R"); ("a", "c", "S"); ("a", "d", "T")]
                         eq_refl))).
  right. exists "b". reflexivity.
Defined.

(** ** Arrows point the right way *)

Lemma first_unused_In : forall used eis ei,
  first_unused used eis = Ok (Some ei) -> In ei eis.
Proof.
  induction eis as [|e eis IH]; simpl; intros ei H; [discriminate|].
  destruct (nth_error used e) as [[|]|]; [right; auto| |discriminate].
  injection H as <-. now left.
Qed.

Lemma alias_adj_incident : forall es x ei,
  In ei (alias_adj_get x (alias_adj_of es)) ->
  exists a b rt, nth_error es ei = Some (a, b, rt) /\ (a = x \/ b = x).
Proof.
  intros es x ei. unfold alias_adj_get.
  assert (G : forall l, Dict.get x (alias_adj_of es) = Some l ->
              forall ei, In ei l ->
              exists a b rt, nth_error es ei = Some (a, b, rt) /\ (a = x \/ b = x)).
  { unfold alias_adj_of.
    apply (fold_left_preserves _ _ _
             (fun d => forall l, Dict.get x d = Some l ->
                forall ei, In ei l ->
                exists a b rt, nth_error es ei = Some (a, b, rt)
                               /\ (a = x \/ b = x))).
    - discriminate.
    - intros d [idx [[a b] rt]] Hin Hd.
      apply In_enumerate in Hin.
      assert (Step : forall d' key,
                key = a \/ key = b ->
                (forall l, Dict.get x d' = Some l ->
                   forall ei, In ei l ->
                   exists a b rt, nth_error es ei = Some (a, b, rt)
                                  /\ (a = x \/ b = x)) ->
                forall l, Dict.get x (adj_append key idx d') = Some l ->
                   forall ei, In ei l ->
                   exists a b rt, nth_error es ei = Some (a, b, rt)
                                  /\ (a = x \/ b = x)).
      { intros d' key Hkey Hd' l. unfold adj_append. rewrite Dict_get_set.
        destruct (String.eqb_spec x key) as [->|N]; [|apply Hd'].
        intro E. injection E as <-. intros ei0 Hei.
        assert (Hidx : exists a0 b0 rt0, nth_error es idx = Some (a0, b0, rt0)
                                         /\ (a0 = key \/ b0 = key)).
        { exists a, b, rt. split; [exact Hin|]. destruct Hkey; auto. }
        destruct (Dict.get key d') as [l0|] eqn:E0.
        - apply in_app_or in Hei as [Hei|[<-|[]]]; [eapply Hd'; eauto|exact Hidx].
        - destruct Hei as [<-|[]]. exact Hidx. }
      apply (Step _ b); [auto|]. apply (Step _ a); [auto|exact Hd]. }
  destruct (Dict.get x (alias_adj_of es)) as [l|]; [eauto|contradiction].
Qed.

Lemma chain_snoc_fwd : forall lookup es s toks cur ei b rt,
  chain lookup es s toks cur ->
  nth_error es ei = Some (cur, b, rt) ->
  chain lookup es s (toks ++ [TFwd ei rt; TNode (_fmt_node b lookup)]) b.
Proof.
  intros lookup es s toks cur ei b rt H E.
  induction H; simpl.
  - apply chain_fwd; [exact E|apply chain_here].
  - apply chain_fwd; auto.
  - apply chain_rev; auto.
Qed.

Lemma chain_snoc_rev : forall lookup es s toks cur ei a rt,
  chain lookup es s toks cur ->
  nth_error es ei = Some (a, cur, rt) ->
  chain lookup es s (toks ++ [TRev ei rt; TNode (_fmt_node a lookup)]) a.
Proof.
  intros lookup es s toks cur ei a rt H E.
  induction H; simpl.
  - apply chain_rev; [exact E|apply chain_here].
  - apply chain_fwd; auto.
  - apply chain_rev; auto.
Qed.

Lemma walk_chain : forall es lookup start remaining used current rest toks,
  chain lookup es start rest current ->
  walk es lookup (alias_adj_of es) remaining used current
       (TNode (_fmt_node start lookup) :: rest) = Ok toks ->
  toks = simples lookup (enumerate es)
  \/ exists rest' z, toks = TNode (_fmt_node start lookup) :: rest'
                     /\ chain lookup es start rest' z.
Proof.
  intros es lookup start. induction remaining as [|r IH];
    intros used current rest toks Hc H; simpl in H.
  - injection H as <-. right. eauto.
  - apply bind_Ok in H as (found & Hf & H).
    destruct found as [ei|]; [|injection H as <-; now left].
    apply first_unused_In, alias_adj_incident in Hf
      as (a & b & rt & E & Hab).
    rewrite E in H.
    destruct (String.eqb_spec a current) as [->|N].
    + eapply IH; [|exact H]. now apply chain_snoc_fwd with current.
    + destruct Hab as [->| ->]; [contradiction|].
      eapply IH; [|exact H]. now apply chain_snoc_rev with current.
Qed.

(** X9: whatever the chain builder returns is either one chain, which
    opens with a node and in which every arrow stands between the two
    endpoints of its relationship, pointing from [node1] to [node2]
    (forward when the walk arrives at [node1], reversed when it arrives
    at [node2]); or the fallback, every relationship as a two-node
    pattern of its own. *)
Theorem chain_arrows_point_from_node1_to_node2 :
  forall (rel_pairs : list rel_pair) (comp_idxs : list nat)
         (node_lookup : Dict.t Node.t) (preferred_start : option string)
         (comp_edges : list rel_pair) (toks : list token),
    comp_edges_of rel_pairs comp_idxs = Ok comp_edges ->
    chain_tokens rel_pairs comp_idxs node_lookup preferred_start = Ok toks ->
    _chain_component rel_pairs comp_idxs node_lookup preferred_start
    = Ok (render toks)
    /\ (toks = simples node_lookup (enumerate comp_edges)
        \/ exists start rest z,
             toks = TNode (_fmt_node start node_lookup) :: rest
             /\ chain node_lookup comp_edges start rest z).
Proof.
  intros rel_pairs comp_idxs lookup preferred es toks Hes Ht.
  split; [unfold _chain_component; now rewrite Ht|].
  unfold chain_tokens in Ht. rewrite Hes in Ht. simpl in Ht.
  destruct (choose_start es preferred) as [start|]; [|discriminate].
  destruct (walk_chain es lookup start _ _ _ _ _ (chain_here lookup es start) Ht)
    as [H|(rest & z & H1 & H2)]; [now left|right; eauto].
Qed.

Lemma chain_arrows_point_from_node1_to_node2_witness :
  _chain_component fork_rels [0; 1] abc_lookup (Some "a")
  = Ok "(a:A)<-[:R]-(b:B)-[:S]->(c:C)".
Proof.
  exact (proj1 (chain_arrows_point_from_node1_to_node2 fork_rels [0; 1]
                  abc_lookup (Some "a") fork_rels
                  [TNode "(a:A)"; TRev 1 "R"; TNode "(b:B)"; TFwd 0 "S";
                   TNode "(c:C)"] eq_refl eq_refl)).
Defined.

(** ** With and without optimization *)

Lemma filter_idem : forall (A : Type) (p : A -> bool) l,
  filter p (filter p l) = filter p l.
Proof.
  induction l as [|a l IH]; simpl; [reflexivity|].
  destruct (p a) eqn:E; simpl; [rewrite E|]; congruence.
Qed.

Lemma filter_all : forall (A : Type) (p : A -> bool) l,
  (forall x, In x l -> p x = true) -> filter p l = l.
Proof.
  induction l as [|a l IH]; simpl; intro H; [reflexivity|].
  rewrite (H a (or_introl eq_refl)). f_equal. apply IH. auto.
Qed.

Lemma filter_none : forall (A : Type) (p : A -> bool) l,
  (forall x, In x l -> p x = false) -> filter p l = [].
Proof.
  induction l as [|a l IH]; simpl; intro H; [reflexivity|].
  rewrite (H a (or_introl eq_refl)). apply IH. auto.
Qed.

(** X10: without optimization the match section is built from the
    mandatory relationships alone: optional relationships are left out
    of the query altogether, and when every relationship is optional
    the match line just lists the nodes. *)
Theorem single_match_leaves_optional_out :
  forall (O : SetOrder) (nodes : list Node.t)
         (relationships : list Relationship.t),
    _build_single_match_clause nodes relationships
    = _build_single_match_clause nodes (filter is_regular relationships)
    /\ ((forall rel, In rel relationships -> is_optional rel = true) ->
        _build_single_match_clause nodes relationships = Ok (nodes_only nodes)).
Proof.
  intros O nodes rels. split.
  - unfold _build_single_match_clause. now rewrite filter_idem.
  - intro H. unfold _build_single_match_clause.
    rewrite filter_none.
    + destruct nodes; reflexivity.
    + intros rel Hrel. unfold is_regular. specialize (H rel Hrel).
      unfold is_optional in H. now rewrite H.
Qed.

Lemma single_match_leaves_optional_out_witness :
  _build_single_match_clause (O := insertion_order) [nA; nB]
    [Relationship.mk "a" "b" "S" (Some true)]
  = Ok "MATCH (a:A), (b:B)".
Proof.
  apply (proj2 (single_match_leaves_optional_out insertion_order [nA; nB]
                  [Relationship.mk "a" "b" "S" (Some true)])).
  intros rel [<-|[]]. reflexivity.
Defined.

Lemma single_match_regular_nonempty : forall (O : SetOrder) nodes r rs m,
  (forall rel, In rel (r :: rs) -> is_regular rel = true) ->
  _build_single_match_clause nodes (r :: rs) = Ok m -> nonempty m = true.
Proof.
  intros O nodes r rs m Hall H. unfold _build_single_match_clause in H.
  rewrite (filter_all _ _ _ Hall) in H.
  apply bind_Ok in H as (ps & _ & H). injection H as <-. reflexivity.
Qed.

(** X11: when no relationship of a request is optional, the optimize
    flag makes no difference: both settings build the same match
    section, so the entry point returns the same string. *)
Theorem optimize_is_moot_without_optional_relationships :
  forall (O : SetOrder) (json_data : Type)
         (model_validate : json_data -> result CypherQuery.t)
         (doc : json_data) (q : CypherQuery.t),
    model_validate doc = Ok q ->
    (forall rel, In rel (CypherQuery.relationships q) -> is_regular rel = true) ->
    match_section q true = match_section q false
    /\ convert_json_to_cypher model_validate doc true
       = convert_json_to_cypher model_validate doc false.
Proof.
  intros O json_data model_validate doc q Hdoc Hall.
  assert (M : match_section q true = match_section q false).
  { unfold match_section, build_advanced_match_clause.
    destruct (CypherQuery.relationships q) as [|r rs] eqn:Hr.
    - unfold _build_single_match_clause. simpl.
      destruct (CypherQuery.nodes q); reflexivity.
    - unfold build_optimal_patterns, required_part, new_builder. simpl.
      assert (Hopt : filter is_optional (r :: rs) = []).
      { apply filter_none. intros rel Hrel. specialize (Hall rel Hrel).
        unfold is_regular in Hall. unfold is_optional.
        now destruct (truthy (Relationship.optional rel)). }
      simpl in Hopt. rewrite Hopt.
      pose proof (filter_all _ _ _ Hall) as Hreg. simpl in Hreg. rewrite Hreg.
      destruct (_build_single_match_clause (CypherQuery.nodes q) (r :: rs))
        as [m|e] eqn:E; [|reflexivity].
      simpl. rewrite (single_match_regular_nonempty O _ r rs m Hall E).
      simpl. rewrite (single_match_regular_nonempty O _ r rs m Hall E).
      destruct m; reflexivity. }
  split; [exact M|].
  unfold convert_json_to_cypher. rewrite Hdoc. cbn [bind].
  unfold compile. now rewrite M.
Qed.

Lemma optimize_is_moot_without_optional_relationships_witness :
  convert_json_to_cypher (O := insertion_order) Ok plain_request true
  = convert_json_to_cypher (O := insertion_order) Ok plain_request false.
Proof.
  refine (proj2 (optimize_is_moot_without_optional_relationships
                   insertion_order CypherQuery.t Ok plain_request plain_request
                   eq_refl _)).
  intros rel [<-|[]]. reflexivity.
Defined.

(** ** The anchor *)

Lemma Dict_set_nonempty : forall (V : Type) k (v : V) d, Dict.set k v d <> [].
Proof.
  intros V k v [|[k0 v0] d]; simpl; [discriminate|].
  destruct (String.eqb k k0); discriminate.
Qed.

Lemma anchor_step_inv : forall lookup conds d cond,
  anchor_inv lookup conds d -> anchor_inv lookup (conds ++ [cond]) (anchor_step lookup d cond).
Proof.
  intros lookup conds d cond Hd.
  assert (Hd' : anchor_inv lookup (conds ++ [cond]) d).
  { intros a props Hin. destruct (Hd a props Hin) as (H1 & H2 & H3).
    split; [exact H1|]. split; [exact H2|].
    intros k v Hkv. destruct (H3 k v Hkv) as (c & Hc & Ho & Hv).
    exists c. split; [apply in_or_app; now left|auto]. }
  unfold anchor_step.
  destruct (PyStr.split_once "." (PyStr.strip (Condition.field cond)))
    as [[alias0 prop0]|]; [|exact Hd'].
  destruct (Dict.mem (PyStr.strip alias0) lookup) eqn:M; [|exact Hd'].
  destruct (String.eqb_spec (Condition.operator cond) "=") as [Eop|]; [|exact Hd'].
  simpl. intros a props Hin.
  apply Dict_set_In in Hin as [[-> ->]|Hin]; [|now apply Hd'].
  split; [exact M|]. split; [apply Dict_set_nonempty|].
  intros k v Hkv. apply Dict_set_In in Hkv as [[_ ->]|Hkv].
  - exists cond. split; [apply in_or_app; right; now left|auto].
  - destruct (Dict.get (PyStr.strip alias0) d) as [ps|] eqn:G; [|destruct Hkv].
    apply Dict_get_In in G. destruct (Hd' _ _ G) as (_ & _ & H3).
    exact (H3 k v Hkv).
Qed.

Lemma anchor_fold_inv : forall lookup conds,
  anchor_inv lookup conds (fold_left (anchor_step lookup) conds []).
Proof.
  intros lookup conds.
  assert (G : forall rest done d,
            anchor_inv lookup done d ->
            anchor_inv lookup (done ++ rest)
                       (fold_left (anchor_step lookup) rest d)).
  { induction rest as [|c rest IH]; intros done d H; simpl.
    - now rewrite app_nil_r.
    - replace (done ++ c :: rest)%list with ((done ++ [c]) ++ rest)%list
        by (rewrite <- app_assoc; reflexivity).
      apply IH. now apply anchor_step_inv. }
  apply (G conds [] []). intros a props [].
Qed.

Lemma label_of_declared : forall alias lookup,
  Dict.mem alias lookup = true ->
  exists n, Dict.get alias lookup = Some n
            /\ label_of alias lookup = Ok (Node.label n).
Proof.
  intros alias lookup H. unfold Dict.mem in H. unfold label_of.
  destruct (Dict.get alias lookup) as [n|]; [eauto|discriminate].
Qed.

Lemma extract_anchor_spec : forall where_ lookup,
  exists r,
    _extract_anchor_from_where where_ lookup = Ok r
    /\ forall a l props,
         r = Some (a, l, props) ->
         exists w n,
           where_ = Some w
           /\ Dict.get a lookup = Some n /\ Node.label n = l
           /\ props <> []
           /\ forall k v, In (k, v) props ->
                          exists cond, In cond (WhereClause.conditions w)
                                       /\ Condition.operator cond = "="
                                       /\ Condition.value cond = v.
Proof.
  intros where_ lookup. unfold _extract_anchor_from_where.
  destruct where_ as [w|]; [|exists None; split; [reflexivity|discriminate]].
  pose proof (anchor_fold_inv lookup (WhereClause.conditions w)) as Inv.
  destruct (WhereClause.conditions w) as [|c cs] eqn:Ec;
    [exists None; split; [reflexivity|discriminate]|].
  destruct (fold_left (anchor_step lookup) (c :: cs) []) as [|[a props] rest] eqn:F;
    [exists None; split; [reflexivity|discriminate]|].
  destruct rest; [|exists None; split; [reflexivity|discriminate]].
  destruct (Inv a props (or_introl eq_refl)) as (Hm & Hne & Hv).
  destruct (label_of_declared a lookup Hm) as (n & Hn & ->).
  exists (Some (a, Node.label n, props)). split; [reflexivity|].
  intros a' l' props' E. injection E as <- <- <-.
  exists w, n. rewrite Ec. auto.
Qed.

(** X12: [_extract_anchor_from_where] never raises; the anchor it
    returns is a declared alias with the label of its node, its
    property dictionary is not empty, and every value in it is the
    value of an equality condition of the filter: conditions with
    another operator or on an undeclared alias never reach the node
    pattern. *)
Theorem anchor_comes_from_equality_conditions :
  forall (where_ : option WhereClause.t) (node_lookup : Dict.t Node.t),
    exists r,
      _extract_anchor_from_where where_ node_lookup = Ok r
      /\ forall a l props,
           r = Some (a, l, props) ->
           exists w n,
             where_ = Some w
             /\ Dict.get a node_lookup = Some n /\ Node.label n = l
             /\ props <> []
             /\ forall k v, In (k, v) props ->
                            exists cond, In cond (WhereClause.conditions w)
                                         /\ Condition.operator cond = "="
                                         /\ Condition.value cond = v.
Proof. exact extract_anchor_spec. Qed.

(** ** The lines of the pattern builder *)

Lemma components_nil : forall (O : SetOrder), _connected_components_on_rels [] = [].
Proof. reflexivity. Qed.

Lemma pattern_line_nonempty : forall p, pattern_line p -> nonempty p = true.
Proof. intros p [r [->| ->]]; reflexivity. Qed.

Lemma filter_nonempty_lines : forall ps,
  Forall pattern_line ps -> filter nonempty ps = ps.
Proof.
  intros ps H. apply filter_all. intros p Hp.
  rewrite Forall_forall in H. now apply pattern_line_nonempty, H.
Qed.

Lemma optional_lines_shape : forall (O : SetOrder) nodes rels bound ls,
  _build_optional_match_components nodes rels bound = Ok ls ->
  Forall optional_line ls
  /\ List.length ls
     = List.length (_connected_components_on_rels (map pair_of rels)).
Proof.
  intros O nodes rels bound ls H. unfold _build_optional_match_components in H.
  split; [|now apply map_result_length in H].
  revert H. apply map_result_Forall. intros comp y _ H.
  apply bind_Ok in H as (es & _ & H).
  apply bind_Ok in H as (p & _ & H). injection H as <-.
  unfold optional_line. eexists. reflexivity.
Qed.

Lemma anchor_part_shape : forall (O : SetOrder) self b ps bound,
  anchor_part self = Ok (b, ps, bound) ->
  Forall match_line ps /\ List.length ps <= 1 /\ (bound = [] -> ps = []).
Proof.
  intros O self b ps bound H. unfold anchor_part in H.
  apply bind_Ok in H as (info & _ & H).
  destruct info as [[[a lbl] props]|].
  - injection H as _ <- <-. split; [|split; [simpl; lia|discriminate]].
    repeat constructor. unfold match_line. eexists. reflexivity.
  - match type of H with
    | match ?c with _ => _ end = _ => destruct c as [a|]
    end; [|injection H as _ <- <-; simpl; auto].
    destruct (nonempty a); [|injection H as _ <- <-; simpl; auto].
    apply bind_Ok in H as (lbl & _ & H). injection H as _ <- <-.
    split; [|split; [simpl; lia|discriminate]].
    repeat constructor. unfold match_line.
    exists ("(" ++ a ++ ":" ++ lbl ++ ")"). reflexivity.
Qed.

Lemma single_match_regular : forall (O : SetOrder) nodes rels m,
  filter is_regular rels <> [] ->
  _build_single_match_clause nodes rels = Ok m -> match_line m.
Proof.
  intros O nodes rels m Hne H. unfold _build_single_match_clause in H.
  destruct (filter is_regular rels); [contradiction|].
  apply bind_Ok in H as (ps & _ & H). injection H as <-.
  unfold match_line. eexists. reflexivity.
Qed.

Lemma match_line_pattern : forall p, match_line p -> pattern_line p.
Proof. intros p [r ->]. exists r. now left. Qed.

Lemma optional_line_pattern : forall p, optional_line p -> pattern_line p.
Proof. intros p [r ->]. exists r. now right. Qed.

(** X13: the pattern builder returns at most one required match line,
    which comes first (exactly one when there is a mandatory
    relationship), followed by optional match lines only, one for each
    connected component of the optional relationships. *)
Theorem one_match_line_then_optional_lines :
  forall (O : SetOrder) (nodes : list Node.t)
         (relationships : list Relationship.t) (ret : ReturnClause.t)
         (where_ : option WhereClause.t) (patterns : list string),
    build_optimal_patterns (new_builder nodes relationships ret where_)
    = Ok patterns ->
    exists ms os,
      patterns = (ms ++ os)%list
      /\ Forall match_line ms /\ List.length ms <= 1
      /\ (filter is_regular relationships <> [] -> List.length ms = 1)
      /\ Forall optional_line os
      /\ List.length os
         = List.length (_connected_components_on_rels
                          (map pair_of (filter is_optional relationships))).
Proof.
  intros O nodes rels ret where_ ps H.
  unfold build_optimal_patterns in H. simpl in H.
  apply bind_Ok in H as ([[info ps0] bound] & Hst & H).
  assert (H0 : Forall match_line ps0 /\ List.length ps0 <= 1
               /\ (filter is_regular rels <> [] -> List.length ps0 = 1)
               /\ (bound = [] -> ps0 = [] /\ filter is_regular rels = [])).
  { destruct (filter is_regular rels) as [|r rs] eqn:R.
    - destruct (anchor_part_shape O _ _ _ _ Hst) as (A & B & C).
      repeat split; auto. congruence.
    - apply bind_Ok in Hst as ([ps1 b1] & Hr & Hst). injection Hst as _ <- <-.
      unfold required_part in Hr. simpl in Hr.
      apply bind_Ok in Hr as (m & Hm & Hr). injection Hr as <- <-.
      assert (ML : match_line m).
      { apply (single_match_regular O nodes rels m); [congruence|exact Hm]. }
      rewrite (pattern_line_nonempty m (match_line_pattern m ML)).
      rewrite R. simpl. repeat split; auto; discriminate. }
  destruct H0 as (A & B & C & D).
  apply bind_Ok in H as (ps1 & Hopt & H).
  assert (H1 : exists os,
             ps1 = (ps0 ++ os)%list /\ Forall optional_line os
             /\ List.length os
                = List.length (_connected_components_on_rels
                                 (map pair_of (filter is_optional rels)))).
  { destruct (filter is_optional rels) as [|r rs] eqn:R.
    - injection Hopt as <-. exists []. rewrite app_nil_r.
      split; [reflexivity|]. split; [constructor|reflexivity].
    - apply bind_Ok in Hopt as (ls & Hls & Hopt). injection Hopt as <-.
      exists ls. split; [reflexivity|].
      exact (optional_lines_shape O _ _ _ _ Hls). }
  destruct H1 as (os & -> & F & L). injection H as <-.
  assert (PL : Forall pattern_line (ps0 ++ os)).
  { apply Forall_app. split.
    - eapply Forall_impl; [apply match_line_pattern|exact A].
    - eapply Forall_impl; [apply optional_line_pattern|exact F]. }
  destruct rels as [|r rs].
  - simpl in L. try rewrite components_nil in L. destruct os; [|discriminate].
    rewrite app_nil_r in *.
    destruct info, bound, nodes; try (rewrite (filter_nonempty_lines _ PL);
      exists ps0, []; rewrite app_nil_r; repeat split; auto; constructor).
    destruct (D eq_refl) as [-> _]. simpl.
    exists ["MATCH " ++ PyStr.join ", " (map node_pattern (t :: nodes))], [].
    repeat split; simpl; auto; try constructor; try contradiction.
    + unfold match_line. eexists. reflexivity.
    + constructor.
  - rewrite (filter_nonempty_lines _ PL).
    exists ps0, os. repeat split; auto.
Qed.

Lemma one_match_line_then_optional_lines_witness :
  exists ms os,
    ["MATCH (a:A)-[:R]->(b:B), (c:C)"; "OPTIONAL MATCH (b:B)-[:S]->(c:C)"]
    = (ms ++ os)%list
    /\ Forall match_line ms /\ List.length ms <= 1
    /\ (filter is_regular attachment_rels <> [] -> List.length ms = 1)
    /\ Forall optional_line os
    /\ List.length os
       = List.length (_connected_components_on_rels (O := insertion_order)
                        (map pair_of (filter is_optional attachment_rels))).
Proof.
  exact (one_match_line_then_optional_lines insertion_order [nA; nB; nC]
           attachment_rels (ReturnClause.mk ["a"] false) None _ eq_refl).
Defined.

(** ** What validation and pattern building can raise *)

Lemma for_each_Raise : forall (A : Type) (body : A -> result unit) l e,
  for_each body l = Raise e -> exists x, In x l /\ body x = Raise e.
Proof.
  induction l as [|a l IH]; simpl; intros e H; [discriminate|].
  destruct (body a) as [[]|e'] eqn:E; simpl in H.
  - destruct (IH e H) as (x & Hx & Hb). eauto.
  - injection H as <-. eauto.
Qed.

Lemma map_result_Raise : forall (A B : Type) (f : A -> result B) l e,
  map_result f l = Raise e -> exists x, In x l /\ f x = Raise e.
Proof.
  induction l as [|a l IH]; simpl; intros e H; [discriminate|].
  destruct (f a) as [y|e'] eqn:E; simpl in H.
  - destruct (map_result f l) as [ys|e''] eqn:M; simpl in H; [discriminate|].
    injection H as <-. destruct (IH _ eq_refl) as (x & Hx & Hb). eauto.
  - injection H as <-. eauto.
Qed.

Lemma validate_raises_ValueError : forall q e,
  validate q = Raise e -> exists msg, e = ValueError msg.
Proof.
  intros q e H. unfold validate in H.
  assert (F : forall fields e', validate_field_syntax fields = Raise e' ->
                                exists msg, e' = ValueError msg).
  { intros fields e' Hf. unfold validate_field_syntax in Hf.
    apply for_each_Raise in Hf as (f & _ & Hf).
    destruct (_ && _); [|discriminate]. injection Hf as <-. eauto. }
  apply bind_Raise in H as [H|([] & _ & H)].
  - unfold validate_aliases in H. apply for_each_Raise in H as (rel & _ & H).
    destruct (negb _); [injection H as <-; eauto|].
    destruct (negb _); [injection H as <-; eauto|discriminate].
  - apply bind_Raise in H as [H|([] & _ & H)]; [|eauto].
    destruct (CypherQuery.whereClause q) as [w|]; [|discriminate].
    unfold validate_conditions in H. apply for_each_Raise in H as (c & _ & H).
    eauto.
Qed.

Lemma comp_edges_of_valid : forall rel_pairs comp_idxs,
  (forall i, In i comp_idxs -> i < List.length rel_pairs) ->
  exists es, comp_edges_of rel_pairs comp_idxs = Ok es.
Proof.
  intros rp. unfold comp_edges_of.
  induction comp_idxs as [|i idxs IH]; intro H; simpl; [eauto|].
  destruct (nth_error rp i) as [e|] eqn:E.
  - destruct IH as [es ->]; [intros; apply H; now right|]. simpl. eauto.
  - apply nth_error_None in E. specialize (H i (or_introl eq_refl)). lia.
Qed.

Lemma components_valid : forall (O : SetOrder) rels comp i,
  In comp (_connected_components_on_rels rels) -> In i comp ->
  i < List.length rels.
Proof.
  intros O rels comp i Hc Hi.
  destruct (components_spec O rels) as [Hp _].
  assert (H : In i (List.concat (_connected_components_on_rels rels))).
  { apply in_concat. eauto. }
  apply (Permutation_in i Hp), in_seq in H. lia.
Qed.

Lemma chain_component_raises : forall rel_pairs comp_idxs lookup preferred e,
  (forall i, In i comp_idxs -> i < List.length rel_pairs) ->
  _chain_component rel_pairs comp_idxs lookup preferred = Raise e ->
  e = no_start_error.
Proof.
  intros rp idxs lookup preferred e Hv H.
  destruct (comp_edges_of_valid rp idxs Hv) as [es Hes].
  destruct (choose_start_spec es preferred) as [(s & Hs & _)|[Hs _]].
  - destruct (chain_tokens_from_alias rp idxs lookup preferred es s Hes Hs)
      as (toks & Ht & _).
    unfold _chain_component in H. rewrite Ht in H. discriminate.
  - unfold _chain_component, chain_tokens in H. rewrite Hes in H. simpl in H.
    rewrite Hs in H. simpl in H. now injection H as <-.
Qed.

Lemma single_match_raises : forall (O : SetOrder) nodes rels e,
  _build_single_match_clause nodes rels = Raise e -> e = no_start_error.
Proof.
  intros O nodes rels e H. unfold _build_single_match_clause in H.
  destruct (filter is_regular rels) as [|r rs];
    [destruct nodes; discriminate|].
  apply bind_Raise in H as [H|(ps & _ & H)]; [|discriminate].
  apply map_result_Raise in H as (comp & Hc & H).
  apply chain_component_raises in H; [exact H|].
  intros i Hi. exact (components_valid O _ comp i Hc Hi).
Qed.

Lemma optional_components_raise : forall (O : SetOrder) nodes rels bound e,
  _build_optional_match_components nodes rels bound = Raise e ->
  e = no_start_error.
Proof.
  intros O nodes rels bound e H. unfold _build_optional_match_components in H.
  apply map_result_Raise in H as (comp & Hc & H).
  assert (Hv : forall i, In i comp -> i < List.length (map pair_of rels)).
  { intros i Hi. exact (components_valid O _ comp i Hc Hi). }
  apply bind_Raise in H as [H|(es & _ & H)].
  - destruct (comp_edges_of_valid _ _ Hv) as [es Hes]. congruence.
  - apply bind_Raise in H as [H|(p & _ & H)]; [|discriminate].
    now apply chain_component_raises in H.
Qed.

Lemma build_optimal_patterns_required_raises : forall (O : SetOrder) self e,
  AdvancedPatternBuilder.regular_rels self <> [] ->
  build_optimal_patterns self = Raise e -> e = no_start_error.
Proof.
  intros O self e Hne H. unfold build_optimal_patterns in H.
  apply bind_Raise in H as [H|([[info ps0] bound] & _ & H)].
  - destruct (AdvancedPatternBuilder.regular_rels self); [contradiction|].
    apply bind_Raise in H as [H|(pb & _ & H)]; [|discriminate].
    unfold required_part in H.
    apply bind_Raise in H as [H|(m & _ & H)]; [|discriminate].
    now apply single_match_raises in H.
  - apply bind_Raise in H as [H|(ps1 & _ & H)]; [|discriminate].
    destruct (AdvancedPatternBuilder.optional_rels self); [discriminate|].
    apply bind_Raise in H as [H|(ls & _ & H)]; [|discriminate].
    now apply optional_components_raise in H.
Qed.

(** X14: validation raises nothing but a [ValueError]; and the match
    section, built without optimization or for a request with a
    mandatory relationship (no anchor is rendered then), raises nothing
    but the chain builder's [TypeError] for a component without a start
    alias.  No index of a component is ever out of range and no alias
    is ever looked up that the node lookup lacks: [IndexError] and
    [KeyError] are never raised there. *)
Theorem match_section_raises_only_for_a_missing_start :
  forall (O : SetOrder) (q : CypherQuery.t) (optimize : bool) (e : exn),
    (validate q = Raise e -> exists msg, e = ValueError msg)
    /\ (optimize = false
        \/ filter is_regular (CypherQuery.relationships q) <> [] ->
        match_section q optimize = Raise e ->
        e = TypeError "unhashable type: 'list'").
Proof.
  intros O q optimize e. split; [apply validate_raises_ValueError|].
  intros Hc H. unfold match_section in H. destruct optimize.
  - destruct Hc as [Hc|Hc]; [discriminate|].
    unfold build_advanced_match_clause in H.
    destruct (CypherQuery.relationships q) as [|r rs] eqn:Hr;
      [destruct (CypherQuery.nodes q); discriminate|].
    apply bind_Raise in H as [H|(ps & _ & H)]; [|discriminate].
    apply build_optimal_patterns_required_raises in H; [exact H|exact Hc].
  - now apply single_match_raises in H.
Qed.

Lemma match_section_raises_only_for_a_missing_start_witness :
  exists e,
    match_section (O := insertion_order) triangle_request true = Raise e
    /\ e = TypeError "unhashable type: 'list'".
Proof.
  destruct (match_section (O := insertion_order) triangle_request true)
    as [m|e] eqn:E.
  - vm_compute in E. discriminate.
  - exists e. split; [reflexivity|].
    apply (proj2 (match_section_raises_only_for_a_missing_start
                    insertion_order triangle_request true e)).
    + right. intro F. vm_compute in F. discriminate.
    + exact E.
Defined.

(** ** The status of a document in a batch *)

Lemma cross_is_no_prefix : forall s,
  opens_with_keyword s -> PyStr.startswith "❌" s = false.
Proof.
  intros s (c & r & -> & [->|[->|[->| ->]]]); reflexivity.
Qed.

(** X15: the batch loop marks a document a success exactly when the
    document binds to the models and compiles; whenever binding or
    compiling raises, the string the entry point returns is marked
    failed. *)
Theorem batch_status_tells_success_from_failure :
  forall (O : SetOrder) (json_data : Type)
         (model_validate : json_data -> result CypherQuery.t)
         (doc : json_data),
    (batch_status (convert_json_to_cypher model_validate doc true)
     = "✅ SUCCESS"
     <-> exists text, succeeds model_validate doc true text)
    /\ (batch_status (convert_json_to_cypher model_validate doc true)
        = "❌ FAILED"
        <-> exists e, fails model_validate doc true e).
Proof.
  intros O json_data model_validate doc.
  unfold batch_status, convert_json_to_cypher, succeeds, fails.
  destruct (model_validate doc) as [q|e] eqn:Hdoc; simpl.
  - destruct (compile q true) as [text|e] eqn:Hc.
    + assert (K : PyStr.startswith "❌" text = false).
      { apply cross_is_no_prefix.
        destruct (compile_Ok O q true text Hc) as (_ & m & Hm & ->).
        apply clauses_open_with_keyword.
        exact (match_section_keyword O q true m Hm). }
      rewrite K. simpl. split; split.
      * intros _. exists text, q. split; [reflexivity|exact Hc].
      * reflexivity.
      * discriminate.
      * intros (e & [H|(q' & H & H')]); congruence.
    + split; split.
      * discriminate.
      * intros (t & q' & H & H'). congruence.
      * intros _. exists e. right. exists q. split; [reflexivity|assumption].
      * reflexivity.
  - split; split.
    + discriminate.
    + intros (t & q' & H & _). discriminate.
    + intros _. exists e. left. reflexivity.
    + reflexivity.
Qed.

(** ** A forward path *)

Lemma forward_rels_length : forall steps v,
  List.length (forward_rels v steps) = List.length steps.
Proof.
  induction steps as [|[rt w] r IH]; intro v; simpl; [reflexivity|].
  now rewrite IH.
Qed.

Lemma forward_rels_nth : forall steps v i a b rt,
  nth_error (forward_rels v steps) i = Some (a, b, rt) ->
  nth_error (forward_aliases v steps) i = Some a
  /\ nth_error (forward_aliases v steps) (S i) = Some b
  /\ nth_error steps i = Some (rt, b).
Proof.
  unfold forward_aliases.
  induction steps as [|[rt0 w] r IH]; intros v i a b rt H.
  - destruct i; discriminate.
  - destruct i as [|i]; simpl in H.
    + injection H as <- <- <-. auto.
    + destruct (IH w i a b rt H) as (H1 & H2 & H3). auto.
Qed.

Lemma forward_rels_at : forall steps v i rt b,
  nth_error steps i = Some (rt, b) ->
  exists a, nth_error (forward_rels v steps) i = Some (a, b, rt).
Proof.
  induction steps as [|[rt0 w] r IH]; intros v i rt b H.
  - destruct i; discriminate.
  - destruct i as [|i]; simpl in H.
    + injection H as <- <-. exists v. reflexivity.
    + simpl. apply IH. exact H.
Qed.

Lemma forward_rels_some : forall steps v i,
  i < List.length steps ->
  exists a b rt, nth_error (forward_rels v steps) i = Some (a, b, rt).
Proof.
  intros steps v i H.
  destruct (nth_error steps i) as [[rt b]|] eqn:E.
  - destruct (forward_rels_at steps v i rt b E) as [a Ha]. eauto.
  - apply nth_error_None in E. lia.
Qed.

(** On a path over distinct aliases a relationship shares an alias with
    its two neighbours only. *)
Lemma forward_adjacent : forall steps v i j,
  NoDup (forward_aliases v steps) ->
  (adjacent (forward_rels v steps) i j
   <-> (j = S i /\ j < List.length steps) \/ (i = S j /\ i < List.length steps)).
Proof.
  intros steps v i j ND. split.
  - intros (Nij & [[a1 a2] t1] & [[b1 b2] t2] & Hp & Hq & Hs).
    assert (Li : i < List.length steps).
    { rewrite <- (forward_rels_length steps v). apply nth_error_Some. congruence. }
    assert (Lj : j < List.length steps).
    { rewrite <- (forward_rels_length steps v). apply nth_error_Some. congruence. }
    apply forward_rels_nth in Hp as (P1 & P2 & _).
    apply forward_rels_nth in Hq as (Q1 & Q2 & _).
    assert (Inj : forall x y s, nth_error (forward_aliases v steps) x = Some s ->
                    nth_error (forward_aliases v steps) y = Some s -> x = y).
    { intros x y s Hx Hy. rewrite NoDup_nth_error in ND. apply ND.
      - apply nth_error_Some. congruence.
      - congruence. }
    simpl in Hs. destruct Hs as [E|[E|[E|E]]]; subst.
    + exfalso. apply Nij. eapply Inj; eauto.
    + right. split; [eapply Inj; eauto|exact Li].
    + left. split; [symmetry; eapply Inj; eauto|exact Lj].
    + exfalso. apply Nij.
      assert (S i = S j) by (eapply Inj; eauto). lia.
  - intros [[-> L]|[-> L]].
    + destruct (forward_rels_some steps v i) as (a1 & a2 & t1 & Hp); [lia|].
      destruct (forward_rels_some steps v (S i) L) as (b1 & b2 & t2 & Hq).
      split; [lia|]. exists (a1, a2, t1), (b1, b2, t2).
      split; [exact Hp|]. split; [exact Hq|].
      apply forward_rels_nth in Hp as (_ & P2 & _).
      apply forward_rels_nth in Hq as (Q1 & _ & _).
      simpl. right. right. left. congruence.
    + destruct (forward_rels_some steps v j) as (a1 & a2 & t1 & Hp); [lia|].
      destruct (forward_rels_some steps v (S j) L) as (b1 & b2 & t2 & Hq).
      split; [lia|]. exists (b1, b2, t2), (a1, a2, t1).
      split; [exact Hq|]. split; [exact Hp|].
      apply forward_rels_nth in Hp as (_ & P2 & _).
      apply forward_rels_nth in Hq as (Q1 & _ & _).
      simpl. right. left. congruence.
Qed.

Lemma NoDup_singleton : forall (A : Type) (l : list A) x,
  NoDup l -> (forall y, In y l <-> y = x) -> l = [x].
Proof.
  intros A l x ND H. destruct l as [|a l].
  - exfalso. apply (proj2 (H x) eq_refl).
  - assert (a = x) by (apply H; now left). subst a.
    destruct l as [|b l]; [reflexivity|].
    assert (b = x) by (apply H; right; now left). subst b.
    inversion ND as [|? ? Hn _]; subst. exfalso. apply Hn. now left.
Qed.

Lemma In_nil_eq : forall (A : Type) (l : list A),
  (forall y, ~ In y l) -> l = [].
Proof.
  intros A [|a l] H; [reflexivity|]. exfalso. apply (H a). now left.
Qed.

(** The search from relationship [u] of a path, with everything up to
    [u] seen, collects the rest of the path in order. *)
Lemma bfs_forward : forall (O : SetOrder) steps v,
  NoDup (forward_aliases v steps) ->
  forall fuel u seen comp,
    u < List.length steps ->
    List.length steps - u <= fuel ->
    (forall x, In x seen <-> x <= u) ->
    exists seen',
      bfs fuel (build_adj (forward_rels v steps)) [u] seen comp
      = Some ((comp ++ seq u (List.length steps - u))%list, seen')
      /\ forall x, In x seen' <-> x < List.length steps.
Proof.
  intros O steps v ND.
  induction fuel as [|fuel IH]; intros u seen comp Hu Hf Hseen; [lia|].
  simpl.
  destruct (visit_fold (iter_nat (adj_get u (build_adj (forward_rels v steps))))
                       seen [])
    as (news & -> & NDn & Hn). simpl.
  assert (Hn' : forall x, In x news <-> x = S u /\ S u < List.length steps).
  { intro x. rewrite Hn, iter_nat_In, build_adj_spec, forward_adjacent by exact ND.
    rewrite Hseen. split.
    - intros [[[-> L]|[-> L]] Hx]; [auto|lia].
    - intros [-> L]. split; [left; auto|lia]. }
  destruct (Nat.eq_dec (S u) (List.length steps)) as [E|N].
  - assert (news = []).
    { apply In_nil_eq. intros y Hy. apply Hn' in Hy. lia. }
    subst news. simpl. exists seen. split.
    + replace (List.length steps - u) with 1 by lia.
      destruct fuel; reflexivity.
    + intro x. rewrite Hseen. lia.
  - assert (news = [S u]).
    { apply NoDup_singleton; [exact NDn|]. intro y. rewrite Hn'. split.
      - tauto.
      - intros ->. split; [reflexivity|lia]. }
    subst news. simpl.
    destruct (IH (S u) (S u :: seen) (comp ++ [u])%list) as (seen' & -> & Hs');
      [lia|lia| |].
    + intro x. simpl. rewrite Hseen. lia.
    + exists seen'. split; [|exact Hs'].
      rewrite <- app_assoc. simpl.
      replace (List.length steps - u) with (S (List.length steps - S u)) by lia.
      reflexivity.
Qed.

Lemma components_loop_seen : forall (O : SetOrder) fuel adj todo seen comps,
  (forall i, In i todo -> In i seen) ->
  components_loop fuel adj todo seen comps = Some comps.
Proof.
  induction todo as [|i todo IH]; intros seen comps H; simpl; [reflexivity|].
  assert (E : mem_nat i seen = true) by (apply mem_nat_In, H; now left).
  rewrite E. apply IH. intros j Hj. apply H. now right.
Qed.

(** The relationships of a path over distinct aliases are one
    component, in the order of the path, whatever the iteration order
    of the sets. *)
Lemma forward_components : forall (O : SetOrder) steps v,
  steps <> [] ->
  NoDup (forward_aliases v steps) ->
  _connected_components_on_rels (forward_rels v steps)
  = [seq 0 (List.length steps)].
Proof.
  intros O steps v Hne ND.
  unfold _connected_components_on_rels, components_fuel.
  rewrite forward_rels_length.
  destruct steps as [|s steps]; [contradiction|].
  set (k := List.length (s :: steps)).
  change (seq 0 k) with (0 :: seq 1 (List.length steps)).
  cbn [components_loop mem_nat existsb].
  destruct (bfs_forward O (s :: steps) v ND k 0 [0] []) as (seen' & Hb & Hs).
  - simpl. lia.
  - lia.
  - intro x. simpl. lia.
  - fold k in Hb. rewrite Hb.
    rewrite components_loop_seen.
    + unfold k. reflexivity.
    + intros i Hi. apply in_seq in Hi. apply Hs. simpl. lia.
Qed.

Lemma comp_edges_of_all : forall es,
  comp_edges_of es (seq 0 (List.length es)) = Ok es.
Proof.
  intro es. unfold comp_edges_of.
  assert (G : forall l2 l1 : list rel_pair,
            map_result (fun i => match nth_error (l1 ++ l2)%list i with
                                 | Some e => Ok e
                                 | None => index_error
                                 end)
                       (seq (List.length l1) (List.length l2)) = Ok l2).
  { induction l2 as [|e l2 IH]; intro l1; simpl; [reflexivity|].
    rewrite nth_error_app2 by lia. rewrite Nat.sub_diag. simpl.
    specialize (IH (l1 ++ [e])%list).
    rewrite <- app_assoc in IH. simpl in IH.
    rewrite length_app in IH. simpl in IH. rewrite Nat.add_1_r in IH.
    rewrite IH. reflexivity. }
  apply (G es []).
Qed.

(** *** The start *)

Lemma occ_forward_out : forall steps v x,
  ~ In x (forward_aliases v steps) -> occ x (forward_rels v steps) = 0.
Proof.
  unfold forward_aliases.
  induction steps as [|[rt w] r IH]; intros v x H; simpl; [reflexivity|].
  simpl in H.
  destruct (String.eqb_spec v x) as [->|_]; [tauto|].
  destruct (String.eqb_spec w x) as [->|_]; [tauto|].
  rewrite IH; [reflexivity|]. simpl. tauto.
Qed.

Lemma occ_forward_head : forall steps v,
  steps <> [] -> NoDup (forward_aliases v steps) ->
  occ v (forward_rels v steps) = 1.
Proof.
  unfold forward_aliases.
  intros [|[rt w] r] v Hne ND; [contradiction|]. simpl.
  inversion ND as [|? ? Hn ND']; subst.
  rewrite String.eqb_refl.
  destruct (String.eqb_spec w v) as [->|_]; [exfalso; apply Hn; now left|].
  rewrite occ_forward_out; [reflexivity|].
  unfold forward_aliases. exact Hn.
Qed.

Lemma Dict_set_head : forall (V : Type) k (v : V) k0 v0 d,
  exists v1 d1, Dict.set k v ((k0, v0) :: d) = (k0, v1) :: d1.
Proof.
  intros V k v k0 v0 d. simpl.
  destruct (String.eqb k k0) eqn:E.
  - apply String.eqb_eq in E. subst. eauto.
  - eauto.
Qed.

(** The first key of the degree dictionary is [node1] of the first
    relationship. *)
Lemma degree_of_head : forall a b rt es,
  exists rest, degree_of ((a, b, rt) :: es)
               = (a, occ a ((a, b, rt) :: es)) :: rest.
Proof.
  intros a b rt es.
  assert (Step : forall k (d : Dict.t nat),
            (exists n rest, d = (a, n) :: rest) ->
            exists n rest, incr k d = (a, n) :: rest).
  { intros k d (n & rest & ->). unfold incr. apply Dict_set_head. }
  assert (G : exists d rest, degree_of ((a, b, rt) :: es) = (a, d) :: rest).
  { unfold degree_of. cbn [fold_left].
    apply (fold_left_preserves _ _ _
             (fun d : Dict.t nat => exists n rest, d = (a, n) :: rest)).
    - apply Step. exists 1, []. reflexivity.
    - intros d [[x y] t] _ H. now apply Step, Step. }
  destruct G as (d & rest & E). exists rest. rewrite E. f_equal. f_equal.
  assert (In (a, d) (degree_of ((a, b, rt) :: es))) by (rewrite E; now left).
  now apply degree_of_In in H.
Qed.

Lemma forward_start : forall steps v,
  steps <> [] -> NoDup (forward_aliases v steps) ->
  choose_start (forward_rels v steps) None = StartAlias v.
Proof.
  intros steps v Hne ND. unfold choose_start.
  pose proof (occ_forward_head steps v Hne ND) as Hocc.
  destruct steps as [|[rt w] r]; [contradiction|].
  simpl forward_rels in *.
  destruct (degree_of_head v w rt (forward_rels w r)) as (rest & ->).
  rewrite Hocc. reflexivity.
Qed.

(** *** The walk *)

Lemma alias_adj_complete : forall es ei a b rt,
  nth_error es ei = Some (a, b, rt) ->
  In ei (alias_adj_get a (alias_adj_of es))
  /\ In ei (alias_adj_get b (alias_adj_of es)).
Proof.
  intros es ei a b rt H.
  assert (G : forall x, x = a \/ x = b ->
                        In ei (alias_adj_get x (alias_adj_of es))).
  { intros x Hx. unfold alias_adj_of.
    pose (has := fun (d : Dict.t (list nat)) (y : string * nat) =>
                   In (snd y) (alias_adj_get (fst y) d)).
    pose (adds := fun (ie : nat * rel_pair) (y : string * nat) =>
                    snd y = fst ie
                    /\ (fst y = fst (fst (snd ie)) \/ fst y = snd (fst (snd ie)))).
    assert (Step : forall d ie y,
              has ((fun d (ie : nat * rel_pair) =>
                      let '(idx, (a, b, _)) := ie in
                      adj_append b idx (adj_append a idx d)) d ie) y
              <-> has d y \/ adds ie y).
    { intros d [idx [[a' b'] rt']] [y n]. unfold has, adds. simpl.
      assert (One : forall k d0,
                In n (alias_adj_get y (adj_append k idx d0))
                <-> In n (alias_adj_get y d0) \/ (n = idx /\ y = k)).
      { intros k d0. unfold alias_adj_get, adj_append. rewrite Dict_get_set.
        destruct (String.eqb_spec y k) as [->|N].
        - destruct (Dict.get k d0) as [l|].
          + rewrite in_app_iff. simpl. intuition.
          + simpl. intuition.
        - intuition. }
      rewrite !One. intuition. }
    apply (proj2 (fold_left_adds _ _ _ _ has adds Step (enumerate es) []
                    (x, ei))).
    right. exists (ei, (a, b, rt)). split.
    - apply In_enumerate. exact H.
    - unfold adds. simpl. split; [reflexivity|]. exact Hx. }
  split; apply G; auto.
Qed.

Lemma first_unused_only : forall used eis i,
  In i eis ->
  nth_error used i = Some false ->
  (forall j, In j eis -> j <> i -> nth_error used j = Some true) ->
  first_unused used eis = Ok (Some i).
Proof.
  induction eis as [|e eis IH]; intros i Hin Hi Hrest; [destruct Hin|].
  simpl. destruct (Nat.eq_dec e i) as [->|N].
  - now rewrite Hi.
  - rewrite (Hrest e (or_introl eq_refl) N). apply IH.
    + destruct Hin as [E|Hin]; [contradiction|exact Hin].
    + exact Hi.
    + intros j Hj. apply Hrest. now right.
Qed.

Lemma nth_error_progress : forall i n j,
  nth_error (repeat true i ++ repeat false n)%list j
  = if (j <? i)%nat then Some true
    else if (j <? i + n)%nat then Some false else None.
Proof.
  induction i as [|i IH]; intros n j; simpl.
  - revert j. induction n as [|n IHn]; intro j; simpl.
    + destruct j; reflexivity.
    + destruct j as [|j]; [reflexivity|]. simpl. rewrite IHn.
      destruct (j <? n)%nat eqn:E; destruct (S j <? S n)%nat eqn:E'; try reflexivity;
        apply Nat.ltb_lt in E || apply Nat.ltb_ge in E;
        apply Nat.ltb_lt in E' || apply Nat.ltb_ge in E'; lia.
  - destruct j as [|j]; [reflexivity|]. simpl. rewrite IH.
    change (S j <? S i)%nat with (j <? i)%nat.
    change (S j <? S (i + n))%nat with (j <? i + n)%nat. reflexivity.
Qed.

Lemma mark_progress : forall i n,
  mark i (repeat true i ++ repeat false (S n))%list
  = (repeat true (S i) ++ repeat false n)%list.
Proof.
  induction i as [|i IH]; intro n; [reflexivity|].
  specialize (IH n). simpl in *. now rewrite IH.
Qed.

Lemma skipn_nth : forall (A : Type) (l : list A) i x,
  nth_error l i = Some x -> skipn i l = x :: skipn (S i) l.
Proof.
  induction l as [|a l IH]; intros i x H.
  - destruct i; discriminate.
  - destruct i as [|i]; simpl in H.
    + injection H as <-. reflexivity.
    + simpl. rewrite (IH i x H). reflexivity.
Qed.

(** With the first [i] relationships of the path used and the walk at
    the [i]-th alias, the walk goes on to the end of the path, every
    relationship forward. *)
Lemma walk_forward : forall steps v node_lookup,
  NoDup (forward_aliases v steps) ->
  forall remaining i current segs,
    i + remaining = List.length steps ->
    nth_error (forward_aliases v steps) i = Some current ->
    walk (forward_rels v steps) node_lookup (alias_adj_of (forward_rels v steps))
         remaining (repeat true i ++ repeat false remaining)%list current segs
    = Ok (segs ++ forward_tokens node_lookup i (skipn i steps))%list.
Proof.
  intros steps v lookup ND.
  assert (Inj : forall x y s, nth_error (forward_aliases v steps) x = Some s ->
                  nth_error (forward_aliases v steps) y = Some s -> x = y).
  { intros x y s Hx Hy. rewrite NoDup_nth_error in ND. apply ND.
    - apply nth_error_Some. congruence.
    - congruence. }
  induction remaining as [|r IH]; intros i cur segs Hlen Hcur.
  - simpl. rewrite skipn_all2 by lia. simpl. now rewrite app_nil_r.
  - destruct (forward_rels_some steps v i) as (a & b & rt & He); [lia|].
    destruct (forward_rels_nth steps v i a b rt He) as (Ha & Hb & Hst).
    assert (a = cur) by congruence. subst a.
    cbn [walk].
    rewrite (first_unused_only _ _ i).
    + cbn [bind]. rewrite He, String.eqb_refl.
      rewrite mark_progress.
      rewrite (IH (S i) b _ ltac:(lia) Hb).
      rewrite (skipn_nth _ steps i (rt, b) Hst). simpl.
      rewrite <- app_assoc. reflexivity.
    + apply (alias_adj_complete _ _ _ _ _ He).
    + rewrite nth_error_progress.
      destruct (i <? i)%nat eqn:E; [apply Nat.ltb_lt in E; lia|].
      destruct (i <? i + S r)%nat eqn:E'; [reflexivity|].
      apply Nat.ltb_ge in E'. lia.
    + intros j Hj Nj.
      apply alias_adj_incident in Hj as (a' & b' & rt' & He' & Hx).
      apply forward_rels_nth in He' as (Ha' & Hb' & _).
      rewrite nth_error_progress.
      assert (j < i).
      { destruct Hx as [->| ->].
        - exfalso. apply Nj. eapply Inj; eauto.
        - assert (S j = i) by (eapply Inj; eauto). lia. }
      destruct (j <? i)%nat eqn:E; [reflexivity|].
      apply Nat.ltb_ge in E. lia.
Qed.

Lemma render_cons : forall t toks,
  render (t :: toks) = token_text t ++ render toks.
Proof.
  intros t toks. unfold render, PyStr.join. simpl.
  destruct (map token_text toks) as [|s l] eqn:E.
  - simpl. now rewrite str_append_nil_r.
  - simpl. reflexivity.
Qed.

Lemma render_forward : forall node_lookup steps idx,
  render (forward_tokens node_lookup idx steps)
  = forward_text node_lookup steps.
Proof.
  intros lookup. induction steps as [|[rt w] r IH]; intro idx; simpl.
  - reflexivity.
  - rewrite !render_cons, IH. simpl. rewrite !str_append_assoc. reflexivity.
Qed.

Lemma chain_forward : forall steps v node_lookup,
  steps <> [] -> NoDup (forward_aliases v steps) ->
  _chain_component (forward_rels v steps) (seq 0 (List.length steps))
                   node_lookup None
  = Ok (_fmt_node v node_lookup ++ forward_text node_lookup steps).
Proof.
  intros steps v lookup Hne ND.
  unfold _chain_component, chain_tokens.
  rewrite <- (forward_rels_length steps v) at 1.
  rewrite comp_edges_of_all. cbn [bind].
  rewrite (forward_start steps v Hne ND).
  rewrite forward_rels_length.
  change (repeat false (List.length steps))
    with (repeat true 0 ++ repeat false (List.length steps))%list.
  rewrite (walk_forward steps v lookup ND (List.length steps) 0 v
             [TNode (_fmt_node v lookup)] eq_refl eq_refl).
  cbn [bind]. simpl skipn. simpl app.
  rewrite render_cons, render_forward. reflexivity.
Qed.

Lemma mem_str_ext : forall x l1 l2,
  (forall y, In y l1 <-> In y l2) -> mem_str x l1 = mem_str x l2.
Proof.
  intros x l1 l2 H.
  destruct (mem_str x l1) eqn:E1; destruct (mem_str x l2) eqn:E2;
    try reflexivity.
  - apply mem_str_In, H, mem_str_In in E1. congruence.
  - apply mem_str_In, H, mem_str_In in E2. congruence.
Qed.

Lemma forward_endpoints : forall steps v x,
  steps <> [] ->
  (In x (aliases_in_comp (forward_rels v steps))
   <-> In x (forward_aliases v steps)).
Proof.
  unfold aliases_in_comp, forward_aliases.
  induction steps as [|[rt w] r IH]; intros v x Hne; [contradiction|].
  destruct r as [|s r].
  - simpl. tauto.
  - specialize (IH w x ltac:(discriminate)).
    rewrite in_app_iff in IH. rewrite in_app_iff.
    change (forward_rels v ((rt, w) :: s :: r))
      with ((v, w, rt) :: forward_rels w (s :: r)).
    cbn [map fst snd In]. cbn [map snd In] in IH.
    destruct s as [rt' w']. cbn [forward_rels map fst snd In] in *.
    tauto.
Qed.

(** X16: mandatory relationships that form a path over distinct
    aliases, each pointing along the path and listed in the order of the
    path, are rendered as one pattern that reads the path from its
    first alias to its last, every arrow forward; the nodes that are not
    on the path follow as patterns of their own.  The iteration order
    of the sets has no influence. *)
Theorem forward_path_reads_left_to_right :
  forall (O : SetOrder) (nodes : list Node.t)
         (relationships : list Relationship.t)
         (v : string) (steps : list (string * string)),
    steps <> [] ->
    NoDup (forward_aliases v steps) ->
    (forall rel, In rel relationships -> is_regular rel = true) ->
    map pair_of relationships = forward_rels v steps ->
    _build_single_match_clause nodes relationships
    = Ok ("MATCH "
          ++ PyStr.join ", "
               ((_fmt_node v (node_lookup_of nodes)
                 ++ forward_text (node_lookup_of nodes) steps)
                :: map node_pattern (off_path v steps nodes))).
Proof.
  intros O nodes rels v steps Hne ND Hreg Hpairs.
  unfold _build_single_match_clause.
  rewrite (filter_all _ is_regular rels Hreg).
  destruct rels as [|rel rels].
  - destruct steps as [|[rt w] r]; [contradiction|discriminate].
  - rewrite Hpairs. cbv zeta.
    rewrite (forward_components O steps v Hne ND).
    cbn [map_result].
    rewrite (chain_forward steps v (node_lookup_of nodes) Hne ND).
    cbn [bind app]. f_equal. f_equal. f_equal. f_equal. f_equal.
    unfold off_path. apply filter_ext. intro n. f_equal.
    apply mem_str_ext. intro y. now apply forward_endpoints.
Qed.

Lemma forward_path_reads_left_to_right_witness :
  _build_single_match_clause (O := insertion_order)
    [Node.mk "A" "a"; Node.mk "B" "b"; Node.mk "C" "c"; Node.mk "D" "d"]
    [Relationship.mk "a" "b" "R" None; Relationship.mk "b" "c" "S" (Some false)]
  = Ok "MATCH (a:A)-[:R]->(b:B)-[:S]->(c:C), (d:D)".
Proof.
  apply (forward_path_reads_left_to_right insertion_order
           [Node.mk "A" "a"; Node.mk "B" "b"; Node.mk "C" "c"; Node.mk "D" "d"]
           [Relationship.mk "a" "b" "R" None;
            Relationship.mk "b" "c" "S" (Some false)]
           "a" [("R", "b"); ("S", "c")]).
  - discriminate.
  - repeat constructor; simpl; intuition discriminate.
  - intros rel [<-|[<-|[]]]; reflexivity.
  - reflexivity.
Defined.
